(** * Duplicate query finder: extraction, canonicalisation, aggregation, report

    A shallow embedding of [main.go].  Go strings are byte sequences; they are
    modelled as [list ascii] ([ascii] is an 8-bit byte).  The library
    functions of packages [strings] and [regexp] are modelled on ASCII text:
    [strings.ToLower] and [strings.ToUpper] by their ASCII path, and the
    patterns by a backtracking matcher with the leftmost-first preference
    order of Go's [regexp] (RE2 syntax, non-POSIX).  Theorems about these
    functions are stated for ASCII text. *)

From Stdlib Require Import List Ascii String Arith Lia Bool Permutation.
From Stdlib Require Import DecimalString DecimalNat.
From stdpp Require Import gmap sorting.
Import ListNotations.

Local Open Scope list_scope.

Abbreviation gostring := (list ascii).

(** A string literal, as a byte sequence. *)
Definition str (s : string) : gostring := list_ascii_of_string s.

(** ** Characters *)

Definition code (c : ascii) : nat := nat_of_ascii c.

Definition in_range (lo hi : nat) (c : ascii) : bool :=
  (lo <=? code c) && (code c <=? hi).

Definition is_ascii (c : ascii) : bool := code c <? 128.
Definition is_upper (c : ascii) : bool := in_range 65 90 c.
Definition is_lower (c : ascii) : bool := in_range 97 122 c.

(** [\d] *)
Definition is_digit (c : ascii) : bool := in_range 48 57 c.

(** [\s] of RE2: tab, newline, form feed, carriage return, space. *)
Definition is_space (c : ascii) : bool :=
  match code c with
  | 9 | 10 | 12 | 13 | 32 => true
  | _ => false
  end.

(** The white space of [strings.TrimSpace] on ASCII: [\s] and vertical tab. *)
Definition is_trim_space (c : ascii) : bool :=
  match code c with
  | 9 | 10 | 11 | 12 | 13 | 32 => true
  | _ => false
  end.

(** [\w] *)
Definition is_word (c : ascii) : bool :=
  is_digit c || is_upper c || is_lower c || (code c =? 95).

Definition lower (c : ascii) : ascii :=
  if is_upper c then ascii_of_nat (code c + 32) else c.

Definition upper (c : ascii) : ascii :=
  if is_lower c then ascii_of_nat (code c - 32) else c.

Definition ascii_text (s : gostring) : Prop := Forall (fun c => is_ascii c = true) s.

(** ** Package [strings] *)

(** [strings.ToLower] and [strings.ToUpper], on ASCII text.  A byte above 127
    is left as it is, as Go leaves the characters that have no other case. *)
Definition ToLower (s : gostring) : gostring := map lower s.
Definition ToUpper (s : gostring) : gostring := map upper s.

Fixpoint trim_left (s : gostring) : gostring :=
  match s with
  | c :: t => if is_trim_space c then trim_left t else s
  | [] => []
  end.

Definition trim_right (s : gostring) : gostring := rev (trim_left (rev s)).

Definition TrimSpace (s : gostring) : gostring := trim_right (trim_left s).

Fixpoint HasPrefix (s prefix : gostring) : bool :=
  match prefix, s with
  | [], _ => true
  | p :: prefix', c :: s' => Ascii.eqb c p && HasPrefix s' prefix'
  | _ :: _, [] => false
  end.

Definition HasSuffix (s suffix : gostring) : bool := HasPrefix (rev s) (rev suffix).

Fixpoint Contains (s substr : gostring) : bool :=
  HasPrefix s substr ||
  match s with
  | [] => false
  | _ :: t => Contains t substr
  end.

(** ** Package [regexp] *)

(** The fragment of RE2 syntax that the program's patterns use. *)
Inductive regex : Type :=
| Empty                          (* the empty pattern *)
| Class (p : ascii -> bool)      (* one character of a class *)
| Cat (r1 r2 : regex)            (* r1r2 *)
| Alt (r1 r2 : regex)            (* r1|r2, prefers r1 *)
| Star (r : regex)               (* r*, prefers more *)
| LazyStar (r : regex)           (* r*?, prefers fewer *)
| EndText.                       (* $ without flag m: end of text *)

Definition Plus (r : regex) : regex := Cat r (Star r).          (* r+ *)
Definition LazyPlus (r : regex) : regex := Cat r (LazyStar r).  (* r+? *)
Definition Opt (r : regex) : regex := Alt r Empty.              (* r? *)

Definition Chr (c : ascii) : regex := Class (Ascii.eqb c).

(** A literal character under flag [i], on ASCII text (Go also takes U+017F
    for [s] and U+212A for [k]). *)
Definition ChrI (c : ascii) : regex := Class (fun x => Ascii.eqb (lower x) (lower c)).

Fixpoint LitI (w : gostring) : regex :=
  match w with
  | [] => Empty
  | [c] => ChrI c
  | c :: w' => Cat (ChrI c) (LitI w')
  end.

Definition or_else {A} (x y : option A) : option A :=
  match x with
  | Some _ => x
  | None => y
  end.

(** The iterations of [r*] and [r*?]: [m] matches one [r].  An iteration
    must consume input, so the length of the input bounds their number. *)
Definition star_loop (m : gostring -> (gostring -> option gostring) -> option gostring)
    (k : gostring -> option gostring) : nat -> gostring -> option gostring :=
  fix loop (n : nat) (s : gostring) : option gostring :=
    match n with
    | O => k s
    | S n' =>
        or_else
          (m s (fun s1 => if length s1 <? length s then loop n' s1 else None))
          (k s)
    end.

Definition lazy_loop (m : gostring -> (gostring -> option gostring) -> option gostring)
    (k : gostring -> option gostring) : nat -> gostring -> option gostring :=
  fix loop (n : nat) (s : gostring) : option gostring :=
    match n with
    | O => k s
    | S n' =>
        or_else
          (k s)
          (m s (fun s1 => if length s1 <? length s then loop n' s1 else None))
    end.

(** Backtracking search for a match of [r] at the start of [s], in the order
    of preference of the pattern; [k] is what remains to be matched after [r]
    and receives the rest of the input. *)
Fixpoint bt (r : regex) (s : gostring) (k : gostring -> option gostring)
  {struct r} : option gostring :=
  match r with
  | Empty => k s
  | Class p =>
      match s with
      | c :: t => if p c then k t else None
      | [] => None
      end
  | Cat r1 r2 => bt r1 s (fun s1 => bt r2 s1 k)
  | Alt r1 r2 => or_else (bt r1 s k) (bt r2 s k)
  | Star r1 => star_loop (bt r1) k (length s) s
  | LazyStar r1 => lazy_loop (bt r1) k (length s) s
  | EndText =>
      match s with
      | [] => k []
      | _ :: _ => None
      end
  end.

(** A pattern that can match the empty string. *)
Fixpoint nullable (r : regex) : bool :=
  match r with
  | Empty | Star _ | LazyStar _ | EndText => true
  | Class _ => false
  | Cat r1 r2 => nullable r1 && nullable r2
  | Alt r1 r2 => nullable r1 || nullable r2
  end.

(** The length of the preferred match of [r] at the start of [s]. *)
Definition match_len (r : regex) (s : gostring) : option nat :=
  match bt r s Some with
  | Some rest => Some (length s - length rest)
  | None => None
  end.

(** [re.ReplaceAllString(src, repl)] for a template [repl] without [$]:
    successive leftmost non-overlapping matches are replaced.  [skip] counts
    the characters of the current match still to be passed over.  None of the
    program's patterns matches the empty string ([program_patterns_consume]
    below), so that the rules of Go for empty matches do not come into play. *)
Fixpoint replace_from (r : regex) (repl : gostring) (skip : nat) (s : gostring)
  : gostring :=
  match s with
  | [] => []
  | c :: t =>
      match skip with
      | S j => replace_from r repl j t
      | O =>
          match match_len r s with
          | Some (S n) => repl ++ replace_from r repl n t
          | _ => c :: replace_from r repl 0 t
          end
      end
  end.

Definition ReplaceAllString (r : regex) (src repl : gostring) : gostring :=
  replace_from r repl 0 src.

(** [re.FindAllString(text, -1)]: the successive leftmost non-overlapping
    matches. *)
Fixpoint find_from (r : regex) (skip : nat) (s : gostring) : list gostring :=
  match s with
  | [] => []
  | _ :: t =>
      match skip with
      | S j => find_from r j t
      | O =>
          match match_len r s with
          | Some (S n) => firstn (S n) s :: find_from r n t
          | _ => find_from r 0 t
          end
      end
  end.

Definition FindAllString (r : regex) (text : gostring) : list gostring :=
  find_from r 0 text.

(** ** [normalizeQuery] *)

Definition ws : regex := Class is_space.

(** [[\s\n\r\t]+] *)
Definition re_whitespace : regex :=
  Plus (Class (fun c => is_space c || Ascii.eqb c "010" || Ascii.eqb c "013" || Ascii.eqb c "009")).

(** [\s*c\s*] for a punctuation character [c]. *)
Definition re_around (c : ascii) : regex := Cat (Star ws) (Cat (Chr c) (Star ws)).

(** [q[^q]*q] for a quote character [q]. *)
Definition re_quoted (q : ascii) : regex :=
  Cat (Chr q) (Cat (Star (Class (fun c => negb (Ascii.eqb c q)))) (Chr q)).

(** The table of patterns and replacements; 034 is the double quote. *)
Definition replacements : list (regex * gostring) :=
  [ (re_around "=", str " = ");           (* \s*=\s*   *)
    (re_around ",", str ", ");            (* \s*,\s*   *)
    (Plus ws, str " ");                   (* \s+       *)
    (Plus (Class is_digit), str "N");     (* \d+       *)
    (re_quoted "'", str "S");             (* '[^']*'   *)
    (re_quoted "034", str "S");           (* 034[^034]*034 *)
    (re_around "(", str " ( ");           (* \s*\(\s*  *)
    (re_around ")", str " ) ") ].         (* \s*\)\s*  *)

Definition normalizeQuery (query : gostring) : gostring :=
  let normalized := ReplaceAllString re_whitespace query (str " ") in
  let normalized := TrimSpace normalized in
  let normalized := ToLower normalized in
  fold_left (fun normalized r => ReplaceAllString (fst r) normalized (snd r))
            replacements normalized.

(** ** [findSQLQueries] *)

Definition any : regex := Class (fun _ => true).   (* [\s\S] *)

Fixpoint alts (rs : list regex) : regex :=
  match rs with
  | [] => Empty
  | [r] => r
  | r :: rs' => Alt r (alts rs')
  end.

Fixpoint cats (rs : list regex) : regex :=
  match rs with
  | [] => Empty
  | [r] => r
  | r :: rs' => Cat r (cats rs')
  end.

Definition kw (w : string) : regex := LitI (str w).

Definition sql_pattern : regex :=
  Cat
    (alts
       [ cats [kw "SELECT"; Plus ws; LazyPlus any; Opt (Cat (kw "FROM") (LazyPlus any))];
         cats [kw "INSERT"; Plus ws; kw "INTO"; LazyPlus any];
         cats [kw "UPDATE"; Plus ws; Plus (Class is_word); Plus ws; kw "SET"; LazyPlus any];
         cats [kw "DELETE"; Plus ws; kw "FROM"; LazyPlus any];
         cats [kw "CREATE"; Plus ws; alts [kw "TABLE"; kw "DATABASE"; kw "INDEX"]; LazyPlus any];
         cats [kw "ALTER"; Plus ws; kw "TABLE"; LazyPlus any];
         cats [kw "DROP"; Plus ws; alts [kw "TABLE"; kw "DATABASE"]; LazyPlus any];
         cats [kw "TRUNCATE"; Plus ws; kw "TABLE"; LazyPlus any] ])
    (Alt (Chr ";") EndText).

(** The validation of a cleaned match. *)
Definition looks_like_sql (cleaned : gostring) : bool :=
  (0 <? length cleaned) &&
  (HasSuffix cleaned (str ";")
   || Contains (ToUpper cleaned) (str "SELECT")
   || Contains (ToUpper cleaned) (str "INSERT")
   || Contains (ToUpper cleaned) (str "UPDATE")).

Definition findSQLQueries (text : gostring) : list gostring :=
  let matches := FindAllString sql_pattern text in
  fold_left
    (fun result match_ =>
       let cleaned := TrimSpace match_ in
       if looks_like_sql cleaned then result ++ [cleaned] else result)
    matches [].

(** ** [findDuplicates] *)

Record QueryResult : Type := {
  FilePath : gostring;
  Query : gostring;
  Normalized : gostring
}.

(** [duplicates[k]]: a missing key reads as the nil slice. *)
Definition group (duplicates : gmap gostring (list QueryResult)) (k : gostring)
  : list QueryResult := default [] (duplicates !! k).

(** [duplicates[query.Normalized] = append(duplicates[query.Normalized], query)] *)
Definition add_query (duplicates : gmap gostring (list QueryResult)) (query : QueryResult)
  : gmap gostring (list QueryResult) :=
  <[Normalized query := group duplicates (Normalized query) ++ [query]]> duplicates.

(** The second loop: [entries] are the entries of the map in the order in
    which [range] yields them. *)
Definition drop_singletons (entries : list (gostring * list QueryResult))
    (duplicates : gmap gostring (list QueryResult)) : gmap gostring (list QueryResult) :=
  fold_left
    (fun m kv => if length kv.2 =? 1 then delete kv.1 m else m)
    entries duplicates.

Definition findDuplicates (queries : list QueryResult) : gmap gostring (list QueryResult) :=
  let duplicates := fold_left add_query queries ∅ in
  drop_singletons (map_to_list duplicates) duplicates.

(** ** [printResults] *)

(** [a < b] on Go strings: bytewise lexicographic order. *)
Fixpoint str_ltb (a b : gostring) : bool :=
  match a, b with
  | _, [] => false
  | [], _ :: _ => true
  | x :: a', y :: b' => (code x <? code y) || ((code x =? code y) && str_ltb a' b')
  end.

(** The comparison passed to [sort.Slice]. *)
Definition less (duplicates : gmap gostring (list QueryResult)) (ki kj : gostring) : bool :=
  if negb (length (group duplicates ki) =? length (group duplicates kj))
  then length (group duplicates kj) <? length (group duplicates ki)
  else str_ltb ki kj.

(** [sort.Slice(keys, less)] rearranges [keys] into an order sorted by
    [less]; for the strict total order above there is one such order
    ([sorted_unique] below), which insertion computes. *)
Fixpoint insert_by (lt : gostring -> gostring -> bool) (k : gostring) (l : list gostring)
  : list gostring :=
  match l with
  | [] => [k]
  | h :: t => if lt k h then k :: l else h :: insert_by lt k t
  end.

Definition sort_Slice (lt : gostring -> gostring -> bool) (keys : list gostring)
  : list gostring := fold_right (insert_by lt) [] keys.

(** [%d] *)
Definition itoa (n : nat) : gostring := str (NilZero.string_of_uint (Nat.to_uint n)).

Definition newline : gostring := ["010"%char].

(** [fmt.Printf("Count: %d -- Normalized Query:\t %s\n", len(duplicates[k]), k)] *)
Definition group_line (duplicates : gmap gostring (list QueryResult)) (k : gostring)
  : gostring :=
  str "Count: " ++ itoa (length (group duplicates k)) ++ str " -- Normalized Query:"
    ++ ["009"%char; " "%char] ++ k ++ newline.

(** What [printResults] writes to standard output.  [range_keys] is the
    order in which [range duplicates] yields the keys, which Go leaves
    unspecified. *)
Definition printResults (range_keys : list gostring)
    (duplicates : gmap gostring (list QueryResult)) : gostring :=
  if size duplicates =? 0 then str "No duplicate queries found" ++ newline
  else
    str "Found " ++ itoa (size duplicates) ++ str " duplicate queries" ++ newline
      ++ concat (map (group_line duplicates) (sort_Slice (less duplicates) range_keys)).

(** The keys of a map in some order. *)
Definition keys_of (duplicates : gmap gostring (list QueryResult)) (keys : list gostring)
  : Prop := keys ≡ₚ (map_to_list duplicates).*1.

(** The occurrences of a normalized form, in input order. *)
Definition occurrences (k : gostring) (queries : list QueryResult) : list QueryResult :=
  filter (fun q => Normalized q = k) queries.

(** Lexicographic order on byte strings. *)
Inductive lex_lt : gostring -> gostring -> Prop :=
| lex_nil : forall y b, lex_lt [] (y :: b)
| lex_head : forall x a y b, code x < code y -> lex_lt (x :: a) (y :: b)
| lex_tail : forall x a b, lex_lt a b -> lex_lt (x :: a) (x :: b).

(** The order of the group lines of a report: larger groups first, groups of
    the same size by ascending key. *)
Definition precedes (duplicates : gmap gostring (list QueryResult)) (k1 k2 : gostring)
  : Prop :=
  length (group duplicates k2) < length (group duplicates k1)
  \/ (length (group duplicates k1) = length (group duplicates k2) /\ lex_lt k1 k2).

(** ** The lines of a report *)

(** The normalized forms that occur at least twice, each once. *)
Definition duplicate_forms (queries : list QueryResult) : list gostring :=
  filter (fun k => 2 <= length (occurrences k queries))
         (remove_dups (map Normalized queries)).

(** The lines of a report. *)
Definition no_duplicates_line : gostring := str "No duplicate queries found" ++ newline.

Definition count_line (n : nat) : gostring :=
  str "Found " ++ itoa n ++ str " duplicate queries" ++ newline.

(** ** Decimal numerals and the text of the lines *)

(** The number that a string of decimal digits denotes. *)
Definition digit_value (c : ascii) : nat := code c - 48.

Definition numeral_value (s : gostring) : nat :=
  fold_left (fun n c => 10 * n + digit_value c) s 0.

(** [s] is the decimal numeral of [n]: a non-empty string of digits that
    denotes [n] and that begins with 0 only when it is the numeral 0. *)
Definition decimal_numeral (n : nat) (s : gostring) : Prop :=
  forallb is_digit s = true
  /\ match s with
     | [] => False
     | c :: t => c = "0"%char -> t = []
     end
  /\ numeral_value s = n.

(** The header of a report that announces [n] groups, and the line of a
    group of [n] occurrences of the normalized form [k], as texts. *)
Definition is_count_line (n : nat) (line : gostring) : Prop :=
  exists numeral,
    decimal_numeral n numeral
    /\ line = str "Found " ++ numeral ++ str " duplicate queries" ++ ["010"%char].

Definition is_group_line (n : nat) (k : gostring) (line : gostring) : Prop :=
  exists numeral,
    decimal_numeral n numeral
    /\ line = str "Count: " ++ numeral ++ str " -- Normalized Query:"
                ++ ["009"%char; " "%char] ++ k ++ ["010"%char].

(** ** Statements that differ only in case, white space and literals *)

(** No character of [s] is in the class. *)
Definition none_in (p : ascii -> bool) (s : gostring) : bool := forallb (fun x => negb (p x)) s.

(** [s] has no character [q]. *)
Definition free_of (q : ascii) (s : gostring) : bool := none_in (Ascii.eqb q) s.

(** The two quote characters; 034 is the double quote. *)
Definition is_quote (q : ascii) : bool := Ascii.eqb q "'" || Ascii.eqb q "034".

(** Space, tab, newline, carriage return. *)
Definition is_blank (c : ascii) : bool :=
  match code c with
  | 9 | 10 | 13 | 32 => true
  | _ => false
  end.

Definition nonempty (s : gostring) : bool :=
  match s with
  | [] => false
  | _ :: _ => true
  end.

Definition blanks (u : gostring) : bool := forallb is_blank u.

(** The characters around which [normalizeQuery] sets the spacing. *)
Definition is_spaced (p : ascii) : bool :=
  Ascii.eqb p "=" || Ascii.eqb p "," || Ascii.eqb p "(" || Ascii.eqb p ")".

(** In the statement [a ++ rest], the text [a] ends outside the literals:
    it is made of characters that are no quotes, of quotes that no later
    quote of their kind matches, and of literals, from a quote to the next
    quote of its kind.  With [plain], no literal of [a] contains an
    apostrophe. *)
Inductive outside (plain : bool) : gostring -> gostring -> Prop :=
| outside_nil rest : outside plain [] rest
| outside_char c a rest :
    is_quote c = false -> outside plain a rest -> outside plain (c :: a) rest
| outside_unmatched q a rest :
    is_quote q = true -> free_of q (a ++ rest) = true ->
    outside plain a rest -> outside plain (q :: a) rest
| outside_literal q body a rest :
    is_quote q = true -> free_of q body = true ->
    (plain = true -> free_of "'" body = true) ->
    outside plain a rest -> outside plain (q :: body ++ q :: a) rest.

(** Two statements differ only in letter case, in incidental white space,
    in the digits of their numbers and in the contents of their literals:
    one is made from the other by changes of these kinds, one after the
    other.  Incidental white space is a run of blanks (another run can stand
    for it), the blanks next to [=], [,], [(] and [)], and the blanks at the
    ends.  With [plain], the literals whose contents change, and the
    literals before them, contain no apostrophe. *)
Inductive differ_only (plain : bool) : gostring -> gostring -> Prop :=
| differ_none x : differ_only plain x x
| differ_back x y : differ_only plain x y -> differ_only plain y x
| differ_more x y z :
    differ_only plain x y -> differ_only plain y z -> differ_only plain x z
| differ_case x y : ToLower x = ToLower y -> differ_only plain x y
| differ_blank_run a u u' b :
    nonempty u = true -> blanks u = true -> nonempty u' = true -> blanks u' = true ->
    differ_only plain (a ++ u ++ b) (a ++ u' ++ b)
| differ_blanks_around a u p v b :
    is_spaced p = true -> blanks u = true -> blanks v = true ->
    differ_only plain (a ++ u ++ p :: v ++ b) (a ++ p :: b)
| differ_blanks_at_ends u x v :
    blanks u = true -> blanks v = true -> differ_only plain (u ++ x ++ v) x
| differ_number a d d' b :
    nonempty d = true -> forallb is_digit d = true ->
    nonempty d' = true -> forallb is_digit d' = true ->
    differ_only plain (a ++ d ++ b) (a ++ d' ++ b)
| differ_literal a q body body' b :
    is_quote q = true -> free_of q body = true -> free_of q body' = true ->
    (plain = true -> free_of "'" body = true /\ free_of "'" body' = true) ->
    outside plain a (q :: body ++ q :: b) ->
    differ_only plain (a ++ q :: body ++ q :: b) (a ++ q :: body' ++ q :: b).

(** The relation for literals of any contents, and the relation for
    literals without apostrophe. *)
Definition differ_only_in_literals : gostring -> gostring -> Prop := differ_only false.

Definition differ_only_in_plain_literals : gostring -> gostring -> Prop := differ_only true.

(** A token N or S of the output. *)
Definition is_token_letter (c : ascii) : bool := Ascii.eqb c "N" || Ascii.eqb c "S".

(** ** The replacements of [normalizeQuery], each as one pass over the input *)

(** [p+] replaced by [rep]: [inrun] tells that the previous character was in
    the class, so that the current run has been replaced already. *)
Fixpoint collapse_run (p : ascii -> bool) (rep : gostring) (inrun : bool) (s : gostring)
  : gostring :=
  match s with
  | [] => []
  | x :: t =>
      if p x then (if inrun then [] else rep) ++ collapse_run p rep true t
      else x :: collapse_run p rep false t
  end.

(** [\s*c\s*] replaced by [rep]: white space is held back until it is known
    whether [c] follows it; after a [c], white space is dropped. *)
Inductive around_state : Type :=
| AfterMatch
| Pending (held : gostring).

(** What [around_go] has held back. *)
Definition flush (st : around_state) : gostring :=
  match st with
  | AfterMatch => []
  | Pending held => held
  end.

Fixpoint around_go (c : ascii) (rep : gostring) (st : around_state) (s : gostring)
  : gostring :=
  match s with
  | [] => flush st
  | x :: t =>
      if Ascii.eqb c x then rep ++ around_go c rep AfterMatch t
      else if is_space x then
        match st with
        | AfterMatch => around_go c rep AfterMatch t
        | Pending held => around_go c rep (Pending (held ++ [x])) t
        end
      else flush st ++ x :: around_go c rep (Pending []) t
  end.

(** [q[^q]*q] replaced by [rep]: [inside] holds the text read since an
    opening quote that has not been closed yet. *)
Fixpoint quoted_go (q : ascii) (rep : gostring) (inside : option gostring) (s : gostring)
  : gostring :=
  match s with
  | [] =>
      match inside with
      | Some body => q :: body
      | None => []
      end
  | x :: t =>
      match inside with
      | None =>
          if Ascii.eqb q x then quoted_go q rep (Some []) t
          else x :: quoted_go q rep None t
      | Some body =>
          if Ascii.eqb q x then rep ++ quoted_go q rep None t
          else quoted_go q rep (Some (body ++ [x])) t
      end
  end.

(** The passes at the arguments of the program: the collapse of white
    space, the masking of digit runs, the spacing around a character [c], the
    masking of the literals in quotes [q]. *)
Definition collapse_spaces (s : gostring) : gostring := collapse_run is_space (str " ") false s.
Definition mask_digits (s : gostring) : gostring := collapse_run is_digit (str "N") false s.
Definition pad (c : ascii) (rep : gostring) (s : gostring) : gostring :=
  around_go c rep (Pending []) s.
Definition mask_quoted (q : ascii) (s : gostring) : gostring := quoted_go q (str "S") None s.

(** The replacements that do not mask: spacing around [=] and [,], white
    space, spacing around parentheses. *)
Definition spacing (s : gostring) : gostring :=
  pad ")" (str " ) ") (pad "(" (str " ( ")
    (collapse_spaces (pad "," (str ", ") (pad "=" (str " = ") s)))).

(** The masking of all literals: quoted literals first, then digit runs
    (the program masks the digits first; [mask_order] below shows that the
    order does not matter). *)
Definition mask (s : gostring) : gostring :=
  mask_digits (mask_quoted "034" (mask_quoted "'" s)).

(** ** Notions about the matcher and the passes *)

(** [p*] followed by [k], when one step of [p] is a character class. *)
Fixpoint star_class (p : ascii -> bool) (k : gostring -> option gostring) (s : gostring)
  : option gostring :=
  match s with
  | [] => k []
  | c :: t => or_else (if p c then star_class p k t else None) (k s)
  end.

(** The input after its leading run of characters of a class. *)
Fixpoint drop_class (p : ascii -> bool) (s : gostring) : gostring :=
  match s with
  | c :: t => if p c then drop_class p t else s
  | [] => []
  end.

(** The first character after the leading white space is [c]. *)
Definition next_is (c : ascii) (s : gostring) : bool :=
  match drop_class is_space s with
  | y :: _ => Ascii.eqb c y
  | [] => false
  end.

(** [[^q]] *)
Definition not_quote (q x : ascii) : bool := negb (Ascii.eqb x q).

(** An inert character for [\s*c\s*]: neither white space nor [c]. *)
Definition inert (c x : ascii) : bool := negb (is_space x) && negb (Ascii.eqb c x).

(** The state of [collapse_run] after a prefix. *)
Definition state_after (p : ascii -> bool) (b : bool) (a : gostring) : bool :=
  match rev a with
  | [] => b
  | z :: _ => p z
  end.

(** The states of [around_go] and of the masking of digits that can occur
    together. *)
Definition joint (st : around_state) (b : bool) : Prop :=
  match st with
  | AfterMatch => b = false
  | Pending held => none_in is_digit held = true /\ (b = true -> held = [])
  end.

(** [u] is empty or ends outside the class. *)
Definition ends_outside (p : ascii -> bool) (u : gostring) : Prop :=
  u = [] \/ exists u' y, u = u' ++ [y] /\ p y = false.

(** The state of [around_go] on lower-cased input. *)
Definition lower_state (st : around_state) : around_state :=
  match st with
  | AfterMatch => AfterMatch
  | Pending held => Pending (map lower held)
  end.

(** The number of occurrences of a character. *)
Fixpoint occ (q : ascii) (s : gostring) : nat :=
  match s with
  | [] => 0
  | x :: t => (if Ascii.eqb q x then 1 else 0) + occ q t
  end.

(** A string in which nothing is left to mask: no digit, and at most one
    quote of each kind. *)
Definition masked (s : gostring) : Prop :=
  none_in is_digit s = true /\ occ "'" s <= 1 /\ occ "034" s <= 1.

(** ** Strings as characters separated by gaps of white space *)

(** What stands next to a gap. *)
Inductive neighbour : Type := Edge | SymEq | SymComma | SymOpen | SymClose | Other.

Definition neighbour_of (x : ascii) : neighbour :=
  if Ascii.eqb "=" x then SymEq
  else if Ascii.eqb "," x then SymComma
  else if Ascii.eqb "(" x then SymOpen
  else if Ascii.eqb ")" x then SymClose
  else Other.

Definition neighbour_eqb (a b : neighbour) : bool :=
  match a, b with
  | Edge, Edge | SymEq, SymEq | SymComma, SymComma
  | SymOpen, SymOpen | SymClose, SymClose | Other, Other => true
  | _, _ => false
  end.

(** A string is a list of characters that are not white space, each with the
    gap before it, and a last gap. *)
Definition gapped : Type := list (gostring * ascii) * gostring.

Fixpoint flat_items (its : list (gostring * ascii)) : gostring :=
  match its with
  | [] => []
  | (g, x) :: rest => g ++ x :: flat_items rest
  end.

(** The string that a gapped string stands for. *)
Definition flat (w : gapped) : gostring := flat_items (fst w) ++ snd w.

(** A gap is made of white space. *)
Definition spaces (g : gostring) : bool := forallb is_space g.

Definition well_gapped (w : gapped) : Prop :=
  Forall (fun gx => spaces (fst gx) = true /\ is_space (snd gx) = false) (fst w)
  /\ spaces (snd w) = true.

(** A rewriting of the gaps, each according to its two neighbours. *)
Definition gap_rule : Type := neighbour -> gostring -> neighbour -> gostring.

Fixpoint regap_items (f : gap_rule) (prev : neighbour) (its : list (gostring * ascii))
  : list (gostring * ascii) :=
  match its with
  | [] => []
  | (g, x) :: rest => (f prev g (neighbour_of x), x) :: regap_items f (neighbour_of x) rest
  end.

Fixpoint last_neighbour (prev : neighbour) (its : list (gostring * ascii)) : neighbour :=
  match its with
  | [] => prev
  | (_, x) :: rest => last_neighbour (neighbour_of x) rest
  end.

Definition regap (f : gap_rule) (w : gapped) : gapped :=
  (regap_items f Edge (fst w), f (last_neighbour Edge (fst w)) (snd w) Edge).

(** The rules of the passes. *)
Definition pad_rule (c : neighbour) (l r : gostring) : gap_rule :=
  fun prev g next =>
    (if neighbour_eqb prev c then r else [])
      ++ (if neighbour_eqb prev c || neighbour_eqb next c then [] else g)
      ++ (if neighbour_eqb next c then l else []).

(** A gap collapsed. *)
Definition squeeze (g : gostring) : gostring :=
  match g with
  | [] => []
  | _ :: _ => str " "
  end.

Definition squeeze_rule : gap_rule := fun _ g _ => squeeze g.

Definition trim_rule : gap_rule :=
  fun prev g next =>
    match prev, next with
    | Edge, _ | _, Edge => []
    | _, _ => g
    end.

(** One rule after another. *)
Definition then_rule (f1 f2 : gap_rule) : gap_rule :=
  fun prev g next => f2 prev (f1 prev g next) next.

(** The rule of [spacing]. *)
Definition spacing_rule : gap_rule :=
  then_rule (pad_rule SymEq (str " ") (str " "))
    (then_rule (pad_rule SymComma [] (str " "))
       (then_rule squeeze_rule
          (then_rule (pad_rule SymOpen (str " ") (str " "))
             (pad_rule SymClose (str " ") (str " "))))).

(** A rule that makes gaps from gaps. *)
Definition keeps_spaces (f : gap_rule) : Prop :=
  forall prev g next, spaces g = true -> spaces (f prev g next) = true.

(** The state of [around_go] after a neighbour, and what it has written
    after the character already. *)
Definition state_for (tc prev : neighbour) : around_state :=
  if neighbour_eqb prev tc then AfterMatch else Pending [].

Definition lead_for (tc : neighbour) (r : gostring) (prev : neighbour) : gostring :=
  if neighbour_eqb prev tc then r else [].

(** The first and the last character are not trimmed by [TrimSpace]. *)
Definition outer_ok (its : list (gostring * ascii)) : Prop :=
  match its with
  | [] => True
  | (_, x0) :: _ =>
      is_trim_space x0 = false /\ is_trim_space (List.last (map snd its) x0) = false
  end.

(** The first and the last gap are empty. *)
Definition no_outer_gaps (w : gapped) : Prop :=
  snd w = [] /\ match fst w with
                | [] => True
                | (g0, _) :: _ => g0 = []
                end.

(** ** Gaps next to a character *)

(** Two strings that are the same but for the gaps on the two sides of one
    occurrence of the character [p]. *)
Definition gaps_around (p : ascii) (s s' : gostring) : Prop :=
  exists before after u v u' v',
    spaces u = true /\ spaces v = true /\ spaces u' = true /\ spaces v' = true
    /\ s = before ++ u ++ p :: v ++ after
    /\ s' = before ++ u' ++ p :: v' ++ after.

(** ** What becomes of the characters of a statement *)

Definition starts_with_digit (s : gostring) : bool :=
  match s with
  | c :: _ => is_digit c
  | [] => false
  end.

(** The statement in lower case with its literals in quotes masked: a
    character is carried over in lower case, or it lies in a stretch from a
    quote to a later quote of the same kind for which S stands. *)
Inductive literals_masked : gostring -> gostring -> Prop :=
| literals_nil : literals_masked [] []
| literals_carry c s o :
    literals_masked s o -> literals_masked (c :: s) (lower c :: o)
| literals_literal q body s o :
    is_quote q = true -> literals_masked s o ->
    literals_masked (q :: body ++ q :: s) ("S"%char :: o).

(** The statement in lower case with all its literals masked: a character
    that is not a digit is carried over in lower case, N stands for a
    maximal run of digits, and S for a stretch from a quote to a later quote
    of the same kind. *)
Inductive masks_to : gostring -> gostring -> Prop :=
| masks_nil : masks_to [] []
| masks_carry c s o :
    is_digit c = false -> masks_to s o -> masks_to (c :: s) (lower c :: o)
| masks_number d s o :
    d <> [] -> forallb is_digit d = true -> starts_with_digit s = false ->
    masks_to s o -> masks_to (d ++ s) ("N"%char :: o)
| masks_literal q body s o :
    is_quote q = true -> masks_to s o ->
    masks_to (q :: body ++ q :: s) ("S"%char :: o).

(** A change of white space only: characters are kept, white space is
    removed, spaces are inserted. *)
Inductive respaced : gostring -> gostring -> Prop :=
| respaced_nil : respaced [] []
| respaced_keep c s o : respaced s o -> respaced (c :: s) (c :: o)
| respaced_remove c s o :
    is_trim_space c = true -> respaced s o -> respaced (c :: s) o
| respaced_insert s o : respaced s o -> respaced s (" "%char :: o).

(** U+1D400, mathematical bold capital A, in UTF-8: an upper-case letter
    (category Lu) to which Unicode gives no lower-case letter.
    [strings.ToLower] leaves it as it is, and so does [ToLower] here. *)
Definition bold_capital_a : gostring := ["240"; "157"; "144"; "128"]%char.

(** Upper-case letters, as UTF-8 strings: the letters A to Z and, of the
    upper-case letters outside ASCII, U+1D400. *)
Inductive upper_case_letter : gostring -> Prop :=
| upper_case_ascii c : is_upper c = true -> upper_case_letter [c]
| upper_case_bold_a : upper_case_letter bold_capital_a.

(** ** Sample inputs *)

(** Occurrences as [analyzeFile] makes them. *)
Definition sample_query (file query : string) : QueryResult :=
  {| FilePath := str file; Query := str query; Normalized := normalizeQuery (str query) |}.

Definition sample_queries : list QueryResult :=
  [ sample_query "a.php" "SELECT * FROM users WHERE id = 1";
    sample_query "a.php" "UPDATE users SET last_login = NOW() WHERE id = 42";
    sample_query "b.php" "select *  from users where id = 27";
    sample_query "b.php" "DELETE FROM logs";
    sample_query "c.php" "UPDATE users SET last_login = NOW() WHERE id = 7";
    sample_query "c.php" "SELECT * FROM users WHERE id = 3" ].

Definition sample_groups : gmap gostring (list QueryResult) :=
  findDuplicates sample_queries.

Definition sample_keys : list gostring := (map_to_list sample_groups).*1.

(** Two statements that differ in case, in white space, in a number and in
    the contents of a literal; each ends with a double quote that is not
    closed. *)
Definition sample_statement : gostring :=
  str "SELECT * FROM users WHERE status = 'active' AND id=42 AND note=" ++ ["034"%char].

Definition sample_statement' : gostring :=
  str "select  * from" ++ ["010"%char]
    ++ str "users where Status='on hold' and id = 7 and note=" ++ ["034"%char; " "%char].

(** ** [parseFlags] *)

Record Config : Type := {
  FolderPath : gostring;
  IgnoreFolders : list gostring;
  FileType : gostring;
  NumWorkers : Z
}.

(** [strings.Split(s, sep)] for a separator [sep] of one byte: the pieces of
    [s] between the occurrences of [sep]; [piece] is the piece being read. *)
Fixpoint split_from (sep : ascii) (piece : gostring) (s : gostring) : list gostring :=
  match s with
  | [] => [piece]
  | c :: t =>
      if Ascii.eqb c sep then piece :: split_from sep [] t
      else split_from sep (piece ++ [c]) t
  end.

Definition Split (s : gostring) (sep : ascii) : list gostring := split_from sep [] s.

(** [strings.Join(elems, sep)] *)
Fixpoint Join (elems : list gostring) (sep : gostring) : gostring :=
  match elems with
  | [] => []
  | [e] => e
  | e :: rest => e ++ sep ++ Join rest sep
  end.

(** The command line after [flag.Parse]: the value of each flag that was
    given. *)
Record Flags : Type := {
  flag_folder : option gostring;
  flag_ignore : option gostring;
  flag_type : option gostring;
  flag_workers : option Z
}.

(** [numCPU] is [runtime.NumCPU()]. *)
Definition parseFlags (given : Flags) (numCPU : Z) : Config :=
  let folderPath := default (str ".") (flag_folder given) in
  let ignoreFolders := default (str "vendor,node_modules") (flag_ignore given) in
  let fileType := default (str ".php") (flag_type given) in
  let numWorkers := default numCPU (flag_workers given) in
  {| FolderPath := folderPath;
     IgnoreFolders := Split ignoreFolders ",";
     FileType := fileType;
     NumWorkers := numWorkers |}.

(** ** [findFiles] *)

(** The part of the file system below the folder that is scanned, as
    [filepath.Walk] sees it: each entry with its name ([info.Name()]) and, for
    a directory, its entries in the order in which they are read (lexical
    order of the names). *)
Local Unset Elimination Schemes.

Inductive fsnode : Type :=
| File (name : gostring)                          (* not a directory *)
| Dir (name : gostring) (entries : list fsnode)
| Unreadable (name : gostring) (err : gostring)   (* a directory that cannot be listed *)
| Broken (name : gostring) (err : gostring).      (* an entry whose [Lstat] fails *)

Local Set Elimination Schemes.

Definition node_name (node : fsnode) : gostring :=
  match node with
  | File name | Dir name _ | Unreadable name _ | Broken name _ => name
  end.

Definition is_dir (node : fsnode) : bool :=
  match node with
  | Dir _ _ | Unreadable _ _ => true
  | File _ | Broken _ _ => false
  end.

(** What a [WalkFunc] returns: [nil], [filepath.SkipDir], another error. *)
Inductive verdict : Type :=
| Continue
| SkipDir
| Abort (err : gostring).

(** [info.Name() == folder] for one of the ignored folders. *)
Definition ignored (config : Config) (name : gostring) : bool :=
  existsb (fun folder => bool_decide (name = folder)) (IgnoreFolders config).

(** The function that [findFiles] passes to [filepath.Walk]; [files] is the
    slice that it appends to.  [info] is the name and [IsDir()] of the entry,
    absent when [Lstat] failed. *)
Definition walkFn (config : Config) (path : gostring) (info : option (gostring * bool))
    (err : option gostring) (files : list gostring) : verdict * list gostring :=
  match err with
  | Some e => (Abort e, files)
  | None =>
      match info with
      | Some (name, true) =>
          if ignored config name then (SkipDir, files) else (Continue, files)
      | Some (name, false) =>
          if HasSuffix path (FileType config) then (Continue, files ++ [path])
          else (Continue, files)
      | None => (Continue, files)
      end
  end.

Section Walk.

(** [filepath.Join(path, name)] for the path of a directory and the name of
    one of its entries. *)
Variable join : gostring -> gostring -> gostring.
Variable config : Config.

(** [walk] of package [path/filepath], with the loop over the entries of a
    directory. *)
Fixpoint walk (path : gostring) (node : fsnode) (files : list gostring) {struct node}
  : verdict * list gostring :=
  match node with
  | File name => walkFn config path (Some (name, false)) None files
  | Unreadable name e => walkFn config path (Some (name, true)) (Some e) files
  | Broken name e => walkFn config path None (Some e) files
  | Dir name entries =>
      match walkFn config path (Some (name, true)) None files with
      | (Continue, files) =>
          (fix each (entries : list fsnode) (files : list gostring) {struct entries}
             : verdict * list gostring :=
             match entries with
             | [] => (Continue, files)
             | entry :: rest =>
                 let filename := join path (node_name entry) in
                 match entry with
                 | Broken _ e =>
                     match walkFn config filename None (Some e) files with
                     | (Abort e', files) => (Abort e', files)
                     | (_, files) => each rest files
                     end
                 | _ =>
                     match walk filename entry files with
                     | (Continue, files) => each rest files
                     | (SkipDir, files) =>
                         if is_dir entry then each rest files else (SkipDir, files)
                     | (Abort e', files) => (Abort e', files)
                     end
                 end
             end) entries files
      | stop => stop
      end
  end.

(** [filepath.Walk(root, fn)]: [SkipDir] from the root ends the walk without
    error. *)
Definition Walk (root : gostring) (node : fsnode) (files : list gostring)
  : option gostring * list gostring :=
  match walk root node files with
  | (Abort e, files) => (Some e, files)
  | (_, files) => (None, files)
  end.

(** [findFiles] returns the files and the error of the walk. *)
Definition findFiles (node : fsnode) : list gostring * option gostring :=
  let (err, files) := Walk (FolderPath config) node [] in
  (files, err).

(** The loop of [walk] over the entries of a directory. *)
Fixpoint walk_entries (path : gostring) (entries : list fsnode) (files : list gostring)
  : verdict * list gostring :=
  match entries with
  | [] => (Continue, files)
  | entry :: rest =>
      let filename := join path (node_name entry) in
      match entry with
      | Broken _ e =>
          match walkFn config filename None (Some e) files with
          | (Abort e', files) => (Abort e', files)
          | (_, files) => walk_entries path rest files
          end
      | _ =>
          match walk filename entry files with
          | (Continue, files) => walk_entries path rest files
          | (SkipDir, files) =>
              if is_dir entry then walk_entries path rest files else (SkipDir, files)
          | (Abort e', files) => (Abort e', files)
          end
      end
  end.

(** [p] is the path of a file of the tree that lies in no ignored directory:
    the name of no directory on the way from the root to the file is in
    [IgnoreFolders]. *)
Inductive listed : gostring -> fsnode -> gostring -> Prop :=
| listed_file path name : listed path (File name) path
| listed_entry path name entries entry p :
    ignored config name = false ->
    In entry entries ->
    listed (join path (node_name entry)) entry p ->
    listed path (Dir name entries) p.

(** [e] is the error of an entry of the tree that the walk cannot read and
    that lies in no ignored directory. *)
Inductive failing : gostring -> fsnode -> gostring -> Prop :=
| failing_unreadable path name e : failing path (Unreadable name e) e
| failing_broken path name e : failing path (Broken name e) e
| failing_entry path name entries entry e :
    ignored config name = false ->
    In entry entries ->
    failing (join path (node_name entry)) entry e ->
    failing path (Dir name entries) e.

(** What a visit of the walk does, for the files [lists] and the errors
    [fails] below the entry visited: it appends files that are listed and
    have the suffix, and either it stops at an error below the entry, or
    there is no error and all listed files with the suffix are appended. *)
Definition visit_spec (lists fails : gostring -> Prop) (files : list gostring)
    (out : verdict * list gostring) : Prop :=
  exists new,
    out.2 = files ++ new
    /\ (forall p, In p new -> lists p /\ HasSuffix p (FileType config) = true)
    /\ match out.1 with
       | Abort e => fails e
       | _ =>
           (forall p, lists p -> HasSuffix p (FileType config) = true -> In p new)
           /\ forall e, ~ fails e
       end.

(** The files and the errors below the entries of a directory. *)
Definition listed_below (path : gostring) (entries : list fsnode) (p : gostring) : Prop :=
  exists entry, In entry entries /\ listed (join path (node_name entry)) entry p.

Definition failing_below (path : gostring) (entries : list fsnode) (e : gostring) : Prop :=
  exists entry, In entry entries /\ failing (join path (node_name entry)) entry e.

Definition walk_ok (node : fsnode) : Prop :=
  forall path files,
    visit_spec (listed path node) (failing path node) files
               (walk path node files)
    /\ ((walk path node files).1 = SkipDir -> is_dir node = true).

End Walk.

(** ** [analyzeFile] *)

(** A value or an error with its message. *)
Inductive outcome (A : Type) : Type :=
| Value (a : A)
| Failure (err : gostring).

Arguments Value {A} a.
Arguments Failure {A} err.

(** [readFile] is [os.ReadFile] on the file system that is scanned. *)
Definition analyzeFile (readFile : gostring -> outcome gostring) (path : gostring)
  : outcome (list QueryResult) :=
  match readFile path with
  | Failure err => Failure (str "error reading file: " ++ err)
  | Value data =>
      let matches := findSQLQueries data in
      Value (map (fun match_ =>
                    {| FilePath := path; Query := match_; Normalized := normalizeQuery match_ |})
                 matches)
  end.

(** The file can be read. *)
Definition readable (readFile : gostring -> outcome gostring) (path : gostring) : bool :=
  match readFile path with
  | Value _ => true
  | Failure _ => false
  end.

(** ** [worker] and [processFiles] *)

(** A worker goroutine is at the head of its loop, about to receive from
    [jobs]; or it holds the result of a file, about to send it to [results];
    or it has left its loop and called [wg.Done]. *)
Inductive worker_state : Type :=
| Receiving
| Delivering (path : gostring) (res : list QueryResult)
| Done.

(** The goroutine of [processFiles] starts the workers, sends the jobs,
    closes [jobs] and starts the goroutine that waits for the workers, then
    collects the results until [results] is closed, and returns. *)
Inductive main_state : Type :=
| Starting (i : nat)
| Sending (rest : list gostring)
| Collecting
| Returned.

(** The state of a call of [processFiles]: the goroutines, the two buffered
    channels (contents in order of arrival), and [allQueries]. *)
Record pool : Type := {
  at_main : main_state;
  workers : list worker_state;
  jobs : list gostring;
  jobs_closed : bool;
  results : list (list QueryResult);
  results_closed : bool;
  allQueries : list QueryResult
}.

Definition set_main (m : main_state) (st : pool) : pool :=
  {| at_main := m; workers := workers st; jobs := jobs st; jobs_closed := jobs_closed st;
     results := results st; results_closed := results_closed st;
     allQueries := allQueries st |}.

Definition set_workers (ws : list worker_state) (st : pool) : pool :=
  {| at_main := at_main st; workers := ws; jobs := jobs st; jobs_closed := jobs_closed st;
     results := results st; results_closed := results_closed st;
     allQueries := allQueries st |}.

Definition set_jobs (js : list gostring) (st : pool) : pool :=
  {| at_main := at_main st; workers := workers st; jobs := js; jobs_closed := jobs_closed st;
     results := results st; results_closed := results_closed st;
     allQueries := allQueries st |}.

Definition close_jobs (st : pool) : pool :=
  {| at_main := at_main st; workers := workers st; jobs := jobs st; jobs_closed := true;
     results := results st; results_closed := results_closed st;
     allQueries := allQueries st |}.

Definition set_results (rs : list (list QueryResult)) (st : pool) : pool :=
  {| at_main := at_main st; workers := workers st; jobs := jobs st;
     jobs_closed := jobs_closed st; results := rs; results_closed := results_closed st;
     allQueries := allQueries st |}.

Definition close_results (st : pool) : pool :=
  {| at_main := at_main st; workers := workers st; jobs := jobs st;
     jobs_closed := jobs_closed st; results := results st; results_closed := true;
     allQueries := allQueries st |}.

Definition set_allQueries (qs : list QueryResult) (st : pool) : pool :=
  {| at_main := at_main st; workers := workers st; jobs := jobs st;
     jobs_closed := jobs_closed st; results := results st;
     results_closed := results_closed st; allQueries := qs |}.

(** At the call: no goroutine started, [make(chan ..., len(files))] twice,
    [allQueries] nil. *)
Definition initial : pool :=
  {| at_main := Starting 0; workers := []; jobs := []; jobs_closed := false;
     results := []; results_closed := false; allQueries := [] |}.

(** The goroutines of a call: that of [processFiles] itself, the workers in
    the order in which they were started, and the one that waits for the
    workers and closes [results]. *)
Inductive goroutine : Type :=
| Main
| Worker (k : nat)
| Waiter.

Definition is_done (w : worker_state) : bool :=
  match w with
  | Done => true
  | _ => false
  end.

Section Pool.

Variable readFile : gostring -> outcome gostring.
Variable files : list gostring.
Variable config : Config.

(** The next step of each goroutine: one iteration of the loop that starts
    the workers, or one channel operation with the local computation that
    follows it; [None] when the goroutine has to wait or has ended.  Both
    channels have capacity [len(files)]: a send waits while the buffer is
    full, a receive while it is empty and the channel is not closed. *)
Definition step_main (st : pool) : option pool :=
  match at_main st with
  | Starting i =>
      if (Z.of_nat i <? NumWorkers config)%Z
      then Some (set_main (Starting (S i)) (set_workers (workers st ++ [Receiving]) st))
      else Some (set_main (Sending files) st)
  | Sending (file :: rest) =>
      if length (jobs st) <? length files
      then Some (set_main (Sending rest) (set_jobs (jobs st ++ [file]) st))
      else None
  | Sending [] => Some (set_main Collecting (close_jobs st))
  | Collecting =>
      match results st with
      | result :: rs => Some (set_allQueries (allQueries st ++ result) (set_results rs st))
      | [] => if results_closed st then Some (set_main Returned st) else None
      end
  | Returned => None
  end.

Definition step_worker (k : nat) (st : pool) : option pool :=
  match workers st !! k with
  | Some Receiving =>
      match jobs st with
      | path :: js =>
          match analyzeFile readFile path with
          | Value res =>
              Some (set_workers (<[k := Delivering path res]> (workers st)) (set_jobs js st))
          | Failure _ => Some (set_jobs js st)
          end
      | [] =>
          if jobs_closed st then Some (set_workers (<[k := Done]> (workers st)) st)
          else None
      end
  | Some (Delivering path res) =>
      if length (results st) <? length files
      then Some (set_workers (<[k := Receiving]> (workers st))
                   (set_results (results st ++ [res]) st))
      else None
  | Some Done | None => None
  end.

(** The waiting goroutine is started after [close(jobs)]; [wg.Wait()] returns
    when every worker that was started has called [wg.Done]. *)
Definition step_waiter (st : pool) : option pool :=
  if jobs_closed st && negb (results_closed st) && forallb is_done (workers st)
  then Some (close_results st)
  else None.

Definition step (g : goroutine) (st : pool) : option pool :=
  match g with
  | Main => step_main st
  | Worker k => step_worker k st
  | Waiter => step_waiter st
  end.

(** A run under a schedule: the goroutines take steps in the order of the
    schedule; a goroutine that has to wait when it is scheduled does
    nothing. *)
Definition run (schedule : list goroutine) (st : pool) : pool :=
  fold_left (fun st g => default st (step g st)) schedule st.

(** [processFiles] returns [queries] under some schedule. *)
Definition processFiles (queries : list QueryResult) : Prop :=
  exists schedule,
    at_main (run schedule initial) = Returned
    /\ allQueries (run schedule initial) = queries.

(** The occurrences that a file contributes: none if it cannot be read. *)
Definition batch (path : gostring) : list QueryResult :=
  match analyzeFile readFile path with
  | Value res => res
  | Failure _ => []
  end.

(** The files whose results the workers hold. *)
Definition held_by (w : worker_state) : list gostring :=
  match w with
  | Delivering path _ => [path]
  | _ => []
  end.

Definition held (ws : list worker_state) : list gostring := flat_map held_by ws.

(** The files that have not been sent to [jobs] yet. *)
Definition unsent (m : main_state) : list gostring :=
  match m with
  | Starting _ => files
  | Sending rest => rest
  | Collecting | Returned => []
  end.

(** A bound on the number of steps that remain. *)
Definition worker_weight (w : worker_state) : nat :=
  match w with
  | Receiving => 1
  | Delivering _ _ => 3
  | Done => 0
  end.

Definition main_weight (m : main_state) : nat :=
  match m with
  | Starting i => 3 + 2 * Z.to_nat (NumWorkers config - Z.of_nat i)
  | Sending _ => 2
  | Collecting => 1
  | Returned => 0
  end.

Definition remaining (st : pool) : nat :=
  main_weight (at_main st) + 4 * length (unsent (at_main st)) + 3 * length (jobs st)
  + list_sum (map worker_weight (workers st)) + length (results st)
  + (if results_closed st then 0 else 1).

End Pool.

(** ** [main] *)

Definition walk_error_line (err : gostring) : gostring :=
  str "Error walking folder: " ++ err ++ newline.

(** What [main] writes to standard output, for a command line, a file system
    (the tree below the folder and the contents of the files), a schedule of
    the goroutines, and an order [range_keys] of the keys of the map. *)
Definition main (join : gostring -> gostring -> gostring) (given : Flags) (numCPU : Z)
    (root : fsnode) (readFile : gostring -> outcome gostring) (output : gostring) : Prop :=
  let config := parseFlags given numCPU in
  match findFiles join config root with
  | (files, Some err) => output = walk_error_line err
  | (files, None) =>
      exists queries range_keys,
        processFiles readFile files config queries
        /\ keys_of (findDuplicates queries) range_keys
        /\ output = printResults range_keys (findDuplicates queries)
  end.

(** ** The process *)

(** [flag.Parse], which [parseFlags] calls, accepts the command line, and
    [parseFlags] goes on with the flags given, or rejects it: it then writes
    its message to standard error and ends the process (exit status 2, or 0
    after [-h] and [-help]) before anything is written to standard output. *)
Inductive command_line : Type :=
| Accepted (given : Flags)
| Rejected.

(** What a run of the program writes to standard output. *)
Definition standard_output (join : gostring -> gostring -> gostring) (args : command_line)
    (numCPU : Z) (root : fsnode) (readFile : gostring -> outcome gostring)
    (output : gostring) : Prop :=
  match args with
  | Accepted given => main join given numCPU root readFile output
  | Rejected => output = []
  end.

(** ** What holds in every state of a call of [processFiles] *)

Section PoolInvariant.

Variable readFile : gostring -> outcome gostring.
Variable files : list gostring.
Variable config : Config.

(** A worker that is about to send holds the result of its file. *)
Definition holds_result (w : worker_state) : Prop :=
  match w with
  | Delivering path res => analyzeFile readFile path = Value res
  | _ => True
  end.

(** What the goroutine of [processFiles] has done. *)
Definition phase (st : pool) : Prop :=
  match at_main st with
  | Starting i =>
      length (workers st) = i /\ (Z.of_nat i <= Z.max 0 (NumWorkers config))%Z
      /\ jobs_closed st = false /\ results_closed st = false
  | Sending _ =>
      Z.of_nat (length (workers st)) = Z.max 0 (NumWorkers config)
      /\ jobs_closed st = false /\ results_closed st = false
  | Collecting =>
      Z.of_nat (length (workers st)) = Z.max 0 (NumWorkers config)
      /\ jobs_closed st = true
  | Returned =>
      Z.of_nat (length (workers st)) = Z.max 0 (NumWorkers config)
      /\ jobs_closed st = true /\ results_closed st = true /\ results st = []
  end.

(** [delivered] are the files that the workers are done with, in the order
    in which their results were sent (a file that cannot be read counts when
    it is received): every file is in one place, and the results sent so far
    are in [allQueries] and in the channel. *)
Record invariant (st : pool) (delivered : list gostring) : Prop := {
  inv_queries :
    allQueries st ++ concat (results st) = concat (map (batch readFile) delivered);
  inv_files :
    delivered ++ held (workers st) ++ jobs st ++ unsent files (at_main st) ≡ₚ files;
  inv_held : Forall holds_result (workers st);
  inv_results : length (results st) <= length delivered;
  inv_phase : phase st;
  inv_closed : results_closed st = true -> forallb is_done (workers st) = true;
  inv_done :
    forall k, workers st !! k = Some Done -> jobs st = [] /\ jobs_closed st = true;
  inv_idle : workers st = [] -> delivered = []
}.

(** Every scheduled goroutine can take its step. *)
Fixpoint productive (schedule : list goroutine) (st : pool) : bool :=
  match schedule with
  | [] => true
  | g :: rest =>
      match step readFile files config g st with
      | Some st' => productive rest st'
      | None => false
      end
  end.

End PoolInvariant.

(** The report for the occurrences [queries]. *)
Definition report (queries : list QueryResult) : gostring :=
  printResults (map_to_list (findDuplicates queries)).*1 (findDuplicates queries).

(** ** Statements in a text *)

(** The pieces lie in the text one after the other, without overlap. *)
Fixpoint laid_out (pieces : list gostring) (text : gostring) : Prop :=
  match pieces with
  | [] => True
  | piece :: rest =>
      exists before after, text = before ++ piece ++ after /\ laid_out rest after
  end.

(** The keywords with which the alternatives of the pattern begin. *)
Definition statement_keywords : list gostring :=
  map str ["SELECT"; "INSERT"; "UPDATE"; "DELETE"; "CREATE"; "ALTER"; "DROP"; "TRUNCATE"]%string.

(** ** A sample file system and command line *)

(** [filepath.Join] on a clean path and a name, with the separator of Unix. *)
Definition join_path (path name : gostring) : gostring := path ++ str "/" ++ name.

Definition sample_tree : fsnode :=
  Dir (str "src")
    [ File (str "a.php");
      Dir (str "lib") [File (str "b.php"); File (str "notes.txt")];
      Dir (str "vendor") [File (str "c.php")] ].

(** A tree with a directory that cannot be listed. *)
Definition sample_tree_locked : fsnode :=
  Dir (str "src")
    [ File (str "a.php");
      Unreadable (str "vendor") (str "open src/vendor: permission denied");
      File (str "z.php") ].

Definition sample_readFile (path : gostring) : outcome gostring :=
  if bool_decide (path = str "src/a.php")
  then Value (str "<?php $db->query('SELECT * FROM users WHERE id = 1;');")
  else if bool_decide (path = str "src/lib/b.php")
  then Value (str "<?php $db->query('select * from users  where id = 27;');")
  else Failure (str "open " ++ path ++ str ": no such file or directory").

(** [-folder src -workers 2] *)
Definition sample_flags : Flags :=
  {| flag_folder := Some (str "src"); flag_ignore := None; flag_type := None;
     flag_workers := Some 2%Z |}.

Definition sample_config : Config := parseFlags sample_flags 8.

(** [-folder src -workers 0] *)
Definition sample_flags_idle : Flags :=
  {| flag_folder := Some (str "src"); flag_ignore := None; flag_type := None;
     flag_workers := Some 0%Z |}.

(** A tree with a file that cannot be read. *)
Definition sample_tree_gone : fsnode :=
  Dir (str "src")
    [ File (str "a.php"); File (str "gone.php");
      Dir (str "lib") [File (str "b.php")] ].

Definition sample_files : list gostring := [str "src/a.php"; str "src/lib/b.php"].

(** A schedule under which the second worker receives the first file and
    delivers its result last. *)
Definition sample_schedule : list goroutine :=
  [ Main; Main; Main; Main; Main; Main;
    Worker 1; Worker 0; Worker 0; Worker 1; Worker 0; Worker 1;
    Waiter; Main; Main; Main ].

(** Without workers only the goroutine of [processFiles] and the waiting
    goroutine run. *)
Definition sample_schedule_idle : list goroutine := [Main; Main; Main; Main; Waiter; Main].

(** A schedule of one worker for three files. *)
Definition sample_schedule_gone : list goroutine :=
  [ Main; Main; Main; Main; Main; Main;
    Worker 0; Worker 0; Worker 0; Worker 0; Worker 0; Worker 0;
    Waiter; Main; Main; Main ].

Definition sample_report : gostring :=
  str "Found 1 duplicate queries" ++ newline
    ++ str "Count: 2 -- Normalized Query:" ++ ["009"%char; " "%char]
    ++ str "select * from users where id = N;" ++ newline.

(** * Properties *)

(** ** The program on examples *)

Example normalize_select :
  normalizeQuery (str "SELECT * FROM users WHERE status = 'active'")
  = str "select * from users where status = S".
Proof. vm_compute. reflexivity. Qed.

Example normalize_update :
  normalizeQuery (str "UPDATE users SET last_login = NOW() WHERE id = 42")
  = str "update users set last_login = now ( ) where id = N".
Proof. vm_compute. reflexivity. Qed.

Example normalize_lines :
  normalizeQuery (str "SELECT o.id, c.name" ++ newline ++ str "       FROM orders o")
  = normalizeQuery (str "select o.id,c.name from orders o").
Proof. vm_compute. reflexivity. Qed.

Example extract_statements :
  findSQLQueries (str "$a = 1; SELECT x FROM t; $b = 2; DELETE FROM logs")
  = [str "SELECT x FROM t;"].
Proof. vm_compute. reflexivity. Qed.

(** ** Aggregation *)

Section Aggregation.

Implicit Types (m : gmap gostring (list QueryResult)) (k : gostring).
Implicit Types (queries : list QueryResult).

Lemma group_lookup m k v : m !! k = Some v -> group m k = v.
Proof. unfold group. intros ->. reflexivity. Qed.

Lemma lookup_add_query m q k :
  add_query m q !! k =
  if decide (Normalized q = k) then Some (group m k ++ [q]) else m !! k.
Proof.
  unfold add_query. destruct (decide (Normalized q = k)) as [<-|Hne].
  - apply lookup_insert_eq.
  - apply lookup_insert_ne. exact Hne.
Qed.

(** The first loop appends every query to the group of its normalized form. *)
Lemma build_lookup queries : forall m k,
  fold_left add_query queries m !! k =
  match occurrences k queries with
  | [] => m !! k
  | occ => Some (group m k ++ occ)
  end.
Proof.
  induction queries as [|q queries IH]; intros m k; [reflexivity|].
  cbn [fold_left]. rewrite IH. unfold occurrences.
  rewrite filter_cons. unfold group at 1. rewrite lookup_add_query.
  destruct (decide (Normalized q = k)) as [Heq|Hne].
  - cbn [default]. unfold id. destruct (filter _ queries); [reflexivity|].
    rewrite <- app_assoc. reflexivity.
  - reflexivity.
Qed.

Lemma build_lookup_empty queries k :
  fold_left add_query queries ∅ !! k =
  match occurrences k queries with
  | [] => None
  | occ => Some occ
  end.
Proof.
  rewrite build_lookup. unfold group. rewrite lookup_empty. reflexivity.
Qed.

(** The second loop, whatever the order of the entries. *)
Lemma drop_singletons_lookup entries : forall m k,
  drop_singletons entries m !! k =
  if existsb (fun kv => bool_decide (kv.1 = k) && (length kv.2 =? 1)) entries
  then None else m !! k.
Proof.
  induction entries as [|[k' v] entries IH]; intros m k; [reflexivity|].
  unfold drop_singletons in *. cbn [fold_left existsb fst snd].
  rewrite IH. destruct (existsb _ entries) eqn:Hex.
  - rewrite orb_true_r. reflexivity.
  - rewrite orb_false_r. destruct (length v =? 1) eqn:Hlen.
    + rewrite andb_true_r. case_bool_decide as Hk.
      * subst. apply lookup_delete_eq.
      * apply lookup_delete_ne. exact Hk.
    + rewrite andb_false_r. reflexivity.
Qed.

Lemma drop_singletons_entries m k :
  drop_singletons (map_to_list m) m !! k =
  match m !! k with
  | Some v => if length v =? 1 then None else Some v
  | None => None
  end.
Proof.
  rewrite drop_singletons_lookup.
  destruct (existsb _ (map_to_list m)) eqn:Hex.
  - apply existsb_exists in Hex as [[k' v] [Hin Hkv]].
    cbn [fst snd] in Hkv. apply andb_prop in Hkv as [Hk Hlen].
    apply bool_decide_eq_true_1 in Hk. subst k'.
    apply list_elem_of_In, elem_of_map_to_list in Hin.
    rewrite Hin, Hlen. reflexivity.
  - destruct (m !! k) as [v|] eqn:Hm; [|reflexivity].
    destruct (length v =? 1) eqn:Hlen; [|reflexivity].
    exfalso. apply not_true_iff_false in Hex. apply Hex.
    apply existsb_exists. exists (k, v). split.
    + apply list_elem_of_In, elem_of_map_to_list. exact Hm.
    + cbn [fst snd]. rewrite Hlen, bool_decide_eq_true_2; reflexivity.
Qed.

(** The order in which the second loop visits the entries does not matter. *)
Lemma drop_singletons_order m entries :
  entries ≡ₚ map_to_list m ->
  drop_singletons entries m = drop_singletons (map_to_list m) m.
Proof.
  intros Hperm. apply map_eq. intros k. rewrite !drop_singletons_lookup.
  replace (existsb (fun kv => bool_decide (kv.1 = k) && (length kv.2 =? 1)) entries)
    with (existsb (fun kv : gostring * list QueryResult =>
                     bool_decide (kv.1 = k) && (length kv.2 =? 1)) (map_to_list m));
    [reflexivity|].
  apply eq_true_iff_eq. rewrite !existsb_exists.
  split; intros [x [Hin Hx]]; exists x; split; try exact Hx;
    apply list_elem_of_In; apply list_elem_of_In in Hin.
  - rewrite Hperm. exact Hin.
  - rewrite <- Hperm. exact Hin.
Qed.

Lemma findDuplicates_lookup queries k :
  findDuplicates queries !! k =
  if 2 <=? length (occurrences k queries) then Some (occurrences k queries) else None.
Proof.
  unfold findDuplicates. cbv zeta. rewrite drop_singletons_entries, build_lookup_empty.
  destruct (occurrences k queries) as [|q1 [|q2 occ]]; reflexivity.
Qed.

Lemma group_findDuplicates queries k :
  length (group (findDuplicates queries) k) =
  if 2 <=? length (occurrences k queries) then length (occurrences k queries) else 0.
Proof.
  unfold group. rewrite findDuplicates_lookup.
  destruct (2 <=? _); reflexivity.
Qed.

Lemma occurrences_perm k queries queries' :
  queries ≡ₚ queries' -> occurrences k queries ≡ₚ occurrences k queries'.
Proof. intros H. unfold occurrences. rewrite H. reflexivity. Qed.

End Aggregation.

(** C2: [findDuplicates] maps exactly the normalized forms that occur at least
    twice, each to all its occurrences in input order; a form that occurs once
    (or never) is not a key of the result. *)
Theorem C2_findDuplicates_exact (queries : list QueryResult) (k : gostring) :
  (forall v, findDuplicates queries !! k = Some v <->
             v = occurrences k queries /\ 2 <= length v)
  /\ (findDuplicates queries !! k = None <-> length (occurrences k queries) < 2)
  /\ (k ∈ dom (findDuplicates queries) <-> 2 <= length (occurrences k queries)).
Proof.
  rewrite elem_of_dom, findDuplicates_lookup.
  destruct (2 <=? length (occurrences k queries)) eqn:Hlen.
  - apply Nat.leb_le in Hlen. split; [|split].
    + intros v. split.
      * intros [= <-]. split; [reflexivity|exact Hlen].
      * intros [-> _]. reflexivity.
    + split; [discriminate|lia].
    + split; [intros _; exact Hlen|intros _; eexists; reflexivity].
  - apply Nat.leb_gt in Hlen. split; [|split].
    + intros v. split; [discriminate|]. intros [-> Hv]. lia.
    + split; [intros _; exact Hlen|reflexivity].
    + split; [intros [v Hv]; discriminate|lia].
Qed.

(** ** The order of the report *)

Lemma code_inj x y : code x = code y -> x = y.
Proof.
  unfold code. intros H.
  rewrite <- (ascii_nat_embedding x), <- (ascii_nat_embedding y), H. reflexivity.
Qed.

Lemma str_ltb_lex a : forall b, str_ltb a b = true <-> lex_lt a b.
Proof.
  induction a as [|x a IH]; intros [|y b]; cbn [str_ltb].
  - split; [discriminate|inversion 1].
  - split; [constructor|reflexivity].
  - split; [discriminate|inversion 1].
  - rewrite orb_true_iff, andb_true_iff, Nat.ltb_lt, Nat.eqb_eq, IH. split.
    + intros [Hlt|[Heq Hab]].
      * apply lex_head. exact Hlt.
      * apply code_inj in Heq. subst y. apply lex_tail. exact Hab.
    + inversion 1; subst; [left; assumption|right; split; [reflexivity|assumption]].
Qed.

Lemma lex_lt_irrefl a : ~ lex_lt a a.
Proof. induction a as [|x a IH]; inversion 1; subst; [lia|auto]. Qed.

Lemma lex_lt_trans a b c : lex_lt a b -> lex_lt b c -> lex_lt a c.
Proof.
  intros Hab. revert c. induction Hab; intros c Hbc; inversion Hbc; subst.
  - constructor.
  - constructor.
  - apply lex_head. lia.
  - apply lex_head. assumption.
  - apply lex_head. assumption.
  - apply lex_tail. auto.
Qed.

Lemma lex_lt_total a : forall b, a = b \/ lex_lt a b \/ lex_lt b a.
Proof.
  induction a as [|x a IH]; intros [|y b].
  - left. reflexivity.
  - right. left. constructor.
  - right. right. constructor.
  - destruct (lt_eq_lt_dec (code x) (code y)) as [[Hlt|Heq]|Hgt].
    + right. left. apply lex_head. exact Hlt.
    + apply code_inj in Heq. subst y.
      destruct (IH b) as [->|[H|H]].
      * left. reflexivity.
      * right. left. apply lex_tail. exact H.
      * right. right. apply lex_tail. exact H.
    + right. right. apply lex_head. exact Hgt.
Qed.

Section Report.

Implicit Types (m : gmap gostring (list QueryResult)) (k : gostring).
Implicit Types (keys : list gostring).

Lemma less_precedes m k1 k2 : less m k1 k2 = true <-> precedes m k1 k2.
Proof.
  unfold less, precedes.
  destruct (length (group m k1) =? length (group m k2)) eqn:Heq; cbn [negb].
  - apply Nat.eqb_eq in Heq. rewrite str_ltb_lex. split.
    + intros H. right. split; assumption.
    + intros [H|[_ H]]; [lia|exact H].
  - apply Nat.eqb_neq in Heq. rewrite Nat.ltb_lt. split.
    + intros H. left. exact H.
    + intros [H|[H _]]; [exact H|contradiction].
Qed.

Lemma precedes_irrefl m k : ~ precedes m k k.
Proof. intros [H|[_ H]]; [lia|exact (lex_lt_irrefl _ H)]. Qed.

Lemma precedes_trans m k1 k2 k3 :
  precedes m k1 k2 -> precedes m k2 k3 -> precedes m k1 k3.
Proof.
  intros [H1|[H1 L1]] [H2|[H2 L2]].
  - left. lia.
  - left. lia.
  - left. lia.
  - right. split; [lia|exact (lex_lt_trans _ _ _ L1 L2)].
Qed.

Lemma precedes_total m k1 k2 : k1 <> k2 -> precedes m k1 k2 \/ precedes m k2 k1.
Proof.
  intros Hne. unfold precedes.
  destruct (lt_eq_lt_dec (length (group m k1)) (length (group m k2))) as [[H|H]|H].
  - right. left. exact H.
  - destruct (lex_lt_total k1 k2) as [E|[L|L]]; [contradiction| |].
    + left. right. split; assumption.
    + right. right. split; [symmetry|]; assumption.
  - left. left. exact H.
Qed.

Lemma precedes_asym m k1 k2 : precedes m k1 k2 -> precedes m k2 k1 -> k1 = k2.
Proof.
  intros H1 H2. destruct (precedes_irrefl m k1 (precedes_trans _ _ _ _ H1 H2)).
Qed.

Lemma insert_by_perm lt k l : insert_by lt k l ≡ₚ k :: l.
Proof.
  induction l as [|h t IH]; cbn [insert_by]; [reflexivity|].
  destruct (lt k h); [reflexivity|].
  rewrite IH. apply perm_swap.
Qed.

Lemma sort_Slice_perm lt keys : sort_Slice lt keys ≡ₚ keys.
Proof.
  induction keys as [|k keys IH]; cbn; [reflexivity|].
  rewrite insert_by_perm, IH. reflexivity.
Qed.

Lemma insert_by_sorted m k l :
  k ∉ l -> StronglySorted (precedes m) l ->
  StronglySorted (precedes m) (insert_by (less m) k l).
Proof.
  intros Hk Hl. induction Hl as [|h t Ht IH Hh]; cbn [insert_by].
  - repeat constructor.
  - apply not_elem_of_cons in Hk as [Hne Hk].
    destruct (less m k h) eqn:Hlt.
    + apply less_precedes in Hlt. constructor; [constructor; assumption|].
      constructor; [exact Hlt|].
      eapply Forall_impl; [exact Hh|]. intros x Hx. cbv beta in Hx.
      exact (precedes_trans _ _ _ _ Hlt Hx).
    + constructor; [apply IH; exact Hk|].
      rewrite insert_by_perm. constructor; [|exact Hh].
      destruct (precedes_total m k h Hne) as [H|H]; [|exact H].
      apply less_precedes in H. congruence.
Qed.

Lemma sort_Slice_sorted m keys :
  NoDup keys -> StronglySorted (precedes m) (sort_Slice (less m) keys).
Proof.
  induction 1 as [|k keys Hk Hnd IH]; cbn; [constructor|].
  apply insert_by_sorted; [|exact IH].
  fold (sort_Slice (less m) keys). rewrite sort_Slice_perm. exact Hk.
Qed.

(** There is one sorted arrangement of a set of keys. *)
Lemma sorted_unique m l1 l2 :
  StronglySorted (precedes m) l1 -> StronglySorted (precedes m) l2 ->
  l1 ≡ₚ l2 -> l1 = l2.
Proof.
  apply StronglySorted_unique_strong. intros x1 x2 _ _. apply precedes_asym.
Qed.

Lemma insert_by_ext lt lt' k l :
  (forall a b, lt a b = lt' a b) -> insert_by lt k l = insert_by lt' k l.
Proof.
  intros H. induction l as [|h t IH]; cbn [insert_by]; [reflexivity|].
  rewrite H, IH. reflexivity.
Qed.

Lemma sort_Slice_ext lt lt' keys :
  (forall a b, lt a b = lt' a b) -> sort_Slice lt keys = sort_Slice lt' keys.
Proof.
  intros H. induction keys as [|k keys IH]; cbn; [reflexivity|].
  fold (sort_Slice lt keys) (sort_Slice lt' keys).
  rewrite IH. apply insert_by_ext, H.
Qed.

Lemma keys_of_NoDup m keys : keys_of m keys -> NoDup keys.
Proof.
  unfold keys_of. intros ->. apply NoDup_fst_map_to_list.
Qed.

Lemma keys_of_elem m keys k : keys_of m keys -> k ∈ keys <-> k ∈ dom m.
Proof.
  unfold keys_of. intros ->. rewrite elem_of_dom, list_elem_of_fmap. split.
  - intros [[k' v] [-> Hin]]. apply elem_of_map_to_list in Hin. eexists. exact Hin.
  - intros [v Hv]. exists (k, v). split; [reflexivity|].
    apply elem_of_map_to_list. exact Hv.
Qed.

Lemma keys_of_map_to_list m : keys_of m (map_to_list m).*1.
Proof. unfold keys_of. reflexivity. Qed.

Lemma keys_of_perm m m' keys keys' :
  dom m = dom m' -> keys_of m keys -> keys_of m' keys' -> keys ≡ₚ keys'.
Proof.
  intros Hdom Hk Hk'. apply NoDup_Permutation.
  - eapply keys_of_NoDup, Hk.
  - eapply keys_of_NoDup, Hk'.
  - intros k. rewrite (keys_of_elem m keys k Hk), (keys_of_elem m' keys' k Hk'), Hdom.
    reflexivity.
Qed.

(** The report depends only on the set of keys and the size of each group. *)
Lemma printResults_counts m m' keys keys' :
  dom m = dom m' ->
  (forall k, length (group m k) = length (group m' k)) ->
  keys_of m keys -> keys_of m' keys' ->
  printResults keys m = printResults keys' m'.
Proof.
  intros Hdom Hlen Hk Hk'. unfold printResults.
  assert (Hsize : size m = size m') by (rewrite <- !size_dom, Hdom; reflexivity).
  rewrite Hsize. destruct (size m' =? 0); [reflexivity|].
  do 4 f_equal.
  assert (Hsort : sort_Slice (less m) keys = sort_Slice (less m') keys').
  { rewrite (sort_Slice_ext (less m) (less m')).
    - apply (sorted_unique m').
      + apply sort_Slice_sorted. eapply keys_of_NoDup, Hk.
      + apply sort_Slice_sorted. eapply keys_of_NoDup, Hk'.
      + rewrite !sort_Slice_perm. eapply keys_of_perm; eassumption.
    - intros a b. unfold less. rewrite !Hlen. reflexivity. }
  rewrite Hsort. f_equal. apply map_ext. intros k. unfold group_line. rewrite Hlen. reflexivity.
Qed.

End Report.

(** ** The report *)

Lemma findDuplicates_dom queries k :
  k ∈ dom (findDuplicates queries) <-> 2 <= length (occurrences k queries).
Proof.
  rewrite elem_of_dom, findDuplicates_lookup.
  destruct (2 <=? length (occurrences k queries)) eqn:Hlen.
  - apply Nat.leb_le in Hlen. split; [intros _; exact Hlen|intros _; eexists; reflexivity].
  - apply Nat.leb_gt in Hlen. split; [intros [v Hv]; discriminate|lia].
Qed.

Lemma printResults_nonempty (m : gmap gostring (list QueryResult)) keys :
  m <> ∅ ->
  printResults keys m =
  count_line (size m) ++ concat (map (group_line m) (sort_Slice (less m) keys)).
Proof.
  intros Hm. unfold printResults, count_line.
  apply map_size_non_empty_iff in Hm.
  destruct (size m =? 0) eqn:Hs; [apply Nat.eqb_eq in Hs; contradiction|].
  rewrite <- !app_assoc. reflexivity.
Qed.

Lemma sample_groups_nonempty : sample_groups <> ∅.
Proof.
  intros H. apply (f_equal size) in H. vm_compute in H. discriminate H.
Defined.

(** *** The numbers of a report *)

Lemma string_of_uint_digits d c :
  In c (str (NilZero.string_of_uint d)) -> is_digit c = true.
Proof.
  assert (H : forall d, In c (str (NilEmpty.string_of_uint d)) -> is_digit c = true).
  { clear d. induction d as [|d IH|d IH|d IH|d IH|d IH|d IH|d IH|d IH|d IH|d IH];
      cbn; intros Hin; [contradiction Hin|..];
      (destruct Hin as [<-|Hin]; [reflexivity|exact (IH Hin)]). }
  unfold NilZero.string_of_uint. destruct d; try apply H.
  cbn. intros [<-|[]]. reflexivity.
Qed.

Lemma numeral_value_of_uint d : forall acc,
  fold_left (fun n c => 10 * n + digit_value c) (str (NilEmpty.string_of_uint d)) acc
  = Nat.of_uint_acc d acc.
Proof.
  induction d as [|d IH|d IH|d IH|d IH|d IH|d IH|d IH|d IH|d IH|d IH]; intros acc;
    cbn [NilEmpty.string_of_uint str list_ascii_of_string fold_left Nat.of_uint_acc];
    [reflexivity|..];
    rewrite IH, Nat.tail_mul_spec; f_equal;
    match goal with
    | |- context [digit_value ?c] =>
        let v := eval vm_compute in (digit_value c) in change (digit_value c) with v
    end; lia.
Qed.

Lemma nzhead_head d :
  match Decimal.nzhead d with
  | Decimal.D0 _ => False
  | _ => True
  end.
Proof.
  induction d; cbn [Decimal.nzhead]; try exact I. exact IHd.
Qed.

Lemma to_uint_normal n : Decimal.unorm (Nat.to_uint n) = Nat.to_uint n.
Proof.
  rewrite <- (DecimalNat.Unsigned.of_to n) at 2.
  symmetry. apply DecimalNat.Unsigned.to_of.
Qed.

(** [%d] prints the decimal numeral of the number. *)
Lemma itoa_decimal n : decimal_numeral n (itoa n).
Proof.
  unfold decimal_numeral, itoa. split; [|split].
  - apply forallb_forall. intros c Hc. apply (string_of_uint_digits _ _ Hc).
  - rewrite <- to_uint_normal. unfold Decimal.unorm.
    pose proof (nzhead_head (Nat.to_uint n)) as Hhead.
    destruct (Decimal.nzhead (Nat.to_uint n));
      cbn [NilZero.string_of_uint NilEmpty.string_of_uint str list_ascii_of_string];
      first [contradiction Hhead | discriminate | reflexivity].
  - unfold numeral_value.
    rewrite <- (DecimalNat.Unsigned.of_to n) at 2.
    unfold NilZero.string_of_uint, Nat.of_uint.
    destruct (Nat.to_uint n) eqn:Hd; [reflexivity|..]; apply numeral_value_of_uint.
Qed.

Lemma count_line_text n : is_count_line n (count_line n).
Proof. exists (itoa n). split; [apply itoa_decimal|reflexivity]. Qed.

Lemma group_line_text m k : is_group_line (length (group m k)) k (group_line m k).
Proof. exists (itoa (length (group m k))). split; [apply itoa_decimal|reflexivity]. Qed.

(** C3: a non-empty report is its header followed by one line for each
    group, the text of the line stating the size of the group in decimal and
    the key; the lines come in descending order of group size, groups of
    equal size in ascending lexicographic order of their key; and the report
    is the same whatever the order in which the map yields its keys. *)
Theorem C3_report_sorted_and_deterministic
    (m : gmap gostring (list QueryResult)) (keys keys' : list gostring) :
  m <> ∅ -> keys_of m keys -> keys_of m keys' ->
  (exists header sorted lines,
      printResults keys m = header ++ concat lines
      /\ is_count_line (size m) header
      /\ sorted ≡ₚ (map_to_list m).*1
      /\ StronglySorted (precedes m) sorted
      /\ Forall2 (fun k line => is_group_line (length (group m k)) k line) sorted lines)
  /\ printResults keys' m = printResults keys m.
Proof.
  intros Hm Hk Hk'. split.
  - exists (count_line (size m)), (sort_Slice (less m) keys),
      (map (group_line m) (sort_Slice (less m) keys)).
    split; [apply printResults_nonempty, Hm|].
    split; [apply count_line_text|].
    split; [rewrite sort_Slice_perm; exact Hk|].
    split; [apply sort_Slice_sorted; eapply keys_of_NoDup, Hk|].
    induction (sort_Slice (less m) keys) as [|k ks IH]; cbn [map]; constructor.
    + apply group_line_text.
    + exact IH.
  - apply printResults_counts; [reflexivity|reflexivity|exact Hk'|exact Hk].
Qed.

Lemma C3_witness :
  (exists header sorted lines,
      printResults sample_keys sample_groups = header ++ concat lines
      /\ is_count_line (size sample_groups) header
      /\ sorted ≡ₚ (map_to_list sample_groups).*1
      /\ StronglySorted (precedes sample_groups) sorted
      /\ Forall2 (fun k line => is_group_line (length (group sample_groups k)) k line)
                 sorted lines)
  /\ printResults (rev sample_keys) sample_groups = printResults sample_keys sample_groups.
Proof.
  apply (C3_report_sorted_and_deterministic sample_groups sample_keys (rev sample_keys)).
  - exact sample_groups_nonempty.
  - unfold keys_of, sample_keys. reflexivity.
  - unfold keys_of, sample_keys. symmetry. apply Permutation_rev.
Defined.

(** A line announces one number. *)
Lemma is_count_line_unique n n' line :
  is_count_line n line -> is_count_line n' line -> n = n'.
Proof.
  intros (numeral & (_ & _ & Hn) & Hline) (numeral' & (_ & _ & Hn') & Hline').
  rewrite Hline in Hline'. apply app_inv_head, app_inv_tail in Hline'.
  rewrite <- Hn, <- Hn', Hline'. reflexivity.
Qed.

(** C7: the report does not depend on the order in which the occurrences
    were collected: permuting the input of [findDuplicates] leaves the text
    written by [printResults] unchanged. *)
Theorem C7_report_order_independent
    (queries queries' : list QueryResult) (keys keys' : list gostring) :
  queries ≡ₚ queries' ->
  keys_of (findDuplicates queries) keys ->
  keys_of (findDuplicates queries') keys' ->
  printResults keys (findDuplicates queries) = printResults keys' (findDuplicates queries').
Proof.
  intros Hperm Hk Hk'.
  assert (Hocc : forall k, length (occurrences k queries) = length (occurrences k queries')).
  { intros k. apply Permutation_length, occurrences_perm, Hperm. }
  apply printResults_counts; [| |exact Hk|exact Hk'].
  - apply set_eq. intros k. rewrite !findDuplicates_dom, Hocc. reflexivity.
  - intros k. rewrite !group_findDuplicates, Hocc. reflexivity.
Qed.

Lemma C7_witness :
  printResults sample_keys (findDuplicates sample_queries) =
  printResults (map_to_list (findDuplicates (rev sample_queries))).*1
               (findDuplicates (rev sample_queries)).
Proof.
  apply (C7_report_order_independent sample_queries (rev sample_queries)).
  - apply Permutation_rev.
  - unfold keys_of, sample_keys, sample_groups. reflexivity.
  - unfold keys_of. reflexivity.
Defined.

(** C8: for an empty map of groups the report is the single line
    "No duplicate queries found", without count line or group lines; this is
    the report of a scan that found one statement only. *)
Theorem C8_empty_report (keys : list gostring) :
  printResults keys ∅ = no_duplicates_line
  /\ forall q, printResults keys (findDuplicates [q]) = no_duplicates_line.
Proof.
  split; [reflexivity|]. intros q.
  replace (findDuplicates [q]) with (∅ : gmap gostring (list QueryResult)); [reflexivity|].
  symmetry. apply map_eq. intros k. rewrite findDuplicates_lookup, lookup_empty.
  unfold occurrences. rewrite filter_cons, filter_nil.
  destruct (decide (Normalized q = k)); reflexivity.
Qed.

Lemma size_findDuplicates queries :
  size (findDuplicates queries) = length (duplicate_forms queries).
Proof.
  rewrite <- length_map_to_list, <- (length_fmap fst).
  apply Permutation_length, NoDup_Permutation.
  - apply NoDup_fst_map_to_list.
  - apply NoDup_filter, NoDup_remove_dups.
  - intros k. rewrite (keys_of_elem _ _ k (keys_of_map_to_list _)), findDuplicates_dom.
    unfold duplicate_forms. rewrite list_elem_of_filter, elem_of_remove_dups.
    split; [|intros [H _]; exact H]. intros H. split; [exact H|].
    destruct (occurrences k queries) as [|q occ] eqn:Hocc; [cbn in H; lia|].
    assert (Hq : q ∈ occurrences k queries) by (rewrite Hocc; left).
    unfold occurrences in Hq. apply list_elem_of_filter in Hq as [<- Hq].
    apply list_elem_of_fmap. exists q. split; [reflexivity|exact Hq].
Qed.

(** C9: a non-empty report begins with the line "Found K duplicate queries"
    where K is the decimal numeral of the number of distinct normalized
    forms that occur at least twice, not of the number of their
    occurrences nor of any other number. *)
Theorem C9_count_line_counts_groups (queries : list QueryResult) (keys : list gostring) :
  findDuplicates queries <> ∅ ->
  exists header group_lines,
    printResults keys (findDuplicates queries) = header ++ group_lines
    /\ is_count_line (length (duplicate_forms queries)) header
    /\ forall n, is_count_line n header -> n = length (duplicate_forms queries).
Proof.
  intros Hm. rewrite (printResults_nonempty _ keys Hm), size_findDuplicates.
  exists (count_line (length (duplicate_forms queries))).
  eexists. split; [reflexivity|].
  assert (Hline : is_count_line (length (duplicate_forms queries))
                    (count_line (length (duplicate_forms queries)))).
  { exists (itoa (length (duplicate_forms queries))).
    split; [apply itoa_decimal|reflexivity]. }
  split; [exact Hline|].
  intros n Hn. exact (is_count_line_unique _ _ _ Hn Hline).
Qed.

(** The sample has two groups, of three and of two occurrences. *)
Example sample_count_line :
  length (duplicate_forms sample_queries) = 2
  /\ map (fun kv => length kv.2) (map_to_list sample_groups) ≡ₚ [3; 2].
Proof.
  split; [vm_compute; reflexivity|].
  vm_compute. first [reflexivity | apply perm_swap].
Qed.

Lemma C9_witness :
  exists header group_lines,
    printResults sample_keys (findDuplicates sample_queries) = header ++ group_lines
    /\ is_count_line (length (duplicate_forms sample_queries)) header
    /\ forall n, is_count_line n header -> n = length (duplicate_forms sample_queries).
Proof.
  apply (C9_count_line_counts_groups sample_queries sample_keys).
  exact sample_groups_nonempty.
Defined.

(** ** Replacement and search, for any pattern *)

Lemma replace_from_chars r repl c : forall s skip,
  In c (replace_from r repl skip s) -> In c s \/ In c repl.
Proof.
  induction s as [|x t IH]; intros skip Hc; [contradiction|].
  cbn [replace_from] in Hc. destruct skip as [|j].
  - destruct (match_len r (x :: t)) as [[|n]|].
    + destruct Hc as [->|Hc]; [left; left; reflexivity|].
      destruct (IH _ Hc) as [H|H]; [left; right; exact H|right; exact H].
    + apply in_app_or in Hc as [Hc|Hc]; [right; exact Hc|].
      destruct (IH _ Hc) as [H|H]; [left; right; exact H|right; exact H].
    + destruct Hc as [->|Hc]; [left; left; reflexivity|].
      destruct (IH _ Hc) as [H|H]; [left; right; exact H|right; exact H].
  - destruct (IH _ Hc) as [H|H]; [left; right; exact H|right; exact H].
Qed.

Lemma ReplaceAllString_chars r src repl c :
  In c (ReplaceAllString r src repl) -> In c src \/ In c repl.
Proof. apply replace_from_chars. Qed.

(** ** Characters and case *)

Lemma is_upper_lower c : is_ascii c = true -> is_upper (lower c) = false.
Proof.
  destruct c as [[] [] [] [] [] [] [] []]; vm_compute; congruence.
Qed.

Lemma lower_lower c : lower (lower c) = lower c.
Proof. destruct c as [[] [] [] [] [] [] [] []]; reflexivity. Qed.

Lemma is_space_lower c : is_space (lower c) = is_space c.
Proof. destruct c as [[] [] [] [] [] [] [] []]; reflexivity. Qed.

Lemma is_trim_space_lower c : is_trim_space (lower c) = is_trim_space c.
Proof. destruct c as [[] [] [] [] [] [] [] []]; reflexivity. Qed.

Lemma is_space_trim_space c : is_space c = true -> is_trim_space c = true.
Proof. destruct c as [[] [] [] [] [] [] [] []]; vm_compute; congruence. Qed.

(** ** [strings.TrimSpace] *)

Lemma trim_left_In c s : In c (trim_left s) -> In c s.
Proof.
  induction s as [|x t IH]; cbn [trim_left]; [tauto|].
  destruct (is_trim_space x); [right; auto|tauto].
Qed.

Lemma TrimSpace_In c s : In c (TrimSpace s) -> In c s.
Proof.
  unfold TrimSpace, trim_right. intros H.
  apply in_rev, trim_left_In, in_rev, trim_left_In in H. exact H.
Qed.

Lemma replacements_chars normalized c rs :
  In c (fold_left (fun normalized r => ReplaceAllString (fst r) normalized (snd r))
                  rs normalized) ->
  In c normalized \/ exists r, In r rs /\ In c (snd r).
Proof.
  revert normalized. induction rs as [|r rs IH]; intros normalized Hc; [left; exact Hc|].
  cbn [fold_left] in Hc. apply IH in Hc as [Hc|[r' [Hr' Hc]]].
  - apply ReplaceAllString_chars in Hc as [Hc|Hc]; [left; exact Hc|].
    right. exists r. split; [left; reflexivity|exact Hc].
  - right. exists r'. split; [right; exact Hr'|exact Hc].
Qed.

Lemma trim_left_app c a b :
  is_trim_space c = false -> trim_left (a ++ c :: b) = trim_left a ++ c :: b.
Proof.
  intros Hc. induction a as [|x a IH]; cbn [trim_left app].
  - rewrite Hc. reflexivity.
  - destruct (is_trim_space x); [exact IH|reflexivity].
Qed.

Lemma trim_right_app c a b :
  is_trim_space c = false -> trim_right (a ++ c :: b) = a ++ c :: trim_right b.
Proof.
  intros Hc. unfold trim_right. rewrite rev_app_distr. cbn [rev].
  rewrite <- app_assoc. cbn [app]. rewrite trim_left_app by exact Hc.
  rewrite rev_app_distr. cbn [rev]. rewrite rev_involutive, <- app_assoc.
  reflexivity.
Qed.

Lemma trim_left_cases s :
  trim_left s = [] \/ exists c t, trim_left s = c :: t /\ is_trim_space c = false.
Proof.
  induction s as [|x s IH]; cbn [trim_left]; [left; reflexivity|].
  destruct (is_trim_space x) eqn:Hx; [exact IH|].
  right. exists x, s. split; [reflexivity|exact Hx].
Qed.

Lemma trim_left_idem s : trim_left (trim_left s) = trim_left s.
Proof.
  destruct (trim_left_cases s) as [->|[c [t [-> Hc]]]]; [reflexivity|].
  cbn [trim_left]. rewrite Hc. reflexivity.
Qed.

Lemma trim_right_idem s : trim_right (trim_right s) = trim_right s.
Proof. unfold trim_right. rewrite rev_involutive, trim_left_idem. reflexivity. Qed.

Lemma trim_left_TrimSpace s : trim_left (TrimSpace s) = TrimSpace s.
Proof.
  unfold TrimSpace.
  destruct (trim_left_cases s) as [->|[c [t [-> Hc]]]]; [reflexivity|].
  change (c :: t) with ([] ++ c :: t). rewrite (trim_right_app c [] t Hc).
  cbn [app trim_left]. rewrite Hc. reflexivity.
Qed.

Lemma TrimSpace_idem s : TrimSpace (TrimSpace s) = TrimSpace s.
Proof.
  unfold TrimSpace at 1. rewrite trim_left_TrimSpace.
  unfold TrimSpace. apply trim_right_idem.
Qed.

(** ** The matcher *)

Lemma or_else_Some {A} (x y : option A) v :
  or_else x y = Some v -> x = Some v \/ y = Some v.
Proof. destruct x; cbn; auto. Qed.

Lemma star_loop_suffix (mt : gostring -> (gostring -> option gostring) -> option gostring) k :
  (forall s k' v, mt s k' = Some v -> exists s1, s1 `suffix_of` s /\ k' s1 = Some v) ->
  forall n s v, star_loop mt k n s = Some v -> exists s1, s1 `suffix_of` s /\ k s1 = Some v.
Proof.
  intros Hmt. induction n as [|n IH]; intros s v H; cbn [star_loop] in H.
  - exists s. split; [reflexivity|exact H].
  - apply or_else_Some in H as [H|H].
    + apply Hmt in H as [s1 [Hs1 H]].
      destruct (length s1 <? length s); [|discriminate H].
      apply IH in H as [s2 [Hs2 H]]. exists s2. split; [|exact H].
      etransitivity; eassumption.
    + exists s. split; [reflexivity|exact H].
Qed.

Lemma lazy_loop_suffix (mt : gostring -> (gostring -> option gostring) -> option gostring) k :
  (forall s k' v, mt s k' = Some v -> exists s1, s1 `suffix_of` s /\ k' s1 = Some v) ->
  forall n s v, lazy_loop mt k n s = Some v -> exists s1, s1 `suffix_of` s /\ k s1 = Some v.
Proof.
  intros Hmt. induction n as [|n IH]; intros s v H; cbn [lazy_loop] in H.
  - exists s. split; [reflexivity|exact H].
  - apply or_else_Some in H as [H|H].
    + exists s. split; [reflexivity|exact H].
    + apply Hmt in H as [s1 [Hs1 H]].
      destruct (length s1 <? length s); [|discriminate H].
      apply IH in H as [s2 [Hs2 H]]. exists s2. split; [|exact H].
      etransitivity; eassumption.
Qed.

(** A successful search has called its continuation on a suffix of the input. *)
Lemma bt_suffix r : forall s k v,
  bt r s k = Some v -> exists s1, s1 `suffix_of` s /\ k s1 = Some v.
Proof.
  induction r as [|p|r1 IH1 r2 IH2|r1 IH1 r2 IH2|r1 IH1|r1 IH1|]; intros s k v H; cbn [bt] in H.
  - exists s. split; [reflexivity|exact H].
  - destruct s as [|c t]; [discriminate H|].
    destruct (p c); [|discriminate H].
    exists t. split; [apply suffix_cons_r; reflexivity|exact H].
  - apply IH1 in H as [s1 [Hs1 H]]. apply IH2 in H as [s2 [Hs2 H]].
    exists s2. split; [etransitivity; eassumption|exact H].
  - apply or_else_Some in H as [H|H]; [apply IH1 in H|apply IH2 in H]; exact H.
  - eapply star_loop_suffix; [exact IH1|exact H].
  - eapply lazy_loop_suffix; [exact IH1|exact H].
  - destruct s; [|discriminate H]. exists []. split; [reflexivity|exact H].
Qed.

(** A pattern that is not nullable consumes input. *)
Lemma bt_consumes r :
  nullable r = false ->
  forall s k v, bt r s k = Some v -> exists s1, length s1 < length s /\ k s1 = Some v.
Proof.
  induction r as [|p|r1 IH1 r2 IH2|r1 IH1 r2 IH2|r1 IH1|r1 IH1|]; cbn [nullable];
    try discriminate; intros Hnull s k v H.
  - cbn [bt] in H. destruct s as [|c t]; [discriminate H|].
    destruct (p c); [|discriminate H]. exists t. split; [cbn; lia|exact H].
  - cbn [bt] in H. apply andb_false_iff in Hnull as [Hnull|Hnull].
    + apply (IH1 Hnull) in H as [s1 [Hlen H]].
      apply bt_suffix in H as [s2 [Hs2 H]]. apply suffix_length in Hs2.
      exists s2. split; [lia|exact H].
    + apply bt_suffix in H as [s1 [Hs1 H]]. apply suffix_length in Hs1.
      apply (IH2 Hnull) in H as [s2 [Hlen H]]. exists s2. split; [lia|exact H].
  - cbn [bt] in H. apply orb_false_iff in Hnull as [Hn1 Hn2].
    apply or_else_Some in H as [H|H]; [exact (IH1 Hn1 _ _ _ H)|exact (IH2 Hn2 _ _ _ H)].
Qed.

Lemma match_len_positive r s n :
  nullable r = false -> match_len r s = Some n -> 0 < n.
Proof.
  intros Hnull. unfold match_len. destruct (bt r s Some) as [rest|] eqn:H; [|discriminate].
  intros [= <-]. apply (bt_consumes r Hnull) in H as [s1 [Hlen [= ->]]]. lia.
Qed.

(** The patterns of the program match no empty string. *)
Lemma program_patterns_consume :
  forallb (fun r => negb (nullable r))
          (re_whitespace :: sql_pattern :: map fst replacements) = true.
Proof. reflexivity. Qed.

Lemma find_from_match r m : forall s skip,
  In m (find_from r skip s) ->
  exists s' n, s' `suffix_of` s /\ match_len r s' = Some (S n) /\ m = firstn (S n) s'.
Proof.
  induction s as [|x t IH]; intros skip Hm; [contradiction|].
  cbn [find_from] in Hm.
  assert (Htl : forall j, In m (find_from r j t) ->
    exists s' n, s' `suffix_of` (x :: t) /\ match_len r s' = Some (S n) /\ m = firstn (S n) s').
  { intros j Hj. apply IH in Hj as [s' [n [Hs' Hn]]]. exists s', n.
    split; [apply suffix_cons_r, Hs'|exact Hn]. }
  destruct skip as [|j]; [|eapply Htl, Hm].
  destruct (match_len r (x :: t)) as [[|n]|] eqn:Hlen; try (eapply Htl, Hm).
  destruct Hm as [<-|Hm]; [|eapply Htl, Hm].
  exists (x :: t), n. split; [reflexivity|]. split; [exact Hlen|reflexivity].
Qed.

(** ** [findSQLQueries] *)

Lemma findSQLQueries_fold ms : forall acc,
  fold_left
    (fun result match_ =>
       let cleaned := TrimSpace match_ in
       if looks_like_sql cleaned then result ++ [cleaned] else result)
    ms acc
  = acc ++ List.filter looks_like_sql (map TrimSpace ms).
Proof.
  induction ms as [|m ms IH]; intros acc; cbn [fold_left map List.filter].
  - rewrite app_nil_r. reflexivity.
  - rewrite IH. cbv zeta. destruct (looks_like_sql (TrimSpace m)); [|reflexivity].
    rewrite <- app_assoc. reflexivity.
Qed.

Lemma findSQLQueries_filter text :
  findSQLQueries text =
  List.filter looks_like_sql (map TrimSpace (FindAllString sql_pattern text)).
Proof. unfold findSQLQueries. cbv zeta. apply findSQLQueries_fold. Qed.

Lemma findSQLQueries_In text s :
  In s (findSQLQueries text) <->
  looks_like_sql s = true /\ exists m, In m (FindAllString sql_pattern text) /\ s = TrimSpace m.
Proof.
  rewrite findSQLQueries_filter, filter_In, in_map_iff. split.
  - intros [[m [<- Hm]] Hs]. split; [exact Hs|]. exists m. split; [exact Hm|reflexivity].
  - intros [Hs [m [Hm ->]]]. split; [|exact Hs]. exists m. split; [reflexivity|exact Hm].
Qed.

Lemma looks_like_sql_spec s :
  looks_like_sql s = true <->
  s <> [] /\
  (HasSuffix s (str ";") = true
   \/ Contains (ToUpper s) (str "SELECT") = true
   \/ Contains (ToUpper s) (str "INSERT") = true
   \/ Contains (ToUpper s) (str "UPDATE") = true).
Proof.
  unfold looks_like_sql. rewrite andb_true_iff, !orb_true_iff, Nat.ltb_lt.
  assert (Hlen : 0 < length s <-> s <> []).
  { destruct s; cbn; split; try congruence; try lia. }
  rewrite Hlen. tauto.
Qed.

(** C6: every string returned by [findSQLQueries] is a trimmed match that is
    not empty and that ends with [;] or contains SELECT, INSERT or UPDATE in
    upper case; the trimmed form of a match is returned when it passes this
    test and only then; and the strings returned are the trimmed matches
    that pass, in the order of the matches. *)
Theorem C6_post_match_filter (text : gostring) :
  ascii_text text ->
  (forall s, In s (findSQLQueries text) ->
     (exists m, In m (FindAllString sql_pattern text) /\ s = TrimSpace m)
     /\ TrimSpace s <> []
     /\ (HasSuffix s (str ";") = true
         \/ Contains (ToUpper s) (str "SELECT") = true
         \/ Contains (ToUpper s) (str "INSERT") = true
         \/ Contains (ToUpper s) (str "UPDATE") = true))
  /\ (forall m, In m (FindAllString sql_pattern text) ->
        ~ (TrimSpace m <> []
           /\ (HasSuffix (TrimSpace m) (str ";") = true
               \/ Contains (ToUpper (TrimSpace m)) (str "SELECT") = true
               \/ Contains (ToUpper (TrimSpace m)) (str "INSERT") = true
               \/ Contains (ToUpper (TrimSpace m)) (str "UPDATE") = true)) ->
        ~ In (TrimSpace m) (findSQLQueries text))
  /\ findSQLQueries text =
       List.filter looks_like_sql (map TrimSpace (FindAllString sql_pattern text)).
Proof.
  intros _. split; [|split].
  - intros s Hs. apply findSQLQueries_In in Hs as [Hok [m [Hm ->]]].
    split; [exists m; split; [exact Hm|reflexivity]|].
    rewrite TrimSpace_idem. apply looks_like_sql_spec, Hok.
  - intros m _ Hbad Hin. apply findSQLQueries_In in Hin as [Hok _].
    apply Hbad, looks_like_sql_spec, Hok.
  - apply findSQLQueries_filter.
Qed.

Lemma C6_witness :
  let text := str "SELECT 1; DELETE FROM logs" in
  (In (str "SELECT 1;") (findSQLQueries text)
   /\ TrimSpace (str "SELECT 1;") <> []
   /\ (HasSuffix (str "SELECT 1;") (str ";") = true
       \/ Contains (ToUpper (str "SELECT 1;")) (str "SELECT") = true
       \/ Contains (ToUpper (str "SELECT 1;")) (str "INSERT") = true
       \/ Contains (ToUpper (str "SELECT 1;")) (str "UPDATE") = true))
  /\ (In (str "DELETE FROM logs") (FindAllString sql_pattern text)
      /\ ~ In (TrimSpace (str "DELETE FROM logs")) (findSQLQueries text)).
Proof.
  intros text.
  assert (Hascii : ascii_text text) by (unfold ascii_text; repeat constructor).
  destruct (C6_post_match_filter text Hascii) as [Hin [Hout _]].
  assert (Hs : In (str "SELECT 1;") (findSQLQueries text)).
  { vm_compute. left. reflexivity. }
  assert (Hm : In (str "DELETE FROM logs") (FindAllString sql_pattern text)).
  { vm_compute. right. left. reflexivity. }
  split; [split; [exact Hs|exact (proj2 (Hin _ Hs))]|].
  split; [exact Hm|]. apply (Hout _ Hm).
  intros [_ Hok]. vm_compute in Hok.
  destruct Hok as [Hok|[Hok|[Hok|Hok]]]; discriminate Hok.
Defined.

(** A match of the pattern ends with [;] or runs to the end of the input. *)
Lemma sql_pattern_end s n :
  match_len sql_pattern s = Some n ->
  (exists pre, firstn n s = pre ++ str ";") \/ firstn n s = s.
Proof.
  unfold match_len, sql_pattern. cbn [bt].
  destruct (bt _ s _) as [rest|] eqn:Hbt; [|discriminate].
  intros [= <-]. apply bt_suffix in Hbt as [s1 [[pre ->] Hend]].
  cbn [bt Chr] in Hend. apply or_else_Some in Hend as [Hend|Hend].
  - destruct s1 as [|c t]; [discriminate Hend|].
    destruct (Ascii.eqb_spec ";" c) as [<-|]; [|discriminate Hend].
    injection Hend as ->. left. exists pre.
    rewrite length_app. cbn [length].
    replace (length pre + S (length rest) - length rest) with (length (pre ++ str ";"))
      by (rewrite length_app; cbn; lia).
    change (pre ++ ";"%char :: rest) with (pre ++ str ";" ++ rest).
    rewrite app_assoc. apply take_app_length.
  - destruct s1; [|discriminate Hend]. injection Hend as <-. right.
    cbn [length]. rewrite Nat.sub_0_r. apply firstn_all.
Qed.

Lemma TrimSpace_semicolon pre : HasSuffix (TrimSpace (pre ++ str ";")) (str ";") = true.
Proof.
  unfold TrimSpace. cbn [str list_ascii_of_string].
  rewrite trim_left_app by reflexivity. rewrite trim_right_app by reflexivity.
  unfold HasSuffix. rewrite rev_app_distr. cbn.
  destruct (rev (trim_left pre)); reflexivity.
Qed.

(** C5, as stated, fails: a statement anchored at INSERT INTO is extracted
    without a terminating semicolon. *)
Lemma C5_counterexample :
  ~ (forall text s,
       ascii_text text -> In s (findSQLQueries text) ->
       HasSuffix s (str ";") = false ->
       HasPrefix (ToUpper s) (str "SELECT") = true).
Proof.
  intros H.
  specialize (H (str "INSERT INTO t") (str "INSERT INTO t")).
  assert (Hfalse : false = true); [|discriminate Hfalse].
  apply H.
  - unfold ascii_text. repeat constructor.
  - vm_compute. left. reflexivity.
  - reflexivity.
Qed.

(** C5, amended: every keyword with which an alternative of the pattern
    begins has a statement that is returned without a terminating [;]; and
    a statement is returned without a terminating [;] exactly when it is the
    trimmed form, not empty, of a match that runs to the end of the text and
    its upper-cased form contains SELECT, INSERT or UPDATE. *)
Theorem C5_unterminated_statement (text s : gostring) :
  ascii_text text ->
  (forall w, In w statement_keywords ->
     exists s', ascii_text s' /\ HasPrefix s' w = true
                /\ findSQLQueries s' = [s'] /\ HasSuffix s' (str ";") = false)
  /\ (In s (findSQLQueries text) /\ HasSuffix s (str ";") = false
      <-> (exists before m, text = before ++ m /\ In m (FindAllString sql_pattern text)
                            /\ s = TrimSpace m)
          /\ s <> []
          /\ HasSuffix s (str ";") = false
          /\ (Contains (ToUpper s) (str "SELECT") = true
              \/ Contains (ToUpper s) (str "INSERT") = true
              \/ Contains (ToUpper s) (str "UPDATE") = true)).
Proof.
  intros _. split.
  - intros w Hw. cbn in Hw.
    assert (Hsample : forall s', ascii_text s' ->
              (HasPrefix s' w && bool_decide (findSQLQueries s' = [s'])
                 && negb (HasSuffix s' (str ";"))) = true ->
              exists s', ascii_text s' /\ HasPrefix s' w = true
                /\ findSQLQueries s' = [s'] /\ HasSuffix s' (str ";") = false).
    { intros s' Hascii Hs'. apply andb_true_iff in Hs' as [Hs' Hsemi].
      apply andb_true_iff in Hs' as [Hpre Hfind]. apply bool_decide_eq_true in Hfind.
      apply negb_true_iff in Hsemi. exists s'. repeat split; assumption. }
    destruct Hw as [<-|[<-|[<-|[<-|[<-|[<-|[<-|[<-|[]]]]]]]]].
    + apply (Hsample (str "SELECT 1")); [unfold ascii_text; repeat constructor|].
      vm_compute. reflexivity.
    + apply (Hsample (str "INSERT INTO t")); [unfold ascii_text; repeat constructor|].
      vm_compute. reflexivity.
    + apply (Hsample (str "UPDATE t SET a")); [unfold ascii_text; repeat constructor|].
      vm_compute. reflexivity.
    + apply (Hsample (str "DELETE FROM updates")); [unfold ascii_text; repeat constructor|].
      vm_compute. reflexivity.
    + apply (Hsample (str "CREATE TABLE updates")); [unfold ascii_text; repeat constructor|].
      vm_compute. reflexivity.
    + apply (Hsample (str "ALTER TABLE updates")); [unfold ascii_text; repeat constructor|].
      vm_compute. reflexivity.
    + apply (Hsample (str "DROP TABLE updates")); [unfold ascii_text; repeat constructor|].
      vm_compute. reflexivity.
    + apply (Hsample (str "TRUNCATE TABLE updates")); [unfold ascii_text; repeat constructor|].
      vm_compute. reflexivity.
  - split.
    + intros [Hs Hsemi]. apply findSQLQueries_In in Hs as [Hok [m [Hm ->]]].
      apply looks_like_sql_spec in Hok as [Hne Hok].
      split; [|split; [exact Hne|split; [exact Hsemi|]]].
      * pose proof Hm as Hm'.
        apply find_from_match in Hm' as [s' [n [[before ->] [Hlen ->]]]].
        destruct (sql_pattern_end _ _ Hlen) as [[pre Hpre]|Hall].
        -- rewrite Hpre, TrimSpace_semicolon in Hsemi. discriminate Hsemi.
        -- rewrite Hall in *. exists before, s'.
           split; [reflexivity|]. split; [exact Hm|reflexivity].
      * destruct Hok as [Hok|Hok]; [congruence|exact Hok].
    + intros [[before [m [_ [Hm ->]]]] [Hne [Hsemi Hword]]]. split; [|exact Hsemi].
      apply findSQLQueries_In. split.
      * apply looks_like_sql_spec. split; [exact Hne|right; exact Hword].
      * exists m. split; [exact Hm|reflexivity].
Qed.

(** The statements of the theorem at work: DELETE FROM updates is returned
    from the end of a text, DELETE FROM logs and CREATE TABLE t are not. *)
Example unterminated_statements :
  findSQLQueries (str "x; DELETE FROM updates") = [str "DELETE FROM updates"]
  /\ findSQLQueries (str "x; DELETE FROM logs") = []
  /\ findSQLQueries (str "CREATE TABLE t") = []
  /\ findSQLQueries (str "CREATE TABLE updates") = [str "CREATE TABLE updates"].
Proof. vm_compute. repeat split. Qed.

Lemma C5_witness :
  let text := str "x; DELETE FROM updates" in
  let s := str "DELETE FROM updates" in
  (In s (findSQLQueries text) /\ HasSuffix s (str ";") = false)
  /\ (exists before m, text = before ++ m /\ In m (FindAllString sql_pattern text)
                       /\ s = TrimSpace m)
  /\ s <> []
  /\ HasSuffix s (str ";") = false
  /\ (Contains (ToUpper s) (str "SELECT") = true
      \/ Contains (ToUpper s) (str "INSERT") = true
      \/ Contains (ToUpper s) (str "UPDATE") = true).
Proof.
  intros text s.
  assert (Hascii : ascii_text text) by (unfold ascii_text; repeat constructor).
  assert (Hs : In s (findSQLQueries text) /\ HasSuffix s (str ";") = false).
  { split; [vm_compute; left; reflexivity|reflexivity]. }
  split; [exact Hs|].
  exact (proj1 (proj2 (C5_unterminated_statement text s Hascii)) Hs).
Defined.

(** ** The replacements of [normalizeQuery], as one pass over the input *)

Lemma or_else_None_r {A} (x : option A) : or_else x None = x.
Proof. destruct x; reflexivity. Qed.

Lemma star_loop_class p k : forall n s,
  length s <= n -> star_loop (bt (Class p)) k n s = star_class p k s.
Proof.
  induction n as [|n IH]; intros s Hn.
  - destruct s; [reflexivity|cbn in Hn; lia].
  - destruct s as [|c t]; cbn [star_loop bt star_class]; [reflexivity|].
    destruct (p c); [|reflexivity].
    cbn [length] in *. rewrite (proj2 (Nat.ltb_lt _ _)) by lia.
    rewrite IH by lia. reflexivity.
Qed.

Lemma bt_star_class p s k : bt (Star (Class p)) s k = star_class p k s.
Proof. cbn [bt]. apply star_loop_class. reflexivity. Qed.

(** A star takes the whole run when what follows cannot start inside it. *)
Lemma star_class_greedy p k s :
  (forall c t, p c = true -> k (c :: t) = None) ->
  star_class p k s = k (drop_class p s).
Proof.
  intros Hk. induction s as [|c t IH]; cbn [star_class drop_class]; [reflexivity|].
  destruct (p c) eqn:Hc.
  - rewrite IH, (Hk c t Hc). apply or_else_None_r.
  - reflexivity.
Qed.

Lemma star_class_Some p s : star_class p Some s = Some (drop_class p s).
Proof.
  induction s as [|c t IH]; cbn [star_class drop_class]; [reflexivity|].
  destruct (p c); [rewrite IH|]; reflexivity.
Qed.

Lemma drop_class_suffix p s : exists run, s = run ++ drop_class p s /\ forallb p run = true.
Proof.
  induction s as [|c t [run [IH Hrun]]]; cbn [drop_class]; [exists []; split; reflexivity|].
  destruct (p c) eqn:Hc.
  - exists (c :: run). cbn. rewrite Hc, Hrun, <- IH. split; reflexivity.
  - exists []. split; reflexivity.
Qed.

Lemma length_drop_class p s : length (drop_class p s) <= length s.
Proof.
  induction s as [|c t IH]; cbn [drop_class]; [reflexivity|].
  destruct (p c); cbn [length]; lia.
Qed.

(** *** Matches of the three shapes of pattern *)

Lemma bt_Cat r1 r2 s k : bt (Cat r1 r2) s k = bt r1 s (fun s1 => bt r2 s1 k).
Proof. reflexivity. Qed.

Lemma bt_Class p s k :
  bt (Class p) s k =
  match s with
  | c :: t => if p c then k t else None
  | [] => None
  end.
Proof. reflexivity. Qed.

Lemma bt_plus_class p s :
  bt (Plus (Class p)) s Some =
  match s with
  | c :: t => if p c then Some (drop_class p t) else None
  | [] => None
  end.
Proof.
  unfold Plus. rewrite bt_Cat, bt_Class. destruct s as [|c t]; [reflexivity|].
  destruct (p c); [|reflexivity].
  rewrite bt_star_class. apply star_class_Some.
Qed.

Lemma bt_around c s :
  is_space c = false ->
  bt (re_around c) s Some =
  match drop_class is_space s with
  | x :: t => if Ascii.eqb c x then Some (drop_class is_space t) else None
  | [] => None
  end.
Proof.
  intros Hc. unfold re_around, ws, Chr.
  rewrite bt_Cat, bt_star_class, star_class_greedy.
  - rewrite bt_Cat, bt_Class. destruct (drop_class is_space s) as [|x t]; [reflexivity|].
    destruct (Ascii.eqb c x); [|reflexivity].
    rewrite bt_star_class. apply star_class_Some.
  - intros x t Hx. rewrite bt_Cat, bt_Class.
    destruct (Ascii.eqb_spec c x) as [->|]; [congruence|reflexivity].
Qed.

Lemma drop_class_head p s y rest : drop_class p s = y :: rest -> p y = false.
Proof.
  induction s as [|c t IH]; cbn [drop_class]; [discriminate|].
  destruct (p c) eqn:Hc; [exact IH|]. intros [= -> _]. exact Hc.
Qed.

Lemma bt_quoted q s :
  bt (re_quoted q) s Some =
  match s with
  | x :: t =>
      if Ascii.eqb q x then
        match drop_class (fun c => negb (Ascii.eqb c q)) t with
        | _ :: rest => Some rest
        | [] => None
        end
      else None
  | [] => None
  end.
Proof.
  unfold re_quoted, Chr. rewrite bt_Cat, bt_Class. destruct s as [|x t]; [reflexivity|].
  destruct (Ascii.eqb q x); [|reflexivity].
  rewrite bt_Cat, bt_star_class, star_class_greedy.
  - rewrite bt_Class.
    destruct (drop_class _ t) as [|y rest] eqn:Hd; [reflexivity|].
    apply drop_class_head in Hd. apply negb_false_iff in Hd.
    rewrite Ascii.eqb_sym, Hd. reflexivity.
  - intros c t' Hc. rewrite bt_Class. apply negb_true_iff in Hc.
    rewrite Ascii.eqb_sym, Hc. reflexivity.
Qed.

(** *** [ReplaceAllString], one match at a time *)

Lemma replace_from_skip r repl : forall s skip,
  replace_from r repl skip s = replace_from r repl 0 (skipn skip s).
Proof.
  induction s as [|x t IH]; intros [|j]; try reflexivity.
  cbn [replace_from skipn]. apply IH.
Qed.

Lemma ReplaceAllString_nil r repl : ReplaceAllString r [] repl = [].
Proof. reflexivity. Qed.

Lemma ReplaceAllString_match r repl x t rest :
  bt r (x :: t) Some = Some rest -> length rest <= length t ->
  ReplaceAllString r (x :: t) repl = repl ++ ReplaceAllString r rest repl.
Proof.
  intros Hbt Hlen. unfold ReplaceAllString. cbn [replace_from]. unfold match_len.
  rewrite Hbt. apply bt_suffix in Hbt as [s1 [[pre Hpre] [= ->]]].
  cbn [length]. replace (S (length t) - length rest) with (S (length t - length rest)) by lia.
  f_equal. rewrite replace_from_skip. f_equal.
  destruct pre as [|y pre]; [apply (f_equal (@length _)) in Hpre; cbn in Hpre; lia|].
  injection Hpre as _ ->. rewrite length_app.
  replace (length pre + length rest - length rest) with (length pre) by lia.
  apply drop_app_length.
Qed.

Lemma ReplaceAllString_nomatch r repl x t :
  bt r (x :: t) Some = None ->
  ReplaceAllString r (x :: t) repl = x :: ReplaceAllString r t repl.
Proof.
  intros Hbt. unfold ReplaceAllString. cbn [replace_from]. unfold match_len.
  rewrite Hbt. reflexivity.
Qed.

(** *** [p+] *)

Lemma collapse_run_true p rep s :
  collapse_run p rep true s = collapse_run p rep false (drop_class p s).
Proof.
  induction s as [|x t IH]; cbn [collapse_run drop_class]; [reflexivity|].
  destruct (p x) eqn:Hx; [exact IH|]. cbn [collapse_run]. rewrite Hx. reflexivity.
Qed.

Lemma ReplaceAllString_collapse p rep s :
  ReplaceAllString (Plus (Class p)) s rep = collapse_run p rep false s.
Proof.
  remember (length s) as n eqn:Hn. revert s Hn.
  induction n as [n IH] using lt_wf_ind. intros [|x t] Hn; [reflexivity|].
  cbn [collapse_run]. destruct (p x) eqn:Hx.
  - rewrite (ReplaceAllString_match _ _ x t (drop_class p t)).
    + rewrite collapse_run_true. f_equal. eapply IH; [|reflexivity].
      subst n. cbn [length]. pose proof (length_drop_class p t). lia.
    + rewrite bt_plus_class, Hx. reflexivity.
    + apply length_drop_class.
  - rewrite ReplaceAllString_nomatch by (rewrite bt_plus_class, Hx; reflexivity).
    f_equal. eapply IH; [|reflexivity]. subst n. cbn [length]. lia.
Qed.

Lemma collapse_run_ext p p' rep : (forall c, p c = p' c) ->
  forall s inrun, collapse_run p rep inrun s = collapse_run p' rep inrun s.
Proof.
  intros H. induction s as [|x t IH]; intros inrun; cbn [collapse_run]; [reflexivity|].
  rewrite <- H, !IH. reflexivity.
Qed.

(** *** [\s*c\s*] *)

Section Around.

Variables (c : ascii) (rep : gostring).
Hypothesis c_not_space : is_space c = false.

Lemma around_after s :
  around_go c rep AfterMatch s = around_go c rep (Pending []) (drop_class is_space s).
Proof using c_not_space.
  induction s as [|x t IH]; cbn [around_go drop_class]; [reflexivity|].
  destruct (Ascii.eqb_spec c x) as [<-|Hne].
  - rewrite c_not_space. cbn [around_go]. rewrite Ascii.eqb_refl. reflexivity.
  - destruct (is_space x) eqn:Hx; [exact IH|].
    cbn [around_go]. destruct (Ascii.eqb_spec c x); [contradiction|].
    rewrite Hx. reflexivity.
Qed.

Lemma around_held_dropped s : forall held,
  next_is c s = true -> around_go c rep (Pending held) s = around_go c rep (Pending []) s.
Proof using c_not_space.
  unfold next_is. induction s as [|x t IH]; intros held; cbn [around_go drop_class];
    [discriminate|].
  destruct (Ascii.eqb_spec c x) as [<-|Hne]; [reflexivity|].
  destruct (is_space x) eqn:Hx.
  - intros H. rewrite (IH (held ++ [x]) H), (IH ([] ++ [x]) H). reflexivity.
  - destruct (Ascii.eqb_spec c x); [contradiction|discriminate].
Qed.

Lemma around_held_kept s : forall held,
  next_is c s = false ->
  around_go c rep (Pending held) s = held ++ around_go c rep (Pending []) s.
Proof using c_not_space.
  unfold next_is. induction s as [|x t IH]; intros held; cbn [around_go drop_class flush].
  - rewrite app_nil_r. reflexivity.
  - destruct (Ascii.eqb_spec c x) as [<-|Hne].
    + rewrite c_not_space, Ascii.eqb_refl. discriminate.
    + destruct (is_space x) eqn:Hx; [|reflexivity].
      intros H. rewrite (IH (held ++ [x]) H), (IH ([] ++ [x]) H).
      rewrite <- app_assoc. reflexivity.
Qed.

Lemma around_next s t' : forall held,
  drop_class is_space s = c :: t' ->
  around_go c rep (Pending held) s = rep ++ around_go c rep AfterMatch t'.
Proof using c_not_space.
  induction s as [|x t IH]; intros held; cbn [around_go drop_class]; [discriminate|].
  destruct (Ascii.eqb_spec c x) as [<-|Hne].
  - rewrite c_not_space. intros [= ->]. reflexivity.
  - destruct (is_space x) eqn:Hx; [apply IH|]. intros [= -> _]. contradiction.
Qed.

Lemma ReplaceAllString_around s :
  ReplaceAllString (re_around c) s rep = around_go c rep (Pending []) s.
Proof using c_not_space.
  remember (length s) as n eqn:Hn. revert s Hn.
  induction n as [n IH] using lt_wf_ind. intros [|x t] Hn; [reflexivity|].
  destruct (next_is c (x :: t)) eqn:Hnext; unfold next_is in Hnext.
  - destruct (drop_class is_space (x :: t)) as [|y t'] eqn:Hd; [discriminate|].
    apply Ascii.eqb_eq in Hnext. subst y.
    destruct (drop_class_suffix is_space (x :: t)) as [run [Hrun _]].
    rewrite Hd in Hrun.
    assert (Hlen : length (drop_class is_space t') <= length t).
    { pose proof (length_drop_class is_space t').
      apply (f_equal (@length _)) in Hrun. rewrite length_app in Hrun.
      cbn [length] in Hrun. lia. }
    rewrite (ReplaceAllString_match _ _ x t (drop_class is_space t')).
    + rewrite (IH (length (drop_class is_space t'))); [| subst n; cbn [length]; lia | reflexivity].
      rewrite <- around_after. symmetry. apply around_next. exact Hd.
    + rewrite bt_around, Hd, Ascii.eqb_refl by exact c_not_space. reflexivity.
    + exact Hlen.
  - rewrite ReplaceAllString_nomatch.
    + rewrite (IH (length t)); [| subst n; cbn [length]; lia | reflexivity].
      cbn [drop_class] in Hnext. cbn [around_go].
      destruct (Ascii.eqb_spec c x) as [<-|Hne].
      * rewrite c_not_space, Ascii.eqb_refl in Hnext. discriminate.
      * destruct (is_space x) eqn:Hx; [|reflexivity].
        rewrite (around_held_kept t ([] ++ [x]) Hnext). reflexivity.
    + rewrite bt_around by exact c_not_space.
      destruct (drop_class is_space (x :: t)) as [|y t']; [reflexivity|].
      rewrite Hnext. reflexivity.
Qed.

End Around.

(** *** [q[^q]*q] *)

Section Quoted.

Variables (q : ascii) (rep : gostring).

Lemma quoted_inside t : forall body,
  quoted_go q rep (Some body) t =
  match drop_class (not_quote q) t with
  | _ :: rest => rep ++ quoted_go q rep None rest
  | [] => q :: body ++ t
  end.
Proof.
  induction t as [|x t IH]; intros body; cbn [quoted_go drop_class].
  - rewrite app_nil_r. reflexivity.
  - unfold not_quote at 1. rewrite (Ascii.eqb_sym x q).
    destruct (Ascii.eqb q x); cbn [negb]; [reflexivity|].
    rewrite IH. destruct (drop_class (not_quote q) t); [|reflexivity].
    rewrite <- app_assoc. reflexivity.
Qed.

Lemma quoted_free s : drop_class (not_quote q) s = [] -> quoted_go q rep None s = s.
Proof.
  induction s as [|x t IH]; cbn [quoted_go drop_class]; [reflexivity|].
  unfold not_quote at 1. rewrite (Ascii.eqb_sym x q).
  destruct (Ascii.eqb q x); cbn [negb]; [discriminate|].
  intros H. rewrite IH by exact H. reflexivity.
Qed.

Lemma ReplaceAllString_quoted s :
  ReplaceAllString (re_quoted q) s rep = quoted_go q rep None s.
Proof.
  remember (length s) as n eqn:Hn. revert s Hn.
  induction n as [n IH] using lt_wf_ind. intros [|x t] Hn; [reflexivity|].
  assert (IHt : ReplaceAllString (re_quoted q) t rep = quoted_go q rep None t).
  { eapply IH; [|reflexivity]. subst n. cbn [length]. lia. }
  cbn [quoted_go]. destruct (Ascii.eqb q x) eqn:Hx.
  - rewrite quoted_inside. fold (not_quote q).
    destruct (drop_class (not_quote q) t) as [|y rest] eqn:Hd.
    + rewrite ReplaceAllString_nomatch.
      * rewrite IHt, quoted_free by exact Hd. apply Ascii.eqb_eq in Hx. subst x. reflexivity.
      * rewrite bt_quoted, Hx. fold (not_quote q). rewrite Hd. reflexivity.
    + assert (Hlen : length rest < length t).
      { pose proof (length_drop_class (not_quote q) t) as H. rewrite Hd in H. cbn [length] in H. lia. }
      rewrite (ReplaceAllString_match _ _ x t rest).
      * f_equal. eapply IH; [|reflexivity]. subst n. cbn [length]. lia.
      * rewrite bt_quoted, Hx. fold (not_quote q). rewrite Hd. reflexivity.
      * lia.
  - rewrite ReplaceAllString_nomatch by (rewrite bt_quoted, Hx; reflexivity).
    rewrite IHt. reflexivity.
Qed.

End Quoted.

Lemma normalizeQuery_passes x :
  normalizeQuery x =
  pad ")" (str " ) ") (pad "(" (str " ( ")
    (mask_quoted "034" (mask_quoted "'" (mask_digits
      (collapse_spaces (pad "," (str ", ") (pad "=" (str " = ")
        (ToLower (TrimSpace (collapse_spaces x)))))))))).
Proof.
  unfold normalizeQuery, replacements. cbv zeta. cbn [fold_left fst snd].
  unfold re_whitespace, pad, mask_quoted, mask_digits, collapse_spaces.
  rewrite !ReplaceAllString_around by reflexivity.
  rewrite !ReplaceAllString_quoted.
  unfold ws. rewrite !ReplaceAllString_collapse.
  do 10 f_equal. apply collapse_run_ext.
  intros c. destruct c as [[] [] [] [] [] [] [] []]; reflexivity.
Qed.

(** ** How the passes act on parts of a string *)

Lemma none_in_app p a b : none_in p (a ++ b) = none_in p a && none_in p b.
Proof. apply forallb_app. Qed.

Lemma none_in_cons p x a : none_in p (x :: a) = negb (p x) && none_in p a.
Proof. reflexivity. Qed.

Section Collapse.

Variables (p : ascii -> bool) (rep : gostring).

(** Characters outside the class are copied. *)
Lemma collapse_run_split x a : forall b s,
  p x = false ->
  collapse_run p rep b (a ++ x :: s) =
  collapse_run p rep b a ++ x :: collapse_run p rep false s.
Proof.
  induction a as [|y a IH]; intros b s Hx; cbn [collapse_run app].
  - rewrite Hx. reflexivity.
  - rewrite !(IH _ s Hx). destruct (p y); [rewrite <- app_assoc|]; reflexivity.
Qed.

Lemma collapse_run_free u : forall b,
  none_in p u = true -> collapse_run p rep b u = u.
Proof.
  induction u as [|x u IH]; intros b; [reflexivity|].
  rewrite none_in_cons, andb_true_iff, negb_true_iff. intros [Hx Hu].
  cbn [collapse_run]. rewrite Hx, IH by exact Hu. reflexivity.
Qed.

Lemma collapse_run_free_app u s b :
  none_in p u = true -> u <> [] ->
  collapse_run p rep b (u ++ s) = u ++ collapse_run p rep false s.
Proof.
  intros Hu Hne. destruct u as [|x u]; [contradiction|].
  revert x b Hu Hne. induction u as [|y u IH]; intros x b Hu _.
  - rewrite none_in_cons, andb_true_iff, negb_true_iff in Hu. destruct Hu as [Hx _].
    cbn [app collapse_run]. rewrite Hx. reflexivity.
  - rewrite none_in_cons, andb_true_iff, negb_true_iff in Hu. destruct Hu as [Hx Hu].
    change ((x :: y :: u) ++ s) with (x :: (y :: u) ++ s).
    cbn [collapse_run]. rewrite Hx. rewrite (IH y false Hu) by discriminate. reflexivity.
Qed.

Lemma collapse_run_app_free a : forall b u,
  none_in p u = true ->
  collapse_run p rep b (a ++ u) = collapse_run p rep b a ++ u.
Proof.
  induction a as [|y a IH]; intros b u Hu; cbn [collapse_run app].
  - apply collapse_run_free, Hu.
  - rewrite !(IH _ u Hu). destruct (p y); [rewrite <- app_assoc|]; reflexivity.
Qed.

Lemma state_after_snoc b a z : state_after p b (a ++ [z]) = p z.
Proof. unfold state_after. rewrite rev_app_distr. reflexivity. Qed.

Lemma state_after_cons b y a : state_after p b (y :: a) = state_after p (p y) a.
Proof.
  unfold state_after. cbn [rev]. destruct (rev a); reflexivity.
Qed.

Lemma collapse_run_app a : forall b s,
  collapse_run p rep b (a ++ s) =
  collapse_run p rep b a ++ collapse_run p rep (state_after p b a) s.
Proof.
  induction a as [|y a IH]; intros b s; [reflexivity|].
  cbn [collapse_run app]. rewrite state_after_cons.
  destruct (p y) eqn:Hy; rewrite IH; [rewrite <- app_assoc|]; reflexivity.
Qed.

End Collapse.

Section AroundParts.

Variables (c : ascii) (rep : gostring).

Lemma around_go_inert st x s :
  inert c x = true ->
  around_go c rep st (x :: s) = flush st ++ x :: around_go c rep (Pending []) s.
Proof.
  unfold inert. rewrite andb_true_iff, !negb_true_iff. intros [Hs Hc].
  cbn [around_go]. rewrite Hc, Hs. reflexivity.
Qed.

Lemma around_go_split x a : forall st s,
  inert c x = true ->
  around_go c rep st (a ++ x :: s) =
  around_go c rep st a ++ x :: around_go c rep (Pending []) s.
Proof.
  induction a as [|y a IH]; intros st s Hx.
  - apply around_go_inert, Hx.
  - cbn [around_go app]. destruct (Ascii.eqb c y).
    + rewrite IH by exact Hx. rewrite <- app_assoc. reflexivity.
    + destruct (is_space y).
      * destruct st; apply IH, Hx.
      * rewrite IH by exact Hx. rewrite <- !app_assoc. reflexivity.
Qed.

Lemma pad_split x a s :
  inert c x = true -> pad c rep (a ++ x :: s) = pad c rep a ++ x :: pad c rep s.
Proof. apply around_go_split. Qed.

End AroundParts.

Section QuotedParts.

Variables (q : ascii) (rep : gostring).

Lemma drop_not_quote_free s : free_of q s = true -> drop_class (not_quote q) s = [].
Proof.
  induction s as [|x s IH]; [reflexivity|].
  unfold free_of in *. rewrite none_in_cons, andb_true_iff. intros [Hx Hs].
  cbn [drop_class]. unfold not_quote at 1. rewrite Ascii.eqb_sym, Hx. apply IH, Hs.
Qed.

Lemma drop_not_quote_app body s :
  free_of q body = true -> drop_class (not_quote q) (body ++ q :: s) = q :: s.
Proof.
  induction body as [|x body IH]; cbn [app drop_class].
  - intros _. unfold not_quote. rewrite Ascii.eqb_refl. reflexivity.
  - unfold free_of in *. rewrite none_in_cons, andb_true_iff. intros [Hx Hs].
    unfold not_quote at 1. rewrite Ascii.eqb_sym, Hx. apply IH, Hs.
Qed.

Lemma quoted_go_free a : forall s,
  free_of q a = true -> quoted_go q rep None (a ++ s) = a ++ quoted_go q rep None s.
Proof.
  induction a as [|x a IH]; intros s; [reflexivity|].
  unfold free_of in *. rewrite none_in_cons, andb_true_iff, negb_true_iff. intros [Hx Ha].
  cbn [app quoted_go]. rewrite Hx, IH by exact Ha. reflexivity.
Qed.

Lemma quoted_go_literal body s :
  free_of q body = true ->
  quoted_go q rep None (q :: body ++ q :: s) = rep ++ quoted_go q rep None s.
Proof.
  intros Hb. cbn [quoted_go]. rewrite Ascii.eqb_refl, quoted_inside.
  rewrite drop_not_quote_app by exact Hb. reflexivity.
Qed.

Lemma quoted_go_open b :
  free_of q b = true -> quoted_go q rep None (q :: b) = q :: b.
Proof.
  intros Hb. cbn [quoted_go]. rewrite Ascii.eqb_refl, quoted_inside.
  rewrite drop_not_quote_free by exact Hb. reflexivity.
Qed.

Lemma quoted_go_free_id s : free_of q s = true -> quoted_go q rep None s = s.
Proof.
  intros H. rewrite <- (app_nil_r s) at 1. rewrite quoted_go_free by exact H.
  cbn. apply app_nil_r.
Qed.

(** A string has no quote, or a first quote. *)
Lemma first_quote s :
  free_of q s = true \/ exists a b, s = a ++ q :: b /\ free_of q a = true.
Proof.
  induction s as [|x s IH]; [left; reflexivity|].
  destruct (Ascii.eqb_spec q x) as [<-|Hne].
  - right. exists [], s. split; reflexivity.
  - destruct IH as [IH|[a [b [-> Ha]]]].
    + left. unfold free_of in *. rewrite none_in_cons, IH.
      destruct (Ascii.eqb_spec q x); [contradiction|reflexivity].
    + right. exists (x :: a), b. split; [reflexivity|].
      unfold free_of in *. rewrite none_in_cons, Ha.
      destruct (Ascii.eqb_spec q x); [contradiction|reflexivity].
Qed.

(** Masking commutes with every pass that works on the stretches between
    quotes and tokens, one stretch at a time. *)
Section Commute.

Variable f : gostring -> gostring.
Variable r : ascii.
Hypothesis rep_char : rep = [r].
Hypothesis f_quote : forall a b, f (a ++ q :: b) = f a ++ q :: f b.
Hypothesis f_token : forall a b, f (a ++ r :: b) = f a ++ r :: f b.
Hypothesis f_free : forall a, free_of q a = true -> free_of q (f a) = true.

Lemma quoted_commute s : quoted_go q rep None (f s) = f (quoted_go q rep None s).
Proof using All.
  remember (length s) as n eqn:Hn. revert s Hn.
  induction n as [n IH] using lt_wf_ind. intros s Hn.
  destruct (first_quote s) as [Hs|[a [t [-> Ha]]]].
  - rewrite !quoted_go_free_id; auto.
  - rewrite f_quote, !quoted_go_free by auto.
    destruct (first_quote t) as [Ht|[body [rest [-> Hb]]]].
    + rewrite !quoted_go_open by auto. rewrite f_quote. reflexivity.
    + rewrite f_quote, !quoted_go_literal by auto.
      rewrite rep_char. cbn [app]. rewrite f_token. do 2 f_equal.
      rewrite <- rep_char. eapply IH; [|reflexivity].
      subst n. rewrite !length_app. cbn [length]. rewrite length_app. cbn [length]. lia.
Qed.

End Commute.

End QuotedParts.

(** ** The characters of the output of a pass *)

Lemma none_in_spec p s : none_in p s = true <-> forall x, In x s -> p x = false.
Proof.
  unfold none_in. rewrite forallb_forall. split; intros H x Hx.
  - apply negb_true_iff, H, Hx.
  - apply negb_true_iff, H, Hx.
Qed.

Lemma pad_chars c rep s x :
  is_space c = false -> In x (pad c rep s) -> In x s \/ In x rep.
Proof.
  intros Hc. unfold pad. rewrite <- ReplaceAllString_around by exact Hc.
  apply ReplaceAllString_chars.
Qed.

Lemma collapse_chars p rep s x :
  In x (collapse_run p rep false s) -> In x s \/ In x rep.
Proof. rewrite <- ReplaceAllString_collapse. apply ReplaceAllString_chars. Qed.

Lemma mask_quoted_chars q s x :
  In x (mask_quoted q s) -> In x s \/ In x (str "S").
Proof.
  unfold mask_quoted. rewrite <- ReplaceAllString_quoted. apply ReplaceAllString_chars.
Qed.

Lemma none_in_pad p c rep s :
  is_space c = false -> none_in p rep = true -> none_in p s = true ->
  none_in p (pad c rep s) = true.
Proof.
  rewrite !none_in_spec. intros Hc Hrep Hs x Hx.
  apply pad_chars in Hx as [Hx|Hx]; auto.
Qed.

Lemma none_in_collapse p p' rep s :
  none_in p rep = true -> none_in p s = true ->
  none_in p (collapse_run p' rep false s) = true.
Proof.
  rewrite !none_in_spec. intros Hrep Hs x Hx.
  apply collapse_chars in Hx as [Hx|Hx]; auto.
Qed.

Lemma none_in_mask_quoted p q s :
  p "S"%char = false -> none_in p s = true -> none_in p (mask_quoted q s) = true.
Proof.
  rewrite !none_in_spec. intros HS Hs x Hx.
  apply mask_quoted_chars in Hx as [Hx|Hx]; [auto|].
  cbn in Hx. destruct Hx as [<-|[]]. exact HS.
Qed.

(** ** Masking quoted literals commutes with the spacing passes *)

Lemma mask_quoted_pad q c rep s :
  is_quote q = true ->
  is_space c = false -> inert c q = true -> inert c "S" = true ->
  free_of q rep = true ->
  mask_quoted q (pad c rep s) = pad c rep (mask_quoted q s).
Proof.
  intros Hq Hc Hcq HcS Hrep. unfold mask_quoted.
  apply (quoted_commute q (str "S") (pad c rep) "S"%char).
  - reflexivity.
  - intros a b. apply pad_split, Hcq.
  - intros a b. apply pad_split, HcS.
  - intros a Ha. apply none_in_pad; assumption.
Qed.

Lemma collapse_split p rep x a s :
  p x = false ->
  collapse_run p rep false (a ++ x :: s) =
  collapse_run p rep false a ++ x :: collapse_run p rep false s.
Proof. apply collapse_run_split. Qed.

Lemma mask_quoted_collapse q p rep s :
  p q = false -> p "S"%char = false -> free_of q rep = true ->
  mask_quoted q (collapse_run p rep false s) = collapse_run p rep false (mask_quoted q s).
Proof.
  intros Hq HS Hrep. unfold mask_quoted.
  apply (quoted_commute q (str "S") (collapse_run p rep false) "S"%char).
  - reflexivity.
  - intros a b. apply collapse_split, Hq.
  - intros a b. apply collapse_split, HS.
  - intros a Ha. apply none_in_collapse; assumption.
Qed.

(** ** Masking digits commutes with the spacing passes *)

Section DigitsAround.

Variables (c : ascii) (rep : gostring) (r0 : ascii) (rep' : gostring).
Hypothesis c_not_space : is_space c = false.
Hypothesis c_not_digit : is_digit c = false.
Hypothesis rep_cons : rep = r0 :: rep'.
Hypothesis rep_not_digit : none_in is_digit rep = true.
Hypothesis token_inert : inert c "N" = true.

Lemma space_not_digit x : is_space x = true -> is_digit x = false.
Proof. destruct x as [[] [] [] [] [] [] [] []]; vm_compute; congruence. Qed.

Lemma collapse_head b x s :
  is_digit x = false ->
  collapse_run is_digit (str "N") b (x :: s) = collapse_run is_digit (str "N") false (x :: s).
Proof. intros Hx. cbn [collapse_run]. rewrite Hx. reflexivity. Qed.

Lemma around_held_head held s :
  held <> [] -> none_in is_digit held = true ->
  exists y out, around_go c rep (Pending held) s = y :: out /\ is_digit y = false.
Proof using rep_cons rep_not_digit.
  revert held. induction s as [|x s IH]; intros held Hne Hd.
  - destruct held as [|y held]; [contradiction|]. exists y, held. split; [reflexivity|].
    rewrite none_in_cons, andb_true_iff, negb_true_iff in Hd. tauto.
  - cbn [around_go]. destruct (Ascii.eqb c x).
    + rewrite rep_cons in *. exists r0, (rep' ++ around_go c (r0 :: rep') AfterMatch s).
      split; [reflexivity|].
      rewrite none_in_cons, andb_true_iff, negb_true_iff in rep_not_digit. tauto.
    + destruct (is_space x) eqn:Hx.
      * apply IH; [destruct held; discriminate|].
        rewrite none_in_app, Hd. cbn. rewrite (space_not_digit x Hx). reflexivity.
      * destruct held as [|y held]; [contradiction|]. cbn [flush app]. eexists _, _.
        split; [reflexivity|].
        rewrite none_in_cons, andb_true_iff, negb_true_iff in Hd. tauto.
Qed.

Lemma digits_around_joint s : forall st b,
  joint st b ->
  around_go c rep st (collapse_run is_digit (str "N") b s) =
  collapse_run is_digit (str "N") b (around_go c rep st s).
Proof using All.
  induction s as [|x s IH]; intros st b Hj.
  - cbn [collapse_run around_go]. destruct st as [|held]; [reflexivity|].
    cbn [flush]. destruct Hj as [Hd _]. rewrite collapse_run_free by exact Hd. reflexivity.
  - cbn [collapse_run]. destruct (is_digit x) eqn:Hdx.
    + assert (Hin : inert c x = true).
      { unfold inert. destruct (Ascii.eqb_spec c x) as [<-|]; [congruence|].
        destruct (is_space x) eqn:Hs; [apply space_not_digit in Hs; congruence|reflexivity]. }
      rewrite (around_go_inert c rep st x s Hin).
      destruct b.
      * destruct st as [|held]; [discriminate Hj|]. destruct Hj as [_ Hh].
        rewrite (Hh eq_refl). cbn [app flush collapse_run]. rewrite Hdx. cbn [app].
        apply IH. split; [reflexivity|reflexivity].
      * change (str "N" ++ collapse_run is_digit (str "N") true s)
          with ("N"%char :: collapse_run is_digit (str "N") true s).
        rewrite around_go_inert by exact token_inert.
        rewrite IH by (split; reflexivity).
        destruct st as [|held]; cbn [flush app collapse_run].
        -- rewrite Hdx. reflexivity.
        -- destruct Hj as [Hd _]. destruct held as [|h held].
           ++ cbn [app collapse_run]. rewrite Hdx. reflexivity.
           ++ rewrite collapse_run_free_app by (auto; discriminate).
              cbn [collapse_run]. rewrite Hdx. reflexivity.
    + cbn [around_go]. destruct (Ascii.eqb_spec c x) as [<-|Hne].
      * rewrite IH by reflexivity.
        rewrite collapse_run_free_app; [reflexivity|exact rep_not_digit|].
        rewrite rep_cons. discriminate.
      * destruct (is_space x) eqn:Hsx.
        -- destruct st as [|held].
           ++ rewrite IH by reflexivity. cbn in Hj. subst b. reflexivity.
           ++ destruct Hj as [Hd Hb].
              assert (Hd' : none_in is_digit (held ++ [x]) = true).
              { rewrite none_in_app, Hd. cbn. rewrite Hdx. reflexivity. }
              rewrite IH by (split; [exact Hd'|discriminate]).
              destruct (around_held_head (held ++ [x]) s) as [y [out [-> Hy]]];
                [destruct held; discriminate|exact Hd'|].
              symmetry. apply collapse_head, Hy.
        -- rewrite IH by (split; reflexivity).
           destruct st as [|held]; cbn [flush app collapse_run].
           ++ rewrite Hdx. reflexivity.
           ++ destruct Hj as [Hd _]. destruct held as [|h held].
              ** cbn [app collapse_run]. rewrite Hdx. reflexivity.
              ** rewrite collapse_run_free_app by (auto; discriminate).
                 cbn [collapse_run]. rewrite Hdx. reflexivity.
Qed.

Lemma mask_digits_pad s : mask_digits (pad c rep s) = pad c rep (mask_digits s).
Proof using All.
  unfold mask_digits, pad. symmetry. apply digits_around_joint.
  split; [reflexivity|reflexivity].
Qed.

End DigitsAround.

Section TwoClasses.

Variables (p1 p2 : ascii -> bool) (n1 n2 : ascii).
Hypothesis disjoint12 : forall x, p1 x = true -> p2 x = false.
Hypothesis token1 : p2 n1 = false.
Hypothesis token2 : p1 n2 = false.

Lemma collapse_collapse_joint s : forall b1 b2,
  b1 && b2 = false ->
  collapse_run p1 [n1] b1 (collapse_run p2 [n2] b2 s) =
  collapse_run p2 [n2] b2 (collapse_run p1 [n1] b1 s).
Proof using All.
  induction s as [|x s IH]; intros b1 b2 Hb; [reflexivity|].
  cbn [collapse_run]. destruct (p1 x) eqn:H1.
  - rewrite (disjoint12 x H1). cbn [collapse_run]. rewrite H1.
    destruct b1; cbn [app].
    + cbn in Hb. subst b2. apply IH. reflexivity.
    + cbn [collapse_run]. rewrite token1. rewrite IH by reflexivity. reflexivity.
  - destruct (p2 x) eqn:H2.
    + destruct b2; cbn [app collapse_run]; rewrite ?H2, ?token2; cbn [app].
      * rewrite andb_true_r in Hb. subst b1. apply IH. reflexivity.
      * rewrite IH by reflexivity. reflexivity.
    + cbn [collapse_run]. rewrite H1, H2. rewrite IH by reflexivity. reflexivity.
Qed.

End TwoClasses.

Lemma mask_digits_collapse_spaces s :
  mask_digits (collapse_spaces s) = collapse_spaces (mask_digits s).
Proof.
  unfold mask_digits, collapse_spaces.
  apply (collapse_collapse_joint is_digit is_space "N" " "); try reflexivity.
  intros x Hx. destruct (is_space x) eqn:Hs; [|reflexivity].
  apply space_not_digit in Hs. congruence.
Qed.

(** ** Masking commutes with [TrimSpace] *)

Lemma trim_left_drop s : trim_left s = drop_class is_trim_space s.
Proof. induction s as [|x s IH]; cbn; [reflexivity|]. rewrite IH. reflexivity. Qed.

Lemma trim_left_all sp : forallb is_trim_space sp = true -> trim_left sp = [].
Proof.
  induction sp as [|x sp IH]; [reflexivity|]. cbn [forallb trim_left].
  rewrite andb_true_iff. intros [-> H]. apply IH, H.
Qed.

Lemma forallb_rev {A} (f : A -> bool) l : forallb f (rev l) = forallb f l.
Proof.
  apply eq_true_iff_eq. rewrite !forallb_forall. split; intros H x Hx; apply H.
  - apply in_rev. rewrite rev_involutive. exact Hx.
  - apply in_rev. exact Hx.
Qed.

Lemma trim_right_spec s :
  exists sp, s = trim_right s ++ sp /\ forallb is_trim_space sp = true
             /\ ends_outside is_trim_space (trim_right s).
Proof.
  unfold trim_right. rewrite trim_left_drop.
  destruct (drop_class_suffix is_trim_space (rev s)) as [run [Hrun Hall]].
  exists (rev run). split; [|split].
  - rewrite <- rev_app_distr, <- Hrun, rev_involutive. reflexivity.
  - rewrite forallb_rev. exact Hall.
  - destruct (drop_class is_trim_space (rev s)) as [|y rest] eqn:Hd; [left; reflexivity|].
    right. exists (rev rest), y. split; [reflexivity|].
    eapply drop_class_head, Hd.
Qed.

Lemma trim_right_intro u sp :
  ends_outside is_trim_space u -> forallb is_trim_space sp = true ->
  trim_right (u ++ sp) = u.
Proof.
  intros [->|[u' [y [-> Hy]]]] Hsp.
  - unfold trim_right. cbn [app]. rewrite trim_left_all; [reflexivity|].
    rewrite forallb_rev. exact Hsp.
  - rewrite <- app_assoc. cbn [app]. rewrite trim_right_app by exact Hy.
    unfold trim_right. rewrite trim_left_all by (rewrite forallb_rev; exact Hsp).
    reflexivity.
Qed.

Section TrimCommute.

Variable f : gostring -> gostring.
Hypothesis f_nil : f [] = [].
Hypothesis f_head : forall x s, is_trim_space x = false ->
  exists y out, f (x :: s) = y :: out /\ is_trim_space y = false.
Hypothesis f_space : forall x s, is_trim_space x = true -> f (x :: s) = x :: f s.
Hypothesis f_spaces : forall a sp, forallb is_trim_space sp = true -> f (a ++ sp) = f a ++ sp.
Hypothesis f_last : forall a y, is_trim_space y = false ->
  ends_outside is_trim_space (f (a ++ [y])).

Lemma trim_left_commute s : f (trim_left s) = trim_left (f s).
Proof using f_nil f_head f_space.
  induction s as [|x s IH]; [cbn [trim_left]; rewrite f_nil; reflexivity|].
  cbn [trim_left]. destruct (is_trim_space x) eqn:Hx.
  - rewrite f_space by exact Hx. cbn [trim_left]. rewrite Hx. exact IH.
  - destruct (f_head x s Hx) as [y [out [-> Hy]]]. cbn [trim_left]. rewrite Hy. reflexivity.
Qed.

Lemma trim_right_commute s : f (trim_right s) = trim_right (f s).
Proof using f_nil f_spaces f_last.
  destruct (trim_right_spec s) as [sp [Hs [Hsp Hend]]].
  rewrite Hs at 2. rewrite f_spaces by exact Hsp.
  rewrite trim_right_intro; [reflexivity| |exact Hsp].
  destruct Hend as [->|[u' [y [-> Hy]]]].
  - rewrite f_nil. left. reflexivity.
  - apply f_last, Hy.
Qed.

Lemma TrimSpace_commute s : f (TrimSpace s) = TrimSpace (f s).
Proof using All.
  unfold TrimSpace. rewrite trim_right_commute, trim_left_commute. reflexivity.
Qed.

End TrimCommute.

Lemma trim_space_not_digit x : is_trim_space x = true -> is_digit x = false.
Proof. destruct x as [[] [] [] [] [] [] [] []]; vm_compute; congruence. Qed.

Lemma all_trim_space_not_digit sp :
  forallb is_trim_space sp = true -> none_in is_digit sp = true.
Proof.
  intros H. apply none_in_spec. intros x Hx.
  apply trim_space_not_digit. rewrite forallb_forall in H. apply H, Hx.
Qed.

Lemma mask_digits_last a y :
  is_digit y = true -> exists out, mask_digits (a ++ [y]) = out ++ str "N".
Proof.
  intros Hy. unfold mask_digits. revert y Hy.
  induction a as [|z a IH] using rev_ind; intros y Hy.
  - cbn. rewrite Hy. exists []. reflexivity.
  - rewrite collapse_run_app, state_after_snoc. cbn [collapse_run]. rewrite Hy.
    destruct (is_digit z) eqn:Hz.
    + destruct (IH z Hz) as [out ->]. exists out. cbn [app]. rewrite app_nil_r. reflexivity.
    + eexists. cbn [app]. reflexivity.
Qed.

Lemma mask_digits_TrimSpace s : mask_digits (TrimSpace s) = TrimSpace (mask_digits s).
Proof.
  apply TrimSpace_commute.
  - reflexivity.
  - intros x s' Hx. unfold mask_digits. cbn [collapse_run].
    destruct (is_digit x); [|eexists _, _; split; [reflexivity|exact Hx]].
    eexists _, _. split; [reflexivity|reflexivity].
  - intros x s' Hx. unfold mask_digits. cbn [collapse_run].
    rewrite (trim_space_not_digit x Hx). reflexivity.
  - intros a sp Hsp. apply collapse_run_app_free, all_trim_space_not_digit, Hsp.
  - intros a y Hy. destruct (is_digit y) eqn:Hd.
    + destruct (mask_digits_last a y Hd) as [out ->]. right.
      exists out, "N"%char. split; reflexivity.
    + unfold mask_digits. rewrite collapse_run_split by exact Hd. right.
      eexists _, y. split; [reflexivity|exact Hy].
Qed.

Section QuotedTrim.

Variable q : ascii.
Hypothesis q_not_space : is_trim_space q = false.

Lemma quoted_go_app_free a : forall inside r,
  free_of q r = true ->
  quoted_go q (str "S") inside (a ++ r) = quoted_go q (str "S") inside a ++ r.
Proof.
  induction a as [|x a IH]; intros inside r Hr.
  - cbn [app]. destruct inside as [body|].
    + rewrite (quoted_inside q (str "S") r body), drop_not_quote_free by exact Hr.
      reflexivity.
    + cbn [quoted_go]. apply quoted_go_free_id, Hr.
  - cbn [app quoted_go]. destruct inside as [body|]; destruct (Ascii.eqb q x);
      rewrite ?IH by exact Hr; reflexivity.
Qed.

Lemma quoted_go_last a : forall inside,
  exists out e, quoted_go q (str "S") inside (a ++ [q]) = out ++ [e]
                /\ (e = "S"%char \/ e = q).
Proof.
  induction a as [|x a IH]; intros inside.
  - cbn [app quoted_go]. rewrite Ascii.eqb_refl. destruct inside as [body|].
    + exists [], "S"%char. split; [reflexivity|left; reflexivity].
    + exists [], q. split; [reflexivity|right; reflexivity].
  - cbn [app quoted_go]. destruct inside as [body|]; destruct (Ascii.eqb q x).
    + destruct (IH None) as [out [e [-> He]]]. exists (str "S" ++ out), e.
      split; [rewrite <- app_assoc; reflexivity|exact He].
    + apply IH.
    + apply IH.
    + destruct (IH None) as [out [e [-> He]]]. exists (x :: out), e.
      split; [reflexivity|exact He].
Qed.

Lemma all_trim_space_free sp : forallb is_trim_space sp = true -> free_of q sp = true.
Proof using q_not_space.
  intros H. apply none_in_spec. intros x Hx.
  rewrite forallb_forall in H. specialize (H x Hx).
  destruct (Ascii.eqb_spec q x) as [<-|]; [congruence|reflexivity].
Qed.

Lemma mask_quoted_TrimSpace s : mask_quoted q (TrimSpace s) = TrimSpace (mask_quoted q s).
Proof using q_not_space.
  apply TrimSpace_commute.
  - reflexivity.
  - intros x s' Hx. unfold mask_quoted. cbn [quoted_go]. destruct (Ascii.eqb q x).
    + rewrite quoted_inside. destruct (drop_class _ s').
      * eexists _, _. split; [reflexivity|exact q_not_space].
      * eexists _, _. split; [reflexivity|reflexivity].
    + eexists _, _. split; [reflexivity|exact Hx].
  - intros x s' Hx. unfold mask_quoted. cbn [quoted_go].
    destruct (Ascii.eqb_spec q x) as [<-|]; [congruence|reflexivity].
  - intros a sp Hsp. apply quoted_go_app_free, all_trim_space_free, Hsp.
  - intros a y Hy. unfold mask_quoted. destruct (Ascii.eqb_spec q y) as [<-|Hne].
    + destruct (quoted_go_last a None) as [out [e [-> He]]]. right.
      exists out, e. split; [reflexivity|]. destruct He as [->| ->]; [reflexivity|exact Hy].
    + rewrite quoted_go_app_free.
      * right. eexists _, y. split; [reflexivity|exact Hy].
      * cbn. destruct (Ascii.eqb_spec q y); [contradiction|reflexivity].
Qed.

End QuotedTrim.

(** ** Lower-casing commutes with the spacing passes *)

Lemma collapse_run_lower p rep s : forall b,
  (forall x, p (lower x) = p x) -> map lower rep = rep ->
  collapse_run p rep b (map lower s) = map lower (collapse_run p rep b s).
Proof.
  intros b Hp Hrep. revert b. induction s as [|x s IH]; intros b; [reflexivity|].
  cbn [map collapse_run]. rewrite Hp. destruct (p x).
  - rewrite map_app, IH. destruct b; [reflexivity|]. rewrite Hrep. reflexivity.
  - cbn [map]. rewrite IH. reflexivity.
Qed.

Lemma collapse_spaces_lower s : collapse_spaces (ToLower s) = ToLower (collapse_spaces s).
Proof. apply collapse_run_lower; [apply is_space_lower|reflexivity]. Qed.

Lemma trim_left_lower s : trim_left (map lower s) = map lower (trim_left s).
Proof.
  induction s as [|x s IH]; [reflexivity|]. cbn [map trim_left].
  rewrite is_trim_space_lower. destruct (is_trim_space x); [exact IH|reflexivity].
Qed.

Lemma TrimSpace_lower s : TrimSpace (ToLower s) = ToLower (TrimSpace s).
Proof.
  unfold TrimSpace, trim_right, ToLower.
  rewrite trim_left_lower, <- map_rev, trim_left_lower, map_rev. reflexivity.
Qed.

Lemma around_go_lower c rep s : forall st,
  (forall x, Ascii.eqb c (lower x) = Ascii.eqb c x) -> map lower rep = rep ->
  around_go c rep (lower_state st) (map lower s) = map lower (around_go c rep st s).
Proof.
  intros st Hc Hrep. revert st. induction s as [|x s IH]; intros st.
  - destruct st; reflexivity.
  - cbn [map around_go]. rewrite Hc, is_space_lower. destruct (Ascii.eqb c x).
    + rewrite map_app, Hrep. f_equal. apply (IH AfterMatch).
    + destruct (is_space x).
      * destruct st as [|held]; [apply (IH AfterMatch)|].
        rewrite <- (IH (Pending (held ++ [x]))). cbn [lower_state].
        rewrite map_app. reflexivity.
      * rewrite map_app. cbn [map]. rewrite <- (IH (Pending [])).
        destruct st; reflexivity.
Qed.

Lemma pad_lower c rep s :
  (forall x, Ascii.eqb c (lower x) = Ascii.eqb c x) -> map lower rep = rep ->
  pad c rep (ToLower s) = ToLower (pad c rep s).
Proof. intros Hc Hrep. apply (around_go_lower c rep s (Pending []) Hc Hrep). Qed.

Lemma spacing_lower s : spacing (ToLower s) = ToLower (spacing s).
Proof.
  unfold spacing.
  rewrite (pad_lower "=") by (try reflexivity; intros [[] [] [] [] [] [] [] []]; reflexivity).
  rewrite (pad_lower ",") by (try reflexivity; intros [[] [] [] [] [] [] [] []]; reflexivity).
  rewrite collapse_spaces_lower.
  rewrite (pad_lower "(") by (try reflexivity; intros [[] [] [] [] [] [] [] []]; reflexivity).
  rewrite (pad_lower ")") by (try reflexivity; intros [[] [] [] [] [] [] [] []]; reflexivity).
  reflexivity.
Qed.

(** ** A normal form of [normalizeQuery]

    Masking the literals can be done first: the output is the spacing of the
    trimmed, white-space-collapsed, masked lower-case input. *)

Lemma mask_quoted_mask_digits q s :
  is_quote q = true ->
  mask_quoted q (mask_digits s) = mask_digits (mask_quoted q s).
Proof.
  intros Hq. unfold mask_digits. apply mask_quoted_collapse.
  - unfold is_quote in Hq. apply orb_true_iff in Hq as [H|H];
      apply Ascii.eqb_eq in H; subst q; reflexivity.
  - reflexivity.
  - unfold is_quote in Hq. apply orb_true_iff in Hq as [H|H];
      apply Ascii.eqb_eq in H; subst q; reflexivity.
Qed.

Lemma mask_quoted_collapse_spaces q s :
  is_quote q = true ->
  mask_quoted q (collapse_spaces s) = collapse_spaces (mask_quoted q s).
Proof.
  intros Hq. unfold collapse_spaces. apply mask_quoted_collapse.
  - unfold is_quote in Hq. apply orb_true_iff in Hq as [H|H];
      apply Ascii.eqb_eq in H; subst q; reflexivity.
  - reflexivity.
  - unfold is_quote in Hq. apply orb_true_iff in Hq as [H|H];
      apply Ascii.eqb_eq in H; subst q; reflexivity.
Qed.

Lemma mask_collapse_spaces s : mask (collapse_spaces s) = collapse_spaces (mask s).
Proof.
  unfold mask.
  rewrite !mask_quoted_collapse_spaces by reflexivity.
  apply mask_digits_collapse_spaces.
Qed.

Lemma mask_TrimSpace s : mask (TrimSpace s) = TrimSpace (mask s).
Proof.
  unfold mask.
  rewrite !mask_quoted_TrimSpace by reflexivity.
  apply mask_digits_TrimSpace.
Qed.

Lemma mask_pad_eq s : mask (pad "=" (str " = ") s) = pad "=" (str " = ") (mask s).
Proof.
  unfold mask.
  rewrite !mask_quoted_pad by reflexivity.
  apply (mask_digits_pad "=" (str " = ") " " (str "= ")); reflexivity.
Qed.

Lemma mask_pad_comma s : mask (pad "," (str ", ") s) = pad "," (str ", ") (mask s).
Proof.
  unfold mask.
  rewrite !mask_quoted_pad by reflexivity.
  apply (mask_digits_pad "," (str ", ") "," (str " ")); reflexivity.
Qed.

Lemma mask_order s :
  mask_quoted "034" (mask_quoted "'" (mask_digits s)) = mask s.
Proof.
  unfold mask. rewrite !mask_quoted_mask_digits by reflexivity. reflexivity.
Qed.

Theorem normalizeQuery_normal_form x :
  normalizeQuery x = spacing (TrimSpace (collapse_spaces (mask (ToLower x)))).
Proof.
  rewrite normalizeQuery_passes, mask_order.
  rewrite mask_collapse_spaces, mask_pad_comma, mask_pad_eq.
  rewrite <- TrimSpace_lower, <- collapse_spaces_lower.
  rewrite mask_TrimSpace, mask_collapse_spaces. reflexivity.
Qed.

(** ** Strings as characters separated by gaps of white space *)

Lemma spaces_app g1 g2 : spaces (g1 ++ g2) = spaces g1 && spaces g2.
Proof. apply forallb_app. Qed.

(** Every string can be read in this way. *)
Lemma gapped_exists s : exists w, well_gapped w /\ s = flat w.
Proof.
  induction s as [|x s [[its tl] [[Hits Htl] ->]]].
  - exists ([], []). split; [split; [constructor|reflexivity]|reflexivity].
  - cbn [fst snd] in *. destruct (is_space x) eqn:Hx.
    + destruct its as [|[g y] rest].
      * exists ([], x :: tl). split; [|reflexivity].
        split; [constructor|]. cbn. rewrite Hx. exact Htl.
      * exists ((x :: g, y) :: rest, tl). split; [|reflexivity].
        split; [|exact Htl]. cbn [fst]. inversion Hits as [|? ? [Hg Hy] Hrest]; subst.
        constructor; [|exact Hrest]. cbn [fst snd] in *. split; [|exact Hy].
        cbn. rewrite Hx. exact Hg.
    + exists (([], x) :: its, tl). split; [|reflexivity].
      split; [|exact Htl]. constructor; [|exact Hits]. split; [reflexivity|exact Hx].
Qed.

Lemma regap_items_then f1 f2 its : forall prev,
  regap_items f2 prev (regap_items f1 prev its) = regap_items (then_rule f1 f2) prev its.
Proof.
  induction its as [|[g x] rest IH]; intros prev; [reflexivity|].
  cbn [regap_items]. rewrite IH. reflexivity.
Qed.

Lemma last_neighbour_regap f its : forall prev,
  last_neighbour prev (regap_items f prev its) = last_neighbour prev its.
Proof.
  induction its as [|[g x] rest IH]; intros prev; [reflexivity|].
  cbn [regap_items last_neighbour]. apply IH.
Qed.

Lemma regap_then f1 f2 w : regap f2 (regap f1 w) = regap (then_rule f1 f2) w.
Proof.
  unfold regap. cbn [fst snd]. rewrite regap_items_then, last_neighbour_regap. reflexivity.
Qed.

Lemma regap_well_gapped f w : keeps_spaces f -> well_gapped w -> well_gapped (regap f w).
Proof.
  intros Hf [Hits Htl]. destruct w as [its tl]. cbn [fst snd] in *. split; cbn [regap fst snd].
  - generalize Edge. induction Hits as [|[g x] rest [Hg Hx] Hrest IH]; intros prev;
      cbn [regap_items]; constructor.
    + cbn [fst snd] in *. split; [apply Hf, Hg|exact Hx].
    + apply IH.
  - apply Hf, Htl.
Qed.

Lemma keeps_spaces_then f1 f2 : keeps_spaces f1 -> keeps_spaces f2 -> keeps_spaces (then_rule f1 f2).
Proof. intros H1 H2 prev g next Hg. apply H2, H1, Hg. Qed.

Lemma keeps_spaces_pad c l r : spaces l = true -> spaces r = true -> keeps_spaces (pad_rule c l r).
Proof.
  intros Hl Hr prev g next Hg. unfold pad_rule. rewrite !spaces_app.
  destruct (neighbour_eqb prev c), (neighbour_eqb next c); cbn [orb]; rewrite ?Hl, ?Hr, ?Hg;
    reflexivity.
Qed.

Lemma keeps_spaces_squeeze : keeps_spaces squeeze_rule.
Proof. intros prev [|y g] next Hg; reflexivity. Qed.

Lemma keeps_spaces_trim : keeps_spaces trim_rule.
Proof. intros prev g next Hg. unfold trim_rule. destruct prev, next; auto. Qed.

Lemma keeps_spaces_spacing : keeps_spaces spacing_rule.
Proof.
  unfold spacing_rule.
  repeat first [apply keeps_spaces_then | apply keeps_spaces_pad | apply keeps_spaces_squeeze
               | reflexivity].
Qed.

(** *** The passes rewrite gaps *)

Lemma flat_cons g x rest tl :
  flat ((g, x) :: rest, tl) = g ++ x :: flat (rest, tl).
Proof. unfold flat. cbn [fst snd flat_items]. rewrite <- app_assoc. reflexivity. Qed.

Lemma neighbour_of_not_edge x : neighbour_eqb (neighbour_of x) Edge = false.
Proof. unfold neighbour_of. repeat destruct (Ascii.eqb _ x); reflexivity. Qed.

Section PadGaps.

Variables (c : ascii) (tc : neighbour) (l r : gostring).
Hypothesis c_not_space : is_space c = false.
Hypothesis tc_of : forall x, neighbour_eqb (neighbour_of x) tc = Ascii.eqb c x.
Hypothesis tc_not_edge : neighbour_eqb Edge tc = false.

Lemma around_go_gap g : forall st s,
  spaces g = true ->
  around_go c (l ++ c :: r) st (g ++ s) =
  around_go c (l ++ c :: r) (match st with AfterMatch => AfterMatch | Pending held => Pending (held ++ g) end) s.
Proof using c_not_space.
  induction g as [|y g IH]; intros st s Hg.
  - destruct st; [reflexivity|]. rewrite app_nil_r. reflexivity.
  - cbn [spaces forallb] in Hg. apply andb_true_iff in Hg as [Hy Hg].
    cbn [app around_go]. destruct (Ascii.eqb_spec c y) as [<-|_];
      [rewrite c_not_space in Hy; discriminate Hy|].
    rewrite Hy. destruct st as [|held].
    + apply (IH AfterMatch s Hg).
    + rewrite (IH (Pending (held ++ [y])) s Hg), <- app_assoc. reflexivity.
Qed.

Lemma around_go_gapped its : forall prev tl,
  well_gapped (its, tl) ->
  lead_for tc r prev ++ around_go c (l ++ c :: r) (state_for tc prev) (flat (its, tl)) =
  flat (regap_items (pad_rule tc l r) prev its,
        pad_rule tc l r (last_neighbour prev its) tl Edge).
Proof using All.
  induction its as [|[g x] rest IH]; intros prev tl [Hits Htl]; cbn [fst snd] in *.
  - unfold flat. cbn [fst snd flat_items regap_items last_neighbour app].
    rewrite <- (app_nil_r tl) at 1. rewrite around_go_gap by exact Htl.
    unfold pad_rule, lead_for, state_for. rewrite tc_not_edge.
    destruct (neighbour_eqb prev tc); cbn [orb around_go flush app];
      rewrite ?app_nil_r; reflexivity.
  - inversion Hits as [|? ? [Hg Hx] Hrest]; subst. cbn [fst snd] in *.
    rewrite flat_cons. cbn [regap_items last_neighbour]. rewrite flat_cons.
    rewrite around_go_gap by exact Hg.
    specialize (IH (neighbour_of x) tl (conj Hrest Htl)).
    unfold pad_rule at 1. rewrite tc_of. unfold state_for, lead_for in *.
    rewrite tc_of in IH. cbn [around_go]. rewrite Hx.
    destruct (Ascii.eqb c x) eqn:Hcx.
    + rewrite <- IH. apply Ascii.eqb_eq in Hcx. subst x.
      destruct (neighbour_eqb prev tc); cbn [orb app]; rewrite <- ?app_assoc;
        cbn [app]; rewrite <- ?app_assoc; reflexivity.
    + rewrite <- IH. destruct (neighbour_eqb prev tc); cbn [orb app flush];
        rewrite ?app_nil_r; reflexivity.
Qed.

Lemma pad_gapped w :
  well_gapped w -> pad c (l ++ c :: r) (flat w) = flat (regap (pad_rule tc l r) w).
Proof using All.
  intros Hw. destruct w as [its tl]. unfold pad, regap. cbn [fst snd].
  rewrite <- around_go_gapped by exact Hw.
  unfold lead_for, state_for. rewrite tc_not_edge. reflexivity.
Qed.

End PadGaps.

Lemma collapse_spaces_gap g : forall b,
  spaces g = true ->
  collapse_run is_space (str " ") b g = if b then [] else squeeze g.
Proof.
  induction g as [|y g IH]; intros b Hg; [destruct b; reflexivity|].
  cbn [spaces forallb] in Hg. apply andb_true_iff in Hg as [Hy Hg].
  cbn [collapse_run]. rewrite Hy, (IH true Hg). destruct b; reflexivity.
Qed.

Lemma collapse_spaces_gapped w :
  well_gapped w -> collapse_spaces (flat w) = flat (regap squeeze_rule w).
Proof.
  destruct w as [its tl]. unfold regap, collapse_spaces. cbn [fst snd].
  generalize Edge. induction its as [|[g x] rest IH]; intros prev [Hits Htl]; cbn [fst snd] in *.
  - unfold flat. cbn [fst snd flat_items regap_items last_neighbour app].
    apply (collapse_spaces_gap tl false Htl).
  - inversion Hits as [|? ? [Hg Hx] Hrest]; subst. cbn [fst snd] in *.
    rewrite flat_cons. cbn [regap_items last_neighbour]. rewrite flat_cons.
    rewrite collapse_run_split by exact Hx.
    rewrite (collapse_spaces_gap g false Hg). unfold squeeze_rule at 1.
    rewrite (IH (neighbour_of x)) by (split; assumption). reflexivity.
Qed.

(** *** [TrimSpace] on a gapped string whose first and last characters are
    not trimmed *)

Lemma regap_items_id_trim its : forall prev,
  neighbour_eqb prev Edge = false ->
  regap_items trim_rule prev its = its.
Proof.
  induction its as [|[g x] rest IH]; intros prev Hprev; [reflexivity|].
  cbn [regap_items]. rewrite IH by apply (neighbour_of_not_edge x).
  unfold trim_rule. pose proof (neighbour_of_not_edge x) as Hn.
  destruct prev; try discriminate Hprev; destruct (neighbour_of x); try discriminate Hn;
    reflexivity.
Qed.

Lemma spaces_trim g : spaces g = true -> forallb is_trim_space g = true.
Proof.
  unfold spaces. rewrite !forallb_forall. intros H x Hx.
  apply is_space_trim_space, H, Hx.
Qed.

Lemma flat_items_last its x0 :
  its <> [] -> exists u, flat_items its = u ++ [List.last (map snd its) x0].
Proof.
  induction its as [|[g x] rest IH]; intros Hne; [contradiction|].
  destruct rest as [|[g' x'] rest'].
  - exists g. reflexivity.
  - destruct IH as [u Hu]; [discriminate|].
    exists (g ++ x :: u). cbn [flat_items] in *. rewrite Hu.
    rewrite <- app_assoc. reflexivity.
Qed.

Lemma TrimSpace_gapped w :
  well_gapped w -> outer_ok (fst w) -> TrimSpace (flat w) = flat (regap trim_rule w).
Proof.
  destruct w as [its tl]. intros [Hits Htl] Hok. cbn [fst snd] in *.
  unfold regap. cbn [fst snd].
  assert (Htail : forall p, trim_rule p tl Edge = []) by (intros []; reflexivity).
  rewrite Htail. destruct its as [|[g0 x0] rest].
  - unfold flat, TrimSpace. cbn [fst snd flat_items regap_items app].
    rewrite trim_left_all by (apply spaces_trim, Htl). reflexivity.
  - destruct Hok as [Hx0 Hlast].
    inversion Hits as [|? ? [Hg0 _] _]; subst. cbn [fst snd] in *.
    cbn [regap_items]. rewrite regap_items_id_trim by apply (neighbour_of_not_edge x0).
    change (trim_rule Edge g0 (neighbour_of x0)) with (@nil ascii).
    unfold flat, TrimSpace. cbn [fst snd flat_items]. rewrite app_nil_r, <- app_assoc.
    cbn [app]. rewrite trim_left_app by exact Hx0.
    rewrite trim_left_all by (apply spaces_trim, Hg0). cbn [app].
    assert (Hend : ends_outside is_trim_space (x0 :: flat_items rest)).
    { right. destruct rest as [|[g1 x1] rest'].
      - exists [], x0. split; [reflexivity|exact Hx0].
      - destruct (flat_items_last ((g1, x1) :: rest') x0) as [u' Hu']; [discriminate|].
        exists (x0 :: u'), (List.last (map snd ((g1, x1) :: rest')) x0).
        split; [rewrite Hu'; reflexivity|exact Hlast]. }
    change (x0 :: flat_items rest ++ tl) with ((x0 :: flat_items rest) ++ tl).
    apply trim_right_intro; [exact Hend|apply spaces_trim, Htl].
Qed.

Lemma neighbour_of_eq x : neighbour_eqb (neighbour_of x) SymEq = Ascii.eqb "=" x.
Proof. destruct x as [[] [] [] [] [] [] [] []]; reflexivity. Qed.

Lemma neighbour_of_comma x : neighbour_eqb (neighbour_of x) SymComma = Ascii.eqb "," x.
Proof. destruct x as [[] [] [] [] [] [] [] []]; reflexivity. Qed.

Lemma neighbour_of_open x : neighbour_eqb (neighbour_of x) SymOpen = Ascii.eqb "(" x.
Proof. destruct x as [[] [] [] [] [] [] [] []]; reflexivity. Qed.

Lemma neighbour_of_close x : neighbour_eqb (neighbour_of x) SymClose = Ascii.eqb ")" x.
Proof. destruct x as [[] [] [] [] [] [] [] []]; reflexivity. Qed.

Lemma spacing_gapped w :
  well_gapped w -> spacing (flat w) = flat (regap spacing_rule w).
Proof.
  intros Hw. unfold spacing, spacing_rule. rewrite <- !regap_then.
  set (r1 := pad_rule SymEq (str " ") (str " ")).
  set (r2 := pad_rule SymComma [] (str " ")).
  set (r4 := pad_rule SymOpen (str " ") (str " ")).
  set (r5 := pad_rule SymClose (str " ") (str " ")).
  assert (H1 : well_gapped (regap r1 w))
    by (apply regap_well_gapped; [apply keeps_spaces_pad; reflexivity|exact Hw]).
  assert (H2 : well_gapped (regap r2 (regap r1 w)))
    by (apply regap_well_gapped; [apply keeps_spaces_pad; reflexivity|exact H1]).
  assert (H3 : well_gapped (regap squeeze_rule (regap r2 (regap r1 w))))
    by (apply regap_well_gapped; [apply keeps_spaces_squeeze|exact H2]).
  assert (H4 : well_gapped (regap r4 (regap squeeze_rule (regap r2 (regap r1 w)))))
    by (apply regap_well_gapped; [apply keeps_spaces_pad; reflexivity|exact H3]).
  rewrite <- (pad_gapped ")" SymClose (str " ") (str " "))
    by (try reflexivity; try exact H4; apply neighbour_of_close).
  rewrite <- (pad_gapped "(" SymOpen (str " ") (str " "))
    by (try reflexivity; try exact H3; apply neighbour_of_open).
  rewrite <- collapse_spaces_gapped by exact H2.
  rewrite <- (pad_gapped "," SymComma [] (str " "))
    by (try reflexivity; try exact H1; apply neighbour_of_comma).
  rewrite <- (pad_gapped "=" SymEq (str " ") (str " "))
    by (try reflexivity; try exact Hw; apply neighbour_of_eq).
  reflexivity.
Qed.

(** *** Gapped strings without outer gaps *)

Lemma regap_items_ext f1 f2 its : forall prev,
  neighbour_eqb prev Edge = false ->
  (forall p g n, neighbour_eqb p Edge = false -> neighbour_eqb n Edge = false ->
                 f1 p g n = f2 p g n) ->
  regap_items f1 prev its = regap_items f2 prev its.
Proof.
  induction its as [|[g x] rest IH]; intros prev Hprev Hf; [reflexivity|].
  cbn [regap_items]. rewrite (IH _ (neighbour_of_not_edge x) Hf).
  rewrite (Hf prev g _ Hprev (neighbour_of_not_edge x)). reflexivity.
Qed.

Lemma last_neighbour_not_edge its : forall prev,
  its <> [] -> neighbour_eqb (last_neighbour prev its) Edge = false.
Proof.
  induction its as [|[g x] rest IH]; intros prev Hne; [contradiction|].
  cbn [last_neighbour]. destruct rest as [|gx rest'].
  - apply neighbour_of_not_edge.
  - apply IH. discriminate.
Qed.

(** Two rules that agree on inner gaps and on empty outer gaps rewrite a
    string without outer gaps in the same way. *)
Lemma regap_ext f1 f2 w :
  no_outer_gaps w ->
  (forall p g n, neighbour_eqb p Edge = false -> neighbour_eqb n Edge = false ->
                 f1 p g n = f2 p g n) ->
  (forall n, f1 Edge [] n = f2 Edge [] n) ->
  (forall p, f1 p [] Edge = f2 p [] Edge) ->
  regap f1 w = regap f2 w.
Proof.
  destruct w as [its tl]. intros [Htl Hg0] Hin Hfirst Hlast. cbn [fst snd] in *. subst tl.
  unfold regap. cbn [fst snd]. rewrite Hlast. f_equal.
  destruct its as [|[g0 x0] rest]; [reflexivity|]. subst g0.
  cbn [regap_items]. rewrite Hfirst.
  rewrite (regap_items_ext f1 f2 rest _ (neighbour_of_not_edge x0) Hin). reflexivity.
Qed.

(** The core of idempotence: on gaps, spacing twice is spacing once. *)
Lemma spacing_rule_twice_inner p g n :
  neighbour_eqb p Edge = false -> neighbour_eqb n Edge = false ->
  then_rule spacing_rule (then_rule squeeze_rule (then_rule trim_rule spacing_rule)) p g n
  = spacing_rule p g n.
Proof.
  intros Hp Hn. destruct p; try discriminate Hp; destruct n; try discriminate Hn;
    destruct g; reflexivity.
Qed.

Lemma spacing_rule_twice_first n :
  then_rule spacing_rule (then_rule squeeze_rule (then_rule trim_rule spacing_rule)) Edge [] n
  = spacing_rule Edge [] n.
Proof. destruct n; reflexivity. Qed.

Lemma spacing_rule_twice_last p :
  then_rule spacing_rule (then_rule squeeze_rule (then_rule trim_rule spacing_rule)) p [] Edge
  = spacing_rule p [] Edge.
Proof. destruct p; reflexivity. Qed.

Lemma map_snd_regap_items f its : forall prev,
  map snd (regap_items f prev its) = map snd its.
Proof.
  induction its as [|[g x] rest IH]; intros prev; [reflexivity|].
  cbn [regap_items map snd]. rewrite IH. reflexivity.
Qed.

Lemma outer_ok_regap f w : outer_ok (fst w) -> outer_ok (fst (regap f w)).
Proof.
  destruct w as [[|[g0 x0] rest] tl]; [intros _; exact I|].
  unfold regap. cbn [fst snd regap_items outer_ok].
  intros [H0 Hl]. split; [exact H0|].
  cbn [map snd] in *. rewrite map_snd_regap_items. exact Hl.
Qed.

Lemma spacing_twice_gapped w :
  well_gapped w -> no_outer_gaps w -> outer_ok (fst w) ->
  spacing (TrimSpace (collapse_spaces (spacing (flat w)))) = spacing (flat w).
Proof.
  intros Hw Hno Hok.
  assert (H1 : well_gapped (regap spacing_rule w))
    by (apply regap_well_gapped; [apply keeps_spaces_spacing|exact Hw]).
  assert (H2 : well_gapped (regap squeeze_rule (regap spacing_rule w)))
    by (apply regap_well_gapped; [apply keeps_spaces_squeeze|exact H1]).
  assert (H3 : well_gapped (regap trim_rule (regap squeeze_rule (regap spacing_rule w))))
    by (apply regap_well_gapped; [apply keeps_spaces_trim|exact H2]).
  rewrite (spacing_gapped w Hw).
  rewrite (collapse_spaces_gapped _ H1).
  rewrite (TrimSpace_gapped _ H2) by (apply outer_ok_regap, outer_ok_regap, Hok).
  rewrite (spacing_gapped _ H3).
  rewrite !regap_then. f_equal.
  apply regap_ext; [exact Hno| | |].
  - apply spacing_rule_twice_inner.
  - apply spacing_rule_twice_first.
  - apply spacing_rule_twice_last.
Qed.

Lemma TrimSpace_starts s :
  TrimSpace s = [] \/ exists c t, TrimSpace s = c :: t /\ is_trim_space c = false.
Proof.
  destruct (trim_left_cases (TrimSpace s)) as [H|[c [t [H Hc]]]];
    rewrite trim_left_TrimSpace in H.
  - left. exact H.
  - right. exists c, t. split; assumption.
Qed.

Lemma TrimSpace_ends s : ends_outside is_trim_space (TrimSpace s).
Proof.
  unfold TrimSpace. destruct (trim_right_spec (trim_left s)) as [sp [_ [_ H]]]. exact H.
Qed.

(** The output of [TrimSpace], read as a gapped string. *)
Lemma TrimSpace_as_gapped s :
  exists w, well_gapped w /\ no_outer_gaps w /\ outer_ok (fst w) /\ TrimSpace s = flat w.
Proof.
  destruct (gapped_exists (TrimSpace s)) as [[its tl] [Hw Hflat]].
  pose proof Hw as [Hits Htl]. cbn [fst snd] in Hits, Htl.
  unfold flat in Hflat. cbn [fst snd] in Hflat.
  assert (Htl0 : tl = []).
  { destruct (TrimSpace_ends s) as [H0|[u [y [Hu Hy]]]].
    - rewrite H0 in Hflat. symmetry in Hflat. apply app_eq_nil in Hflat. tauto.
    - destruct tl as [|e0 tl0] using rev_ind; [reflexivity|]. exfalso.
      rewrite Hu, app_assoc in Hflat. apply app_inj_tail in Hflat as [_ ->].
      unfold spaces in Htl. rewrite forallb_app in Htl. cbn in Htl.
      rewrite andb_true_r in Htl. apply andb_true_iff in Htl as [_ He].
      apply is_space_trim_space in He. congruence. }
  subst tl. rewrite app_nil_r in Hflat.
  exists (its, []). split; [exact Hw|]. unfold no_outer_gaps, flat. cbn [fst snd].
  rewrite app_nil_r. split; [|split; [|exact Hflat]].
  - split; [reflexivity|]. destruct its as [|[g0 x0] rest]; [exact I|].
    destruct g0 as [|y g0]; [reflexivity|]. exfalso.
    inversion Hits as [|? ? [Hg0 _] _]; subst. cbn in Hg0.
    apply andb_true_iff in Hg0 as [Hy _]. apply is_space_trim_space in Hy.
    destruct (TrimSpace_starts s) as [H0|[c [t [Hc Hts]]]]; rewrite Hflat in *.
    + discriminate H0.
    + cbn in Hc. injection Hc as <- _. congruence.
  - destruct its as [|[g0 x0] rest]; [exact I|]. cbn [outer_ok]. split.
    + destruct (TrimSpace_starts s) as [H0|[c [t [Hc Hts]]]]; rewrite Hflat in *.
      * cbn in H0. destruct g0; discriminate H0.
      * destruct g0 as [|y g0].
        -- cbn in Hc. injection Hc as <- _. exact Hts.
        -- exfalso. inversion Hits as [|? ? [Hg0 _] _]; subst. cbn in Hg0.
           apply andb_true_iff in Hg0 as [Hy _]. apply is_space_trim_space in Hy.
           cbn in Hc. injection Hc as <- _. congruence.
    + destruct (flat_items_last ((g0, x0) :: rest) x0) as [u' Hu']; [discriminate|].
      destruct (TrimSpace_ends s) as [H0|[u [y [Hu Hy]]]]; rewrite Hflat in *.
      * rewrite Hu' in H0. destruct u'; discriminate H0.
      * rewrite Hu' in Hu. apply app_inj_tail in Hu as [_ ->]. exact Hy.
Qed.

(** Spacing is stable: after collapsing and trimming its output, it gives
    the same output again. *)
Theorem spacing_stable s :
  spacing (TrimSpace (collapse_spaces (spacing (TrimSpace s)))) = spacing (TrimSpace s).
Proof.
  destruct (TrimSpace_as_gapped s) as [w [Hw [Hno [Hok ->]]]].
  apply spacing_twice_gapped; assumption.
Qed.

(** ** Masked strings *)

Lemma occ_app q a b : occ q (a ++ b) = occ q a + occ q b.
Proof. induction a as [|x a IH]; cbn [app occ]; [reflexivity|]. rewrite IH. lia. Qed.

Lemma occ_rev q s : occ q (rev s) = occ q s.
Proof.
  induction s as [|x s IH]; [reflexivity|]. cbn [rev occ].
  rewrite occ_app, IH. cbn [occ]. lia.
Qed.

Lemma occ_free q s : occ q s = 0 <-> free_of q s = true.
Proof.
  unfold free_of. induction s as [|x s IH]; [cbn; tauto|].
  rewrite none_in_cons. cbn [occ]. destruct (Ascii.eqb q x); cbn [negb andb].
  - split; [lia|discriminate].
  - exact IH.
Qed.

Lemma replace_from_occ r repl q : occ q repl = 0 ->
  forall s skip, occ q (replace_from r repl skip s) <= occ q s.
Proof.
  intros Hrep. induction s as [|x t IH]; intros skip; [reflexivity|].
  cbn [replace_from occ]. destruct skip as [|j].
  - destruct (match_len r (x :: t)) as [[|n]|].
    + cbn [occ]. specialize (IH 0). lia.
    + rewrite occ_app, Hrep. specialize (IH n). lia.
    + cbn [occ]. specialize (IH 0). lia.
  - specialize (IH j). lia.
Qed.

Lemma pad_occ c rep q s :
  is_space c = false -> occ q rep = 0 -> occ q (pad c rep s) <= occ q s.
Proof.
  intros Hc Hrep. unfold pad. rewrite <- ReplaceAllString_around by exact Hc.
  apply replace_from_occ, Hrep.
Qed.

Lemma collapse_occ p rep q s :
  occ q rep = 0 -> occ q (collapse_run p rep false s) <= occ q s.
Proof.
  intros Hrep. rewrite <- ReplaceAllString_collapse. apply replace_from_occ, Hrep.
Qed.

Lemma mask_quoted_occ q' q s :
  occ q (str "S") = 0 -> occ q (mask_quoted q' s) <= occ q s.
Proof.
  intros Hrep. unfold mask_quoted. rewrite <- ReplaceAllString_quoted.
  apply replace_from_occ, Hrep.
Qed.

Lemma trim_left_occ q s : occ q (trim_left s) <= occ q s.
Proof.
  induction s as [|x s IH]; [reflexivity|]. cbn [trim_left].
  destruct (is_trim_space x); [cbn [occ]; lia|reflexivity].
Qed.

Lemma TrimSpace_occ q s : occ q (TrimSpace s) <= occ q s.
Proof.
  unfold TrimSpace, trim_right. rewrite occ_rev.
  etransitivity; [apply trim_left_occ|]. rewrite occ_rev. apply trim_left_occ.
Qed.

Lemma ToLower_occ q s : is_quote q = true -> occ q (ToLower s) = occ q s.
Proof.
  intros Hq. unfold ToLower. induction s as [|x s IH]; [reflexivity|].
  cbn [map occ]. rewrite IH. f_equal.
  unfold is_quote in Hq. apply orb_true_iff in Hq as [H|H]; apply Ascii.eqb_eq in H; subst q;
    destruct x as [[] [] [] [] [] [] [] []]; reflexivity.
Qed.

Lemma quoted_go_occ q rep s : forall inside,
  occ q rep = 0 ->
  match inside with Some body => occ q body = 0 | None => True end ->
  occ q (quoted_go q rep inside s) <= 1.
Proof.
  intros inside Hrep. revert inside. induction s as [|x s IH]; intros inside Hin.
  - destruct inside as [body|]; cbn [quoted_go occ]; [|lia].
    rewrite Ascii.eqb_refl, Hin. lia.
  - cbn [quoted_go]. destruct inside as [body|]; destruct (Ascii.eqb q x) eqn:Hx.
    + rewrite occ_app, Hrep. apply (IH None I).
    + apply (IH (Some (body ++ [x]))). rewrite occ_app, Hin. cbn [occ]. rewrite Hx. reflexivity.
    + apply (IH (Some [])). reflexivity.
    + cbn [occ]. rewrite Hx. apply (IH None I).
Qed.

Lemma mask_quoted_id q s : occ q s <= 1 -> mask_quoted q s = s.
Proof.
  intros Hs. unfold mask_quoted.
  destruct (first_quote q s) as [Hfree|[a [b [-> Ha]]]].
  - apply quoted_go_free_id, Hfree.
  - rewrite occ_app in Hs. cbn [occ] in Hs. rewrite Ascii.eqb_refl in Hs.
    assert (Hb : free_of q b = true) by (apply occ_free; lia).
    rewrite quoted_go_free by exact Ha. rewrite quoted_go_open by exact Hb. reflexivity.
Qed.

Lemma mask_digits_none b s : none_in is_digit (collapse_run is_digit (str "N") b s) = true.
Proof.
  revert b. induction s as [|x s IH]; intros b; [reflexivity|].
  cbn [collapse_run]. destruct (is_digit x) eqn:Hx.
  - rewrite none_in_app, IH. destruct b; reflexivity.
  - rewrite none_in_cons, Hx, IH. reflexivity.
Qed.

Lemma mask_digits_id s : none_in is_digit s = true -> mask_digits s = s.
Proof. apply collapse_run_free. Qed.

Lemma masked_mask s : masked (mask s).
Proof.
  unfold masked, mask. split; [apply mask_digits_none|]. split.
  - etransitivity; [apply collapse_occ; reflexivity|].
    etransitivity; [apply mask_quoted_occ; reflexivity|].
    apply quoted_go_occ; [reflexivity|exact I].
  - etransitivity; [apply collapse_occ; reflexivity|].
    apply quoted_go_occ; [reflexivity|exact I].
Qed.

Lemma mask_id s : masked s -> mask s = s.
Proof.
  intros [Hd [H1 H2]]. unfold mask.
  rewrite (mask_quoted_id "'" s H1), (mask_quoted_id "034" s H2).
  apply mask_digits_id, Hd.
Qed.

Lemma none_in_TrimSpace p s : none_in p s = true -> none_in p (TrimSpace s) = true.
Proof.
  rewrite !none_in_spec. intros H x Hx. apply H, TrimSpace_In, Hx.
Qed.

Lemma masked_TrimSpace s : masked s -> masked (TrimSpace s).
Proof.
  intros [Hd [H1 H2]]. split; [apply none_in_TrimSpace, Hd|].
  split; (etransitivity; [apply TrimSpace_occ|assumption]).
Qed.

Lemma masked_collapse_spaces s : masked s -> masked (collapse_spaces s).
Proof.
  intros [Hd [H1 H2]]. unfold collapse_spaces. split.
  - apply none_in_collapse; [reflexivity|exact Hd].
  - split; (etransitivity; [apply collapse_occ; reflexivity|assumption]).
Qed.

Lemma masked_pad c rep s :
  is_space c = false -> none_in is_digit rep = true ->
  occ "'" rep = 0 -> occ "034" rep = 0 ->
  masked s -> masked (pad c rep s).
Proof.
  intros Hc Hrd Hr1 Hr2 [Hd [H1 H2]]. split.
  - apply none_in_pad; assumption.
  - split; (etransitivity; [apply pad_occ; assumption|assumption]).
Qed.

Lemma masked_spacing s : masked s -> masked (spacing s).
Proof.
  intros H. unfold spacing.
  repeat first [apply masked_pad; try reflexivity | apply masked_collapse_spaces].
  exact H.
Qed.

Lemma is_digit_lower x : is_digit (lower x) = is_digit x.
Proof. destruct x as [[] [] [] [] [] [] [] []]; reflexivity. Qed.

Lemma masked_ToLower s : masked s -> masked (ToLower s).
Proof.
  intros [Hd [H1 H2]]. split; [|rewrite !ToLower_occ by reflexivity; split; assumption].
  unfold ToLower. rewrite none_in_spec in *. intros x Hx.
  apply in_map_iff in Hx as [x0 [<- Hx0]]. rewrite is_digit_lower. apply Hd, Hx0.
Qed.

(** ** A second pass only lower-cases the tokens *)

Theorem normalizeQuery_twice x :
  normalizeQuery (normalizeQuery x) = ToLower (normalizeQuery x).
Proof.
  rewrite (normalizeQuery_normal_form (normalizeQuery x)).
  rewrite (normalizeQuery_normal_form x).
  set (w := TrimSpace (collapse_spaces (mask (ToLower x)))).
  assert (Hw : masked (spacing w)).
  { apply masked_spacing, masked_TrimSpace, masked_collapse_spaces, masked_mask. }
  rewrite mask_id by apply masked_ToLower, Hw.
  rewrite collapse_spaces_lower, TrimSpace_lower, spacing_lower.
  f_equal. apply spacing_stable.
Qed.

(** ** Runs of a class *)

Section ClassRun.

Variables (p : ascii -> bool) (rep : gostring).

Lemma collapse_run_class d : forall b s,
  forallb p d = true -> nonempty d = true ->
  collapse_run p rep b (d ++ s) = (if b then [] else rep) ++ collapse_run p rep true s.
Proof.
  induction d as [|x d IH]; intros b s Hd Hne; [discriminate Hne|].
  cbn [forallb] in Hd. apply andb_true_iff in Hd as [Hx Hd].
  cbn [app collapse_run]. rewrite Hx. f_equal.
  destruct d as [|y d]; [reflexivity|].
  rewrite (IH true s Hd eq_refl). reflexivity.
Qed.

End ClassRun.

(** *** Characters *)

Lemma is_quote_lower c : is_quote (lower c) = is_quote c.
Proof. destruct c as [[] [] [] [] [] [] [] []]; reflexivity. Qed.

Lemma lower_quote q : is_quote q = true -> lower q = q.
Proof. destruct q as [[] [] [] [] [] [] [] []]; vm_compute; congruence. Qed.

Lemma eqb_quote_lower q x : is_quote q = true -> Ascii.eqb q (lower x) = Ascii.eqb q x.
Proof.
  unfold is_quote. intros H. apply orb_true_iff in H as [H|H]; apply Ascii.eqb_eq in H; subst q;
    destruct x as [[] [] [] [] [] [] [] []]; reflexivity.
Qed.

Lemma is_blank_lower c : is_blank (lower c) = is_blank c.
Proof. destruct c as [[] [] [] [] [] [] [] []]; reflexivity. Qed.

Lemma is_blank_space c : is_blank c = true -> is_space c = true.
Proof. destruct c as [[] [] [] [] [] [] [] []]; vm_compute; congruence. Qed.

Lemma is_blank_not_quote q c : is_quote q = true -> is_blank c = true -> Ascii.eqb q c = false.
Proof.
  unfold is_quote. intros H. apply orb_true_iff in H as [H|H]; apply Ascii.eqb_eq in H; subst q;
    destruct c as [[] [] [] [] [] [] [] []]; vm_compute; congruence.
Qed.

Lemma is_digit_not_quote q c : is_quote q = true -> is_digit c = true -> Ascii.eqb q c = false.
Proof.
  unfold is_quote. intros H. apply orb_true_iff in H as [H|H]; apply Ascii.eqb_eq in H; subst q;
    destruct c as [[] [] [] [] [] [] [] []]; vm_compute; congruence.
Qed.

Lemma free_of_lower q s : is_quote q = true -> free_of q (map lower s) = free_of q s.
Proof.
  intros Hq. unfold free_of. induction s as [|x s IH]; [reflexivity|].
  cbn [map]. rewrite !none_in_cons, IH, eqb_quote_lower by exact Hq. reflexivity.
Qed.

Lemma free_of_class q p s :
  (forall c, p c = true -> Ascii.eqb q c = false) -> forallb p s = true -> free_of q s = true.
Proof.
  intros Hp Hs. apply none_in_spec. intros x Hx. rewrite forallb_forall in Hs. auto.
Qed.

Lemma forallb_map_lower p s :
  (forall c, p (lower c) = p c) -> forallb p (map lower s) = forallb p s.
Proof.
  intros Hp. induction s as [|x s IH]; [reflexivity|]. cbn. rewrite Hp, IH. reflexivity.
Qed.

Lemma nonempty_map (f : ascii -> ascii) s : nonempty (map f s) = nonempty s.
Proof. destruct s; reflexivity. Qed.

Lemma free_of_snoc q s x : free_of q (s ++ [x]) = free_of q s && negb (Ascii.eqb q x).
Proof. unfold free_of. rewrite none_in_app. cbn. rewrite andb_true_r. reflexivity. Qed.

Lemma free_of_char q x : free_of q [x] = negb (Ascii.eqb q x).
Proof. unfold free_of. cbn. apply andb_true_r. Qed.

Lemma not_quote_lower q c :
  is_quote q = true -> is_quote c = false -> Ascii.eqb q (lower c) = false.
Proof.
  intros Hq Hc. rewrite eqb_quote_lower by exact Hq.
  destruct (Ascii.eqb_spec q c) as [<-|]; [congruence|reflexivity].
Qed.

(** ** Idempotence *)

(** C4, as stated, fails: the token N of an output is lower-cased by a
    second pass. *)
Lemma C4_counterexample :
  normalizeQuery (normalizeQuery (str "id = 1")) <> normalizeQuery (str "id = 1").
Proof. vm_compute. discriminate. Qed.

Lemma ToLower_id s :
  (forall c, In c s -> is_upper c = false) -> ToLower s = s.
Proof.
  unfold ToLower. induction s as [|x s IH]; intros H; [reflexivity|].
  cbn [map]. rewrite IH by (intros c Hc; apply H; right; exact Hc).
  unfold lower. rewrite (H x) by (left; reflexivity). reflexivity.
Qed.

Lemma normalizeQuery_upper x c :
  In c (normalizeQuery x) -> is_upper c = true -> is_token_letter c = true.
Proof.
  intros Hc Hup. unfold normalizeQuery in Hc. cbv zeta in Hc.
  apply replacements_chars in Hc as [Hc|[r [Hr Hc]]].
  - exfalso. unfold ToLower in Hc. apply in_map_iff in Hc as [c0 [<- Hc0]].
    revert Hup. destruct c0 as [[] [] [] [] [] [] [] []]; vm_compute; discriminate.
  - cbn in Hr.
    repeat (destruct Hr as [<-|Hr];
            [cbn in Hc; repeat (destruct Hc as [<-|Hc]; [try discriminate Hup; reflexivity|]);
             contradiction|]).
    contradiction.
Qed.

(** C4, amended: a second pass of [normalizeQuery] changes nothing but the
    case of the tokens N and S; an output without these tokens is a fixed
    point. *)
Theorem C4_second_pass_lowers_tokens (x : gostring) :
  ascii_text x ->
  normalizeQuery (normalizeQuery x) = ToLower (normalizeQuery x)
  /\ ((forall c, In c (normalizeQuery x) -> is_token_letter c = false) ->
      normalizeQuery (normalizeQuery x) = normalizeQuery x).
Proof.
  intros _. split; [apply normalizeQuery_twice|].
  intros Hfree. rewrite normalizeQuery_twice. apply ToLower_id.
  intros c Hc. destruct (is_upper c) eqn:Hup; [|reflexivity].
  pose proof (normalizeQuery_upper x c Hc Hup) as Ht.
  rewrite (Hfree c Hc) in Ht. discriminate Ht.
Qed.

Lemma C4_witness :
  normalizeQuery (normalizeQuery (str "WHERE id = 42"))
  = ToLower (normalizeQuery (str "WHERE id = 42")).
Proof.
  assert (Hx : ascii_text (str "WHERE id = 42")) by (unfold ascii_text; repeat constructor).
  exact (proj1 (C4_second_pass_lowers_tokens (str "WHERE id = 42") Hx)).
Defined.

(** ** [strings.Split] and [parseFlags] *)

Lemma split_from_nonempty sep s piece : split_from sep piece s <> [].
Proof.
  revert piece. induction s as [|c t IH]; intros piece; cbn [split_from]; [discriminate|].
  destruct (Ascii.eqb c sep); [discriminate|apply IH].
Qed.

Lemma Join_cons e rest sep :
  rest <> [] -> Join (e :: rest) sep = e ++ sep ++ Join rest sep.
Proof. destruct rest; [congruence|reflexivity]. Qed.

Lemma split_from_Join sep s : forall piece,
  Join (split_from sep piece s) [sep] = piece ++ s.
Proof.
  induction s as [|c t IH]; intros piece; cbn [split_from].
  - cbn. rewrite app_nil_r. reflexivity.
  - destruct (Ascii.eqb c sep) eqn:E.
    + apply Ascii.eqb_eq in E. subst c.
      rewrite Join_cons by apply split_from_nonempty. rewrite IH. reflexivity.
    + rewrite IH, <- app_assoc. reflexivity.
Qed.

Lemma split_from_pieces sep s : forall piece e,
  ~ In sep piece -> In e (split_from sep piece s) -> ~ In sep e.
Proof.
  induction s as [|c t IH]; intros piece e Hp; cbn [split_from].
  - intros [<-|[]]. exact Hp.
  - destruct (Ascii.eqb c sep) eqn:E.
    + intros [<-|H]; [exact Hp|]. apply (IH [] e); [intros []|exact H].
    + apply IH. rewrite in_app_iff. intros [H|[H|[]]]; [exact (Hp H)|].
      subst c. rewrite Ascii.eqb_refl in E. discriminate E.
Qed.

Lemma length_split_from sep s : forall piece,
  length (split_from sep piece s) = S (occ sep s).
Proof.
  induction s as [|c t IH]; intros piece; cbn [split_from occ]; [reflexivity|].
  rewrite (Ascii.eqb_sym sep c).
  destruct (Ascii.eqb c sep); cbn [length]; rewrite IH; reflexivity.
Qed.

(** X1: the folders to ignore are the pieces of the value of [-ignore]
    (by default "vendor,node_modules") between its commas: there is one more
    piece than there are commas, so that the list is never empty; no piece
    contains a comma; and the pieces joined by commas give the value back:
    nothing is trimmed or dropped. *)
Theorem X1_ignore_folders_split (given : Flags) (numCPU : Z) :
  let value := default (str "vendor,node_modules") (flag_ignore given) in
  let folders := IgnoreFolders (parseFlags given numCPU) in
  length folders = S (occ "," value)
  /\ (forall folder, In folder folders -> ~ In ","%char folder)
  /\ Join folders (str ",") = value.
Proof.
  cbn [parseFlags IgnoreFolders]. unfold Split.
  split; [apply length_split_from|]. split.
  - intros folder. apply split_from_pieces. intros [].
  - apply (split_from_Join "," _ []).
Qed.

(** ** [findFiles] *)

Lemma fsnode_ind (P : fsnode -> Prop) :
  (forall name, P (File name)) ->
  (forall name entries, Forall P entries -> P (Dir name entries)) ->
  (forall name e, P (Unreadable name e)) ->
  (forall name e, P (Broken name e)) ->
  forall node, P node.
Proof.
  intros HF HD HU HB. fix IH 1. intros [name|name entries|name e|name e].
  - apply HF.
  - apply HD. induction entries as [|entry rest IHrest]; constructor.
    + apply IH.
    + exact IHrest.
  - apply HU.
  - apply HB.
Qed.

Section WalkProperties.

Variable join : gostring -> gostring -> gostring.
Variable config : Config.

Lemma walk_Dir path name entries files :
  walk join config path (Dir name entries) files =
  if ignored config name then (SkipDir, files)
  else walk_entries join config path entries files.
Proof.
  cbn [walk walkFn]. destruct (ignored config name); [reflexivity|].
  revert files. induction entries as [|entry rest IH]; intros files; [reflexivity|].
  cbn [walk_entries]. destruct entry as [name0|name0 entries0|name0 e0|name0 e0].
  - destruct (walk join config (join path (node_name (File name0))) (File name0) files)
      as [[| |e] files1]; rewrite ?IH; reflexivity.
  - destruct (walk join config (join path (node_name (Dir name0 entries0)))
                (Dir name0 entries0) files) as [[| |e] files1]; rewrite ?IH; reflexivity.
  - destruct (walk join config (join path (node_name (Unreadable name0 e0)))
                (Unreadable name0 e0) files) as [[| |e] files1]; rewrite ?IH; reflexivity.
  - reflexivity.
Qed.

Lemma walk_entries_cons path entry rest files :
  walk_entries join config path (entry :: rest) files =
  match walk join config (join path (node_name entry)) entry files with
  | (Continue, files) => walk_entries join config path rest files
  | (SkipDir, files) =>
      if is_dir entry then walk_entries join config path rest files else (SkipDir, files)
  | (Abort e, files) => (Abort e, files)
  end.
Proof. destruct entry; reflexivity. Qed.

Lemma visit_spec_iff lists fails lists' fails' files out :
  (forall p, lists p <-> lists' p) -> (forall e, fails e <-> fails' e) ->
  visit_spec config lists fails files out -> visit_spec config lists' fails' files out.
Proof.
  intros Hl Hf (new & Hout & Hsound & Hrest). exists new. split; [exact Hout|]. split.
  - intros p Hp. destruct (Hsound p Hp) as [H1 H2]. split; [apply Hl, H1|exact H2].
  - destruct out.1 as [| |e].
    + destruct Hrest as [Hc Hn]. split.
      * intros p Hp. apply Hc, Hl, Hp.
      * intros e He. apply (Hn e), Hf, He.
    + destruct Hrest as [Hc Hn]. split.
      * intros p Hp. apply Hc, Hl, Hp.
      * intros e He. apply (Hn e), Hf, He.
    + apply Hf, Hrest.
Qed.

Lemma visit_spec_nothing (lists fails : gostring -> Prop) files v :
  (forall p, ~ lists p) ->
  match v with Abort e => fails e | _ => forall e, ~ fails e end ->
  visit_spec config lists fails files (v, files).
Proof.
  intros Hl Hv. exists []. split; [symmetry; apply app_nil_r|]. split; [intros p []|].
  cbn [fst]. destruct v; [split| |]; try exact Hv; try (split; [|exact Hv]).
  all: intros p Hp; contradiction (Hl p Hp).
Qed.

(** A visit that ends without error, followed by another one. *)
Lemma visit_spec_then lists1 fails1 lists2 fails2 files v1 out1 out2 :
  visit_spec config lists1 fails1 files (v1, out1) ->
  (forall e, v1 <> Abort e) ->
  visit_spec config lists2 fails2 out1 out2 ->
  visit_spec config (fun p => lists1 p \/ lists2 p) (fun e => fails1 e \/ fails2 e)
             files out2.
Proof.
  intros (new1 & Hout1 & Hsound1 & Hrest1) Hv1 (new2 & Hout2 & Hsound2 & Hrest2).
  cbn [fst snd] in *. subst out1.
  assert (H1 : (forall p, lists1 p -> HasSuffix p (FileType config) = true -> In p new1)
               /\ forall e, ~ fails1 e).
  { destruct v1 as [| |e]; [exact Hrest1|exact Hrest1|contradiction (Hv1 e eq_refl)]. }
  destruct H1 as [Hc1 Hn1].
  exists (new1 ++ new2). split; [rewrite Hout2, app_assoc; reflexivity|]. split.
  - intros p Hp. apply in_app_or in Hp. destruct Hp as [Hp|Hp].
    + destruct (Hsound1 p Hp) as [H1 H2]. split; [left; exact H1|exact H2].
    + destruct (Hsound2 p Hp) as [H1 H2]. split; [right; exact H1|exact H2].
  - assert (Hboth : (forall p, lists2 p -> HasSuffix p (FileType config) = true -> In p new2)
                    /\ (forall e, ~ fails2 e) ->
                    (forall p, lists1 p \/ lists2 p ->
                               HasSuffix p (FileType config) = true -> In p (new1 ++ new2))
                    /\ forall e, ~ (fails1 e \/ fails2 e)).
    { intros [Hc2 Hn2]. split.
      - intros p [Hp|Hp] Hs; apply in_or_app; [left; apply Hc1|right; apply Hc2]; assumption.
      - intros e [He|He]; [exact (Hn1 e He)|exact (Hn2 e He)]. }
    destruct out2.1 as [| |e]; [apply Hboth, Hrest2|apply Hboth, Hrest2|right; exact Hrest2].
Qed.

(** A visit that stops at an error. *)
Lemma visit_spec_abort (lists1 fails1 lists2 fails2 : gostring -> Prop) files e out1 :
  visit_spec config lists1 fails1 files (Abort e, out1) ->
  visit_spec config (fun p => lists1 p \/ lists2 p) (fun e => fails1 e \/ fails2 e) files
             (Abort e, out1).
Proof.
  intros (new1 & Hout1 & Hsound1 & Hrest1). exists new1. split; [exact Hout1|]. split.
  - intros p Hp. destruct (Hsound1 p Hp) as [H1 H2]. split; [left; exact H1|exact H2].
  - left. exact Hrest1.
Qed.

Lemma walk_entries_spec path entries :
  Forall (walk_ok join config) entries ->
  forall files,
    visit_spec config (listed_below join config path entries)
               (failing_below join config path entries) files
               (walk_entries join config path entries files)
    /\ (walk_entries join config path entries files).1 <> SkipDir.
Proof.
  induction 1 as [|entry rest Hentry _ IH]; intros files.
  - split; [|discriminate]. apply visit_spec_nothing.
    + intros p (entry & [] & _).
    + intros e (entry & [] & _).
  - rewrite walk_entries_cons.
    destruct (Hentry (join path (node_name entry)) files) as [Hspec Hskip].
    assert (Hcons : forall out,
      visit_spec config (fun p => listed join config (join path (node_name entry)) entry p
                           \/ listed_below join config path rest p)
                 (fun e => failing join config (join path (node_name entry)) entry e
                           \/ failing_below join config path rest e) files out ->
      visit_spec config (listed_below join config path (entry :: rest))
                 (failing_below join config path (entry :: rest))
                 files out).
    { intros out. apply visit_spec_iff.
      - intros p. split.
        + intros [H|(entry0 & Hin & H)]; [exists entry|exists entry0];
            (split; [|exact H]); [left; reflexivity|right; exact Hin].
        + intros (entry0 & [<-|Hin] & H); [left; exact H|right; exists entry0; split; assumption].
      - intros e. split.
        + intros [H|(entry0 & Hin & H)]; [exists entry|exists entry0];
            (split; [|exact H]); [left; reflexivity|right; exact Hin].
        + intros (entry0 & [<-|Hin] & H); [left; exact H|right; exists entry0; split; assumption]. }
    destruct (walk join config (join path (node_name entry)) entry files) as [v out].
    cbn [fst] in Hskip. destruct (IH out) as [Hrest Hnoskip].
    destruct v as [| |e].
    + split; [|exact Hnoskip]. apply Hcons.
      eapply visit_spec_then; [exact Hspec|discriminate|exact Hrest].
    + rewrite (Hskip eq_refl). split; [|exact Hnoskip]. apply Hcons.
      eapply visit_spec_then; [exact Hspec|discriminate|exact Hrest].
    + split; [|discriminate]. apply Hcons, visit_spec_abort, Hspec.
Qed.

Lemma walk_spec node : walk_ok join config node.
Proof.
  induction node as [name|name entries IH|name e|name e] using fsnode_ind;
    intros path files.
  - split; [|cbn [walk walkFn]; destruct (HasSuffix _ _); discriminate].
    cbn [walk walkFn]. destruct (HasSuffix path (FileType config)) eqn:Hs.
    + exists [path]. split; [reflexivity|]. split.
      * intros p [<-|[]]. split; [constructor|exact Hs].
      * split; [|intros e H; inversion H]. intros p H _. inversion H; subst. left. reflexivity.
    + exists []. split; [symmetry; apply app_nil_r|]. split; [intros p []|].
      split; [|intros e H; inversion H]. intros p H Hp. inversion H; subst.
      rewrite Hs in Hp. discriminate Hp.
  - rewrite walk_Dir. destruct (ignored config name) eqn:Hi.
    + split; [|reflexivity]. apply visit_spec_nothing.
      * intros p H. inversion H; subst. congruence.
      * intros e H. inversion H; subst. congruence.
    + destruct (walk_entries_spec path entries IH files) as [Hspec Hskip].
      split; [|intros H; contradiction (Hskip H)].
      revert Hspec. apply visit_spec_iff.
      * intros p. split.
        -- intros (entry & Hin & H). econstructor; eassumption.
        -- intros H. inversion H; subst. eexists; split; eassumption.
      * intros e. split.
        -- intros (entry & Hin & H). econstructor; eassumption.
        -- intros H. inversion H; subst. eexists; split; eassumption.
  - split; [|discriminate]. apply visit_spec_nothing; [|constructor].
    intros p H. inversion H.
  - split; [|discriminate]. apply visit_spec_nothing; [|constructor].
    intros p H. inversion H.
Qed.

Lemma findFiles_spec node :
  visit_spec config (listed join config (FolderPath config) node)
             (failing join config (FolderPath config) node) []
             (walk join config (FolderPath config) node []).
Proof. apply walk_spec. Qed.

Lemma findFiles_walk node :
  findFiles join config node =
  ((walk join config (FolderPath config) node []).2,
   match (walk join config (FolderPath config) node []).1 with
   | Abort e => Some e
   | _ => None
   end).
Proof.
  unfold findFiles, Walk.
  destruct (walk join config (FolderPath config) node []) as [[| |e] files]; reflexivity.
Qed.

End WalkProperties.

(** X2: every path that [findFiles] returns, with or without an error, is
    the path of a file (not of a directory) of the tree that lies in no ignored
    directory, and ends with the file type. *)
Theorem X2_findFiles_sound join (config : Config) (node : fsnode) (p : gostring) :
  In p (findFiles join config node).1 ->
  listed join config (FolderPath config) node p /\ HasSuffix p (FileType config) = true.
Proof.
  rewrite findFiles_walk. cbn [fst].
  destruct (findFiles_spec join config node) as (new & Hout & Hsound & _).
  rewrite Hout. apply Hsound.
Qed.

(** X3: when [findFiles] returns no error, it returns every file of the tree
    that lies in no ignored directory and whose path ends with the file
    type. *)
Theorem X3_findFiles_complete join (config : Config) (node : fsnode) (p : gostring) :
  (findFiles join config node).2 = None ->
  listed join config (FolderPath config) node p ->
  HasSuffix p (FileType config) = true ->
  In p (findFiles join config node).1.
Proof.
  rewrite findFiles_walk. cbn [fst snd].
  destruct (findFiles_spec join config node) as (new & Hout & _ & Hrest).
  rewrite Hout. intros Herr Hl Hs.
  destruct (walk join config (FolderPath config) node []).1 as [| |e];
    [apply Hrest; assumption|apply Hrest; assumption|discriminate Herr].
Qed.

(** X4: [findFiles] returns an error exactly when some entry outside the
    ignored directories cannot be read (a directory that cannot be listed, even
    one whose own name is ignored, or an entry whose [Lstat] fails); the error
    returned is the error of such an entry. *)
Theorem X4_findFiles_error join (config : Config) (node : fsnode) :
  (forall e, (findFiles join config node).2 = Some e ->
             failing join config (FolderPath config) node e)
  /\ ((findFiles join config node).2 = None <->
      forall e, ~ failing join config (FolderPath config) node e).
Proof.
  rewrite findFiles_walk. cbn [snd].
  destruct (findFiles_spec join config node) as (new & _ & _ & Hrest).
  destruct (walk join config (FolderPath config) node []).1 as [| |e].
  - split; [discriminate|]. split; [intros _; apply Hrest|reflexivity].
  - split; [discriminate|]. split; [intros _; apply Hrest|reflexivity].
  - split; [intros e' [= <-]; exact Hrest|].
    split; [discriminate|]. intros H. contradiction (H e Hrest).
Qed.

(** ** [processFiles] *)

Section PoolProperties.

Variable readFile : gostring -> outcome gostring.
Variable files : list gostring.
Variable config : Config.

Lemma run_cons g schedule st :
  run readFile files config (g :: schedule) st
  = run readFile files config schedule
      (match step readFile files config g st with
       | Some st' => st'
       | None => st
       end).
Proof. unfold run. cbn [fold_left]. destruct (step readFile files config g st); reflexivity. Qed.

Lemma run_app schedule more st :
  run readFile files config (schedule ++ more) st
  = run readFile files config more (run readFile files config schedule st).
Proof. apply fold_left_app. Qed.

(** Replacing the state of one worker. *)
Lemma flat_map_insert {A B} (f : A -> list B) ws : forall k w w',
  ws !! k = Some w ->
  flat_map f (<[k := w']> ws) ++ f w ≡ₚ flat_map f ws ++ f w'.
Proof.
  induction ws as [|w0 ws IH]; intros k w w' Hk; [discriminate Hk|].
  destruct k as [|k]; cbn in Hk |- *.
  - injection Hk as Hk. subst w0.
    rewrite (Permutation_app_comm (f w' ++ flat_map f ws) (f w)).
    rewrite <- (app_assoc (f w)). apply Permutation_app_head, Permutation_app_comm.
  - rewrite <- !app_assoc. apply Permutation_app_head, (IH k w w' Hk).
Qed.

Lemma held_insert ws k w w' :
  ws !! k = Some w ->
  held (<[k := w']> ws) ++ held_by w ≡ₚ held ws ++ held_by w'.
Proof. apply flat_map_insert. Qed.

Lemma list_sum_cons x l : list_sum (x :: l) = x + list_sum l.
Proof. reflexivity. Qed.

Lemma weight_insert ws : forall k w w',
  ws !! k = Some w ->
  list_sum (map worker_weight (<[k := w']> ws)) + worker_weight w
  = list_sum (map worker_weight ws) + worker_weight w'.
Proof.
  induction ws as [|w0 ws IH]; intros k w w' Hk; [discriminate Hk|].
  destruct k as [|k]; cbn [lookup list_lookup] in Hk.
  - injection Hk as Hk. subst w0. change (<[0 := w']> (w :: ws)) with (w' :: ws).
    cbn [map]. rewrite !list_sum_cons. lia.
  - pose proof (IH k w w' Hk) as H.
    change (<[S k := w']> (w0 :: ws)) with (w0 :: <[k := w']> ws).
    cbn [map]. rewrite !list_sum_cons. lia.
Qed.

Lemma forallb_is_done ws k w :
  forallb is_done ws = true -> ws !! k = Some w -> w = Done.
Proof.
  intros Hall Hk. rewrite forallb_forall in Hall.
  assert (Hin : In w ws). { apply list_elem_of_In, list_elem_of_lookup. exists k. exact Hk. }
  specialize (Hall w Hin). destruct w; [discriminate Hall|discriminate Hall|reflexivity].
Qed.

Lemma invariant_initial : invariant readFile files config initial [].
Proof.
  constructor; cbn.
  - reflexivity.
  - reflexivity.
  - constructor.
  - lia.
  - unfold phase. cbn. split; [reflexivity|]. split; [lia|]. split; reflexivity.
  - discriminate.
  - intros k Hk. rewrite lookup_nil in Hk. discriminate Hk.
  - reflexivity.
Qed.

Lemma lookup_insert_done (ws : list worker_state) k k' w :
  w <> Done -> <[k := w]> ws !! k' = Some Done -> ws !! k' = Some Done.
Proof.
  intros Hw Hk'. destruct (decide (k = k')) as [->|Hne].
  - destruct (decide (k' < length ws)) as [Hlt|Hge].
    + rewrite list_lookup_insert_eq in Hk' by exact Hlt. congruence.
    + rewrite list_insert_ge in Hk' by lia. exact Hk'.
  - rewrite list_lookup_insert_ne in Hk' by exact Hne. exact Hk'.
Qed.

Lemma forallb_is_done_not ws k w :
  ws !! k = Some w -> w <> Done -> forallb is_done ws = true -> False.
Proof. intros Hk Hw Hall. apply Hw. exact (forallb_is_done ws k w Hall Hk). Qed.

Lemma Forall_insert_holds ws k w :
  Forall (holds_result readFile) ws -> holds_result readFile w ->
  Forall (holds_result readFile) (<[k := w]> ws).
Proof.
  intros Hall Hw. apply Forall_forall. intros w' Hin.
  apply list_elem_of_lookup in Hin. destruct Hin as [k' Hk'].
  destruct (decide (k = k')) as [->|Hne].
  - destruct (decide (k' < length ws)) as [Hlt|Hge].
    + rewrite list_lookup_insert_eq in Hk' by exact Hlt. injection Hk' as <-. exact Hw.
    + rewrite list_insert_ge in Hk' by lia.
      rewrite Forall_forall in Hall. apply Hall, list_elem_of_lookup.
      exists k'. exact Hk'.
  - rewrite list_lookup_insert_ne in Hk' by exact Hne.
    rewrite Forall_forall in Hall. apply Hall, list_elem_of_lookup.
    exists k'. exact Hk'.
Qed.

Lemma insert_not_nil (ws : list worker_state) k w w' :
  ws !! k = Some w -> <[k := w']> ws <> [].
Proof.
  intros Hk H. apply (f_equal length) in H. rewrite length_insert in H.
  destruct ws; [discriminate Hk|discriminate H].
Qed.

Lemma batch_Value path res :
  analyzeFile readFile path = Value res -> batch readFile path = res.
Proof. intros H. unfold batch. rewrite H. reflexivity. Qed.

Lemma batch_Failure path err :
  analyzeFile readFile path = Failure err -> batch readFile path = [].
Proof. intros H. unfold batch. rewrite H. reflexivity. Qed.

(** Every step keeps the invariant. *)
Lemma step_invariant g st st' delivered :
  invariant readFile files config st delivered ->
  step readFile files config g st = Some st' ->
  exists delivered', invariant readFile files config st' delivered'.
Proof.
  intros [Hq Hf Hh Hr Hp Hc Hd Hi] Hstep. unfold phase in Hp.
  destruct g as [|k|]; cbn [step] in Hstep.
  - (* the goroutine of processFiles *)
    unfold step_main in Hstep.
    destruct (at_main st) as [i|[|file rest]| |] eqn:Hm.
    + destruct Hp as (Hlen & Hle & Hjc & Hrc).
      destruct (Z.of_nat i <? NumWorkers config)%Z eqn:Hlt; injection Hstep as <-.
      * apply Z.ltb_lt in Hlt. exists delivered. constructor; cbn.
        -- exact Hq.
        -- unfold held. rewrite flat_map_app. cbn [flat_map held_by]. rewrite app_nil_r.
           exact Hf.
        -- apply Forall_app. split; [exact Hh|]. constructor; [exact I|constructor].
        -- exact Hr.
        -- unfold phase. cbn. rewrite length_app. cbn. split; [lia|]. split; [lia|].
           split; assumption.
        -- intros H. congruence.
        -- intros k Hk. apply Hd with k.
           destruct (decide (k < length (workers st))) as [Hk'|Hk'].
           ++ rewrite lookup_app_l in Hk by exact Hk'. exact Hk.
           ++ rewrite lookup_app_r in Hk by lia.
              destruct (k - length (workers st)) as [|[|n]]; discriminate Hk.
        -- intros H. destruct (workers st); discriminate H.
      * apply Z.ltb_ge in Hlt. exists delivered. constructor; cbn.
        -- exact Hq.
        -- exact Hf.
        -- exact Hh.
        -- exact Hr.
        -- unfold phase. cbn. split; [lia|]. split; assumption.
        -- exact Hc.
        -- exact Hd.
        -- exact Hi.
    + destruct Hp as (Hlen & Hjc & Hrc). injection Hstep as <-.
      exists delivered. constructor; cbn.
      * exact Hq.
      * exact Hf.
      * exact Hh.
      * exact Hr.
      * unfold phase. cbn. split; [exact Hlen|reflexivity].
      * exact Hc.
      * intros k Hk. destruct (Hd k Hk) as [_ H]. congruence.
      * exact Hi.
    + destruct Hp as (Hlen & Hjc & Hrc).
      destruct (length (jobs st) <? length files) eqn:Hcap; [|discriminate Hstep].
      injection Hstep as <-. exists delivered. constructor; cbn.
      * exact Hq.
      * cbn [unsent] in Hf. etransitivity; [|exact Hf].
        apply Permutation_app_head, Permutation_app_head.
        rewrite <- app_assoc. apply Permutation_app_head. reflexivity.
      * exact Hh.
      * exact Hr.
      * unfold phase. cbn. split; [exact Hlen|]. split; assumption.
      * exact Hc.
      * intros k Hk. destruct (Hd k Hk) as [_ H]. congruence.
      * exact Hi.
    + destruct Hp as (Hlen & Hjc).
      destruct (results st) as [|result rs] eqn:Hres.
      * destruct (results_closed st) eqn:Hrc; [|discriminate Hstep].
        injection Hstep as <-. exists delivered. constructor; cbn.
        -- rewrite Hres. exact Hq.
        -- exact Hf.
        -- exact Hh.
        -- rewrite Hres. exact Hr.
        -- unfold phase. cbn. repeat split; assumption.
        -- rewrite Hrc. exact Hc.
        -- exact Hd.
        -- exact Hi.
      * injection Hstep as <-. exists delivered. constructor; cbn.
        -- rewrite <- Hq. cbn [concat]. rewrite app_assoc. reflexivity.
        -- rewrite Hm. exact Hf.
        -- exact Hh.
        -- cbn in Hr. lia.
        -- unfold phase. cbn. rewrite Hm. split; assumption.
        -- exact Hc.
        -- exact Hd.
        -- exact Hi.
    + discriminate Hstep.
  - (* a worker *)
    unfold step_worker in Hstep.
    destruct (workers st !! k) as [[|path res|]|] eqn:Hk; [| |discriminate Hstep..].
    + destruct (jobs st) as [|path js] eqn:Hjobs.
      * destruct (jobs_closed st) eqn:Hjc; [|discriminate Hstep].
        injection Hstep as <-. exists delivered. constructor; cbn.
        -- exact Hq.
        -- rewrite Hjobs.
           pose proof (held_insert (workers st) k Receiving Done Hk) as H.
           cbn [held_by] in H. rewrite !app_nil_r in H.
           etransitivity; [|exact Hf]. apply Permutation_app_head, Permutation_app_tail, H.
        -- apply Forall_insert_holds; [exact Hh|exact I].
        -- exact Hr.
        -- unfold phase. cbn. rewrite length_insert.
           destruct (at_main st); cbn; rewrite ?Hjc; exact Hp.
        -- intros Hrc. contradiction (forallb_is_done_not _ _ _ Hk ltac:(discriminate) (Hc Hrc)).
        -- intros _ _. rewrite Hjobs, Hjc. split; reflexivity.
        -- intros H. contradiction (insert_not_nil _ _ _ _ Hk H).
      * assert (Hnodone : forall k', workers st !! k' = Some Done -> False).
        { intros k' Hk'. destruct (Hd k' Hk') as [H _]. discriminate H. }
        destruct (analyzeFile readFile path) as [res|err] eqn:Hres; injection Hstep as <-.
        -- exists delivered. constructor; cbn.
           ++ exact Hq.
           ++ pose proof (held_insert (workers st) k Receiving (Delivering path res) Hk) as H.
              cbn [held_by] in H. rewrite app_nil_r in H.
              etransitivity; [|exact Hf]. apply Permutation_app_head.
              etransitivity; [apply Permutation_app_tail, H|].
              rewrite <- app_assoc. reflexivity.
           ++ apply Forall_insert_holds; [exact Hh|exact Hres].
           ++ exact Hr.
           ++ unfold phase. cbn. rewrite length_insert.
              destruct (at_main st); cbn; exact Hp.
           ++ intros Hrc.
              contradiction (forallb_is_done_not _ _ _ Hk ltac:(discriminate) (Hc Hrc)).
           ++ intros k' Hk'. apply lookup_insert_done in Hk'; [|discriminate].
              contradiction (Hnodone k' Hk').
           ++ intros H. contradiction (insert_not_nil _ _ _ _ Hk H).
        -- exists (delivered ++ [path]). constructor; cbn.
           ++ rewrite Hq, map_app, concat_app. cbn [map concat].
              rewrite (batch_Failure _ _ Hres), !app_nil_r. reflexivity.
           ++ etransitivity; [|exact Hf]. rewrite <- !app_assoc.
              apply Permutation_app_head. cbn. apply Permutation_middle.
           ++ exact Hh.
           ++ rewrite length_app. cbn. lia.
           ++ unfold phase. cbn. destruct (at_main st); cbn; exact Hp.
           ++ exact Hc.
           ++ intros k' Hk'. contradiction (Hnodone k' Hk').
           ++ intros H. rewrite H in Hk. discriminate Hk.
    + destruct (length (results st) <? length files) eqn:Hcap; [|discriminate Hstep].
      injection Hstep as <-. exists (delivered ++ [path]).
      pose proof Hh as Hres. rewrite Forall_forall in Hres.
      specialize (Hres (Delivering path res)). cbn [holds_result] in Hres.
      assert (Hres' : analyzeFile readFile path = Value res).
      { apply Hres, list_elem_of_lookup. exists k. exact Hk. }
      constructor; cbn.
      * rewrite concat_app, app_assoc, Hq, map_app, concat_app. cbn [map concat].
        rewrite (batch_Value _ _ Hres'). reflexivity.
      * pose proof (held_insert (workers st) k (Delivering path res) Receiving Hk) as H.
        cbn [held_by] in H. rewrite app_nil_r in H.
        etransitivity; [|exact Hf]. rewrite <- !app_assoc.
        apply Permutation_app_head. cbn.
        etransitivity; [|apply Permutation_app_tail, H].
        rewrite <- app_assoc. apply Permutation_middle.
      * apply Forall_insert_holds; [exact Hh|exact I].
      * rewrite !length_app. cbn. lia.
      * unfold phase. cbn. rewrite length_insert.
        destruct (at_main st); cbn; try exact Hp.
        destruct Hp as (H1 & H2 & H3 & H4).
        contradiction (forallb_is_done_not _ _ _ Hk ltac:(discriminate) (Hc H3)).
      * intros Hrc. contradiction (forallb_is_done_not _ _ _ Hk ltac:(discriminate) (Hc Hrc)).
      * intros k' Hk'. apply lookup_insert_done in Hk'; [|discriminate]. exact (Hd k' Hk').
      * intros H. contradiction (insert_not_nil _ _ _ _ Hk H).
  - (* the goroutine that waits for the workers *)
    unfold step_waiter in Hstep.
    destruct (jobs_closed st) eqn:Hjc; [|discriminate Hstep].
    destruct (results_closed st) eqn:Hrc; [discriminate Hstep|].
    destruct (forallb is_done (workers st)) eqn:Hall; [|discriminate Hstep].
    injection Hstep as <-. exists delivered. constructor; cbn.
    + exact Hq.
    + exact Hf.
    + exact Hh.
    + exact Hr.
    + unfold phase. cbn. rewrite Hjc.
      destruct (at_main st); cbn; intuition congruence.
    + intros _. exact Hall.
    + rewrite Hjc. exact Hd.
    + exact Hi.
Qed.

Lemma run_invariant schedule : forall st delivered,
  invariant readFile files config st delivered ->
  exists delivered',
    invariant readFile files config (run readFile files config schedule st) delivered'.
Proof.
  induction schedule as [|g schedule IH]; intros st delivered Hinv.
  - exists delivered. exact Hinv.
  - cbn [run fold_left]. destruct (step readFile files config g st) as [st'|] eqn:Hstep.
    + destruct (step_invariant g st st' delivered Hinv Hstep) as [delivered' Hinv'].
      exact (IH st' delivered' Hinv').
    + exact (IH st delivered Hinv).
Qed.

Lemma reachable_invariant schedule :
  exists delivered,
    invariant readFile files config (run readFile files config schedule initial) delivered.
Proof. exact (run_invariant schedule initial [] invariant_initial). Qed.

Lemma held_length ws k path res :
  ws !! k = Some (Delivering path res) -> 0 < length (held ws).
Proof.
  revert k. induction ws as [|w ws IH]; intros k Hk; [discriminate Hk|].
  destruct k as [|k]; cbn in Hk.
  - injection Hk as ->. cbn. lia.
  - unfold held. cbn [flat_map]. rewrite length_app. specialize (IH k Hk).
    unfold held in IH. lia.
Qed.

Lemma forallb_is_done_false ws :
  forallb is_done ws = false -> exists k w, ws !! k = Some w /\ w <> Done.
Proof.
  induction ws as [|w ws IH]; [discriminate|]. cbn [forallb]. intros H.
  apply andb_false_iff in H. destruct H as [H|H].
  - exists 0, w. split; [reflexivity|]. intros ->. discriminate H.
  - destruct (IH H) as (k & w' & Hk & Hw). exists (S k), w'. split; assumption.
Qed.

(** No send has to wait: the buffers are large enough. *)
Lemma send_ready st delivered :
  invariant readFile files config st delivered ->
  (forall file rest, at_main st = Sending (file :: rest) -> length (jobs st) < length files)
  /\ (forall k path res, workers st !! k = Some (Delivering path res) ->
        length (results st) < length files).
Proof.
  intros [Hq Hf Hh Hr Hp Hc Hd Hi]. apply Permutation_length in Hf.
  rewrite !length_app in Hf. split.
  - intros file rest Hm. rewrite Hm in Hf. cbn in Hf. lia.
  - intros k path res Hk. pose proof (held_length _ _ _ _ Hk). lia.
Qed.

(** In a state in which [processFiles] has not returned, some goroutine can
    take a step. *)
Lemma some_step st delivered :
  invariant readFile files config st delivered ->
  at_main st <> Returned ->
  exists g st', step readFile files config g st = Some st'.
Proof.
  intros Hinv Hm. destruct (send_ready st delivered Hinv) as [Hjobs Hresults].
  destruct Hinv as [Hq Hf Hh Hr Hp Hc Hd Hi]. unfold phase in Hp.
  destruct (at_main st) as [i|[|file rest]| |] eqn:Hmain; [| | | |congruence].
  - exists Main. cbn [step]. unfold step_main. rewrite Hmain.
    destruct (Z.of_nat i <? NumWorkers config)%Z; eexists; reflexivity.
  - exists Main. cbn [step]. unfold step_main. rewrite Hmain. eexists; reflexivity.
  - exists Main. cbn [step]. unfold step_main. rewrite Hmain.
    specialize (Hjobs file rest eq_refl). apply Nat.ltb_lt in Hjobs. rewrite Hjobs.
    eexists; reflexivity.
  - destruct Hp as [Hlen Hjc].
    destruct (results st) as [|result rs] eqn:Hres.
    + destruct (results_closed st) eqn:Hrc.
      * exists Main. cbn [step]. unfold step_main. rewrite Hmain, Hres, Hrc.
        eexists; reflexivity.
      * destruct (forallb is_done (workers st)) eqn:Hall.
        -- exists Waiter. cbn [step]. unfold step_waiter. rewrite Hjc, Hrc, Hall.
           eexists; reflexivity.
        -- destruct (forallb_is_done_false _ Hall) as (k & w & Hk & Hw).
           exists (Worker k). cbn [step]. unfold step_worker. rewrite Hk.
           destruct w as [|path res|]; [| |congruence].
           ++ destruct (jobs st) as [|path js].
              ** rewrite Hjc. eexists; reflexivity.
              ** destruct (analyzeFile readFile path); eexists; reflexivity.
           ++ specialize (Hresults k path res Hk).
              apply Nat.ltb_lt in Hresults. rewrite Hres, Hresults. eexists; reflexivity.
    + exists Main. cbn [step]. unfold step_main. rewrite Hmain, Hres. eexists; reflexivity.
Qed.

Local Ltac pool_simpl :=
  cbn [at_main workers jobs jobs_closed results results_closed allQueries
       set_main set_workers set_jobs close_jobs set_results close_results set_allQueries
       main_weight unsent worker_weight length app].

(** Every step brings the call nearer to its end. *)
Lemma step_remaining g st st' :
  step readFile files config g st = Some st' ->
  remaining files config st' < remaining files config st.
Proof.
  intros Hstep. unfold remaining. destruct g as [|k|]; cbn [step] in Hstep.
  - unfold step_main in Hstep.
    destruct (at_main st) as [i|[|file rest]| |] eqn:Hmain.
    + destruct (Z.of_nat i <? NumWorkers config)%Z eqn:Hlt; injection Hstep as <-; pool_simpl.
      * apply Z.ltb_lt in Hlt. rewrite map_app, list_sum_app.
        change (list_sum (map worker_weight [Receiving])) with 1. lia.
      * rewrite ?Hmain. pool_simpl. lia.
    + injection Hstep as <-. pool_simpl. rewrite ?Hmain. pool_simpl. lia.
    + destruct (length (jobs st) <? length files); [|discriminate Hstep].
      injection Hstep as <-. pool_simpl. rewrite length_app. pool_simpl. lia.
    + destruct (results st) as [|result rs] eqn:Hres.
      * destruct (results_closed st) eqn:Hrc; [|discriminate Hstep].
        injection Hstep as <-. pool_simpl. rewrite ?Hres, ?Hrc, ?Hmain. pool_simpl. lia.
      * injection Hstep as <-. pool_simpl. rewrite ?Hmain. pool_simpl. lia.
    + discriminate Hstep.
  - unfold step_worker in Hstep.
    destruct (workers st !! k) as [[|path res|]|] eqn:Hk; [| |discriminate Hstep..].
    + destruct (jobs st) as [|path js] eqn:Hjobs.
      * destruct (jobs_closed st); [|discriminate Hstep]. injection Hstep as <-. pool_simpl.
        pose proof (weight_insert (workers st) k Receiving Done Hk) as H. cbn [worker_weight] in H.
        rewrite ?Hjobs. pool_simpl. lia.
      * destruct (analyzeFile readFile path) as [res|err]; injection Hstep as <-; pool_simpl.
        -- pose proof (weight_insert (workers st) k Receiving (Delivering path res) Hk) as H.
           cbn [worker_weight] in H. lia.
        -- lia.
    + destruct (length (results st) <? length files); [|discriminate Hstep].
      injection Hstep as <-. pool_simpl.
      pose proof (weight_insert (workers st) k (Delivering path res) Receiving Hk) as H.
      cbn [worker_weight] in H. rewrite length_app. pool_simpl. lia.
  - unfold step_waiter in Hstep.
    destruct (jobs_closed st); [|discriminate Hstep].
    destruct (results_closed st) eqn:Hrc; [discriminate Hstep|].
    destruct (forallb is_done (workers st)); [|discriminate Hstep].
    injection Hstep as <-. pool_simpl. rewrite ?Hrc. lia.
Qed.

Lemma can_return : forall n st delivered,
  remaining files config st <= n ->
  invariant readFile files config st delivered ->
  exists more, at_main (run readFile files config more st) = Returned.
Proof.
  induction n as [|n IH]; intros st delivered Hn Hinv.
  - destruct (at_main st) eqn:Hm; try (exists []; exact Hm).
    all: destruct (some_step st delivered Hinv ltac:(congruence)) as (g & st' & Hstep).
    all: pose proof (step_remaining g st st' Hstep); lia.
  - destruct (at_main st) eqn:Hm; try (exists []; exact Hm).
    all: destruct (some_step st delivered Hinv ltac:(congruence)) as (g & st' & Hstep).
    all: pose proof (step_remaining g st st' Hstep) as Hlt.
    all: destruct (step_invariant g st st' delivered Hinv Hstep) as [delivered' Hinv'].
    all: destruct (IH st' delivered' ltac:(lia) Hinv') as [more Hmore].
    all: exists (g :: more); cbn [run fold_left]; rewrite Hstep; exact Hmore.
Qed.

Lemma productive_length : forall schedule st,
  productive readFile files config schedule st = true ->
  length schedule + remaining files config (run readFile files config schedule st)
  <= remaining files config st.
Proof.
  induction schedule as [|g schedule IH]; intros st Hp; [cbn; lia|].
  rewrite run_cons. cbn [productive length] in Hp |- *.
  destruct (step readFile files config g st) as [st'|] eqn:Hstep; [|discriminate Hp].
  pose proof (step_remaining g st st' Hstep). specialize (IH st' Hp). lia.
Qed.

(** The result of a call that has returned. *)
Lemma returned_queries st delivered :
  invariant readFile files config st delivered ->
  at_main st = Returned ->
  allQueries st = concat (map (batch readFile) delivered)
  /\ ((1 <= NumWorkers config)%Z -> delivered ≡ₚ files)
  /\ ((NumWorkers config <= 0)%Z -> delivered = []).
Proof.
  intros [Hq Hf Hh Hr Hp Hc Hd Hi] Hm. unfold phase in Hp. rewrite Hm in Hp, Hf.
  destruct Hp as (Hlen & Hjc & Hrc & Hres). rewrite Hres in Hq. cbn in Hq.
  rewrite app_nil_r in Hq. split; [exact Hq|]. specialize (Hc Hrc). split.
  - intros Hw. destruct (workers st) as [|w ws] eqn:Hws; [cbn in Hlen; lia|].
    assert (w = Done) as ->. { apply (forallb_is_done (w :: ws) 0 w Hc). reflexivity. }
    destruct (Hd 0 eq_refl) as [Hjobs _].
    assert (Hheld : held (Done :: ws) = []).
    { clear -Hc. induction ws as [|w ws IH]; [reflexivity|].
      cbn [forallb is_done] in Hc. cbn in Hc. apply andb_prop in Hc. destruct Hc as [Hw Hc].
      destruct w; try discriminate Hw. apply IH. exact Hc. }
    rewrite Hheld, Hjobs in Hf. cbn in Hf. rewrite app_nil_r in Hf. exact Hf.
  - intros Hw. apply Hi. destruct (workers st); [reflexivity|cbn in Hlen; lia].
Qed.

Lemma batch_In path q :
  In q (batch readFile path) ->
  FilePath q = path
  /\ Normalized q = normalizeQuery (Query q)
  /\ exists data, readFile path = Value data /\ In (Query q) (findSQLQueries data).
Proof.
  unfold batch, analyzeFile. destruct (readFile path) as [data|err]; [|intros []].
  intros Hq. apply in_map_iff in Hq. destruct Hq as (match_ & <- & Hin). cbn.
  split; [reflexivity|]. split; [reflexivity|]. exists data. split; [reflexivity|exact Hin].
Qed.

Lemma delivered_files st delivered file :
  invariant readFile files config st delivered -> In file delivered -> In file files.
Proof.
  intros Hinv Hin. apply (Permutation_in _ (inv_files _ _ _ _ _ Hinv)).
  apply in_or_app. left. exact Hin.
Qed.

End PoolProperties.

(** *** What [processFiles] returns *)

(** X5: with at least one worker, whatever the schedule of the goroutines,
    [processFiles] returns the occurrences of all files, file by file: the
    results of the files that can be read, concatenated in some order of the
    files; the occurrences of one file stay together and in order. *)
Theorem X5_processFiles_all_files (readFile : gostring -> outcome gostring)
    (files : list gostring) (config : Config) (queries : list QueryResult) :
  (1 <= NumWorkers config)%Z ->
  processFiles readFile files config queries ->
  exists order, order ≡ₚ files /\ queries = concat (map (batch readFile) order).
Proof.
  intros Hw (schedule & Hm & Hq).
  destruct (reachable_invariant readFile files config schedule) as [delivered Hinv].
  destruct (returned_queries readFile files config _ _ Hinv Hm) as (Hall & Hperm & _).
  exists delivered. split; [exact (Hperm Hw)|]. rewrite <- Hq. exact Hall.
Qed.

(** X6: when the number of workers is zero or negative, no file is
    analysed: [processFiles] returns no occurrence, whatever the files. *)
Theorem X6_processFiles_no_workers (readFile : gostring -> outcome gostring)
    (files : list gostring) (config : Config) (queries : list QueryResult) :
  (NumWorkers config <= 0)%Z ->
  processFiles readFile files config queries ->
  queries = [].
Proof.
  intros Hw (schedule & Hm & Hq).
  destruct (reachable_invariant readFile files config schedule) as [delivered Hinv].
  destruct (returned_queries readFile files config _ _ Hinv Hm) as (Hall & _ & Hnone).
  rewrite <- Hq, Hall, (Hnone Hw). reflexivity.
Qed.

(** X7: whatever the schedule and the number of workers, every occurrence
    that [processFiles] returns carries the path of one of the files; its
    query is a statement extracted from the content of that file, and its
    normalized form is the result of [normalizeQuery] on that statement. *)
Theorem X7_processFiles_occurrences (readFile : gostring -> outcome gostring)
    (files : list gostring) (config : Config) (queries : list QueryResult)
    (q : QueryResult) :
  processFiles readFile files config queries ->
  In q queries ->
  In (FilePath q) files
  /\ Normalized q = normalizeQuery (Query q)
  /\ exists data,
       readFile (FilePath q) = Value data /\ In (Query q) (findSQLQueries data).
Proof.
  intros (schedule & Hm & Hq) Hin.
  destruct (reachable_invariant readFile files config schedule) as [delivered Hinv].
  destruct (returned_queries readFile files config _ _ Hinv Hm) as (Hall & _ & _).
  rewrite <- Hq, Hall in Hin. apply in_concat in Hin. destruct Hin as (res & Hres & Hin).
  apply in_map_iff in Hres. destruct Hres as (file & <- & Hfile).
  destruct (batch_In readFile file q Hin) as (Hpath & Hnorm & data & Hdata & Hquery).
  split; [rewrite Hpath; exact (delivered_files _ _ _ _ _ _ Hinv Hfile)|].
  split; [exact Hnorm|]. exists data. rewrite Hpath. split; assumption.
Qed.

(** X8: a call of [processFiles] cannot hang: from every state that a
    schedule reaches, the call can go on until it returns, and no run takes
    more than [4 + 2 * NumWorkers + 4 * len(files)] steps (a negative
    number of workers counts as zero). *)
Theorem X8_processFiles_returns (readFile : gostring -> outcome gostring)
    (files : list gostring) (config : Config) (schedule : list goroutine) :
  (exists more,
     at_main (run readFile files config (schedule ++ more) initial) = Returned)
  /\ (productive readFile files config schedule initial = true ->
      length schedule <= 4 + 2 * Z.to_nat (NumWorkers config) + 4 * length files).
Proof.
  split.
  - destruct (reachable_invariant readFile files config schedule) as [delivered Hinv].
    destruct (can_return readFile files config _ _ delivered (Nat.le_refl _) Hinv)
      as [more Hmore].
    exists more. rewrite run_app. exact Hmore.
  - intros Hp. pose proof (productive_length readFile files config schedule initial Hp) as H.
    unfold remaining in H at 2. cbn in H. rewrite Z.sub_0_r in H. lia.
Qed.

(** X9: no send on a channel ever has to wait, under any schedule: when
    [processFiles] is about to send a file to [jobs], and when a worker is
    about to send its result to [results], the buffer has room. *)
Theorem X9_sends_never_wait (readFile : gostring -> outcome gostring)
    (files : list gostring) (config : Config) (schedule : list goroutine) :
  let st := run readFile files config schedule initial in
  (forall file rest, at_main st = Sending (file :: rest) ->
     step readFile files config Main st
     = Some (set_main (Sending rest) (set_jobs (jobs st ++ [file]) st)))
  /\ (forall k path res, workers st !! k = Some (Delivering path res) ->
        step readFile files config (Worker k) st
        = Some (set_workers (<[k := Receiving]> (workers st))
                  (set_results (results st ++ [res]) st))).
Proof.
  intros st.
  destruct (reachable_invariant readFile files config schedule) as [delivered Hinv].
  destruct (send_ready readFile files config st delivered Hinv) as [Hjobs Hresults].
  split.
  - intros file rest Hm. cbn [step]. unfold step_main. rewrite Hm.
    specialize (Hjobs file rest Hm). apply Nat.ltb_lt in Hjobs. rewrite Hjobs. reflexivity.
  - intros k path res Hk. cbn [step]. unfold step_worker. rewrite Hk.
    specialize (Hresults k path res Hk). apply Nat.ltb_lt in Hresults.
    rewrite Hresults. reflexivity.
Qed.

(** ** [main] *)

Lemma concat_map_perm {A B} (f : A -> list B) l l' :
  l ≡ₚ l' -> concat (map f l) ≡ₚ concat (map f l').
Proof.
  induction 1 as [|x l l' _ IH|x y l|l l' l'' _ IH1 _ IH2]; cbn [map concat].
  - reflexivity.
  - apply Permutation_app_head, IH.
  - rewrite !app_assoc. apply Permutation_app_tail, Permutation_app_comm.
  - etransitivity; eassumption.
Qed.

(** The report for occurrences collected in another order. *)
Lemma report_perm queries queries' range_keys :
  queries ≡ₚ queries' ->
  keys_of (findDuplicates queries) range_keys ->
  printResults range_keys (findDuplicates queries) = report queries'.
Proof.
  intros Hperm Hkeys. unfold report.
  assert (Hocc : forall k, length (occurrences k queries) = length (occurrences k queries')).
  { intros k. apply Permutation_length, occurrences_perm, Hperm. }
  apply printResults_counts; [| |exact Hkeys|apply keys_of_map_to_list].
  - apply set_eq. intros k. rewrite !findDuplicates_dom, Hocc. reflexivity.
  - intros k. rewrite !group_findDuplicates, Hocc. reflexivity.
Qed.

(** X10: with at least one worker and a walk without error, [main] prints the
    report for the occurrences of the files in the order of the walk,
    whatever the schedule of the goroutines and the order in which the map
    is ranged over: the concurrency cannot be seen in the output. *)
Theorem X10_main_report (join : gostring -> gostring -> gostring) (given : Flags)
    (numCPU : Z) (root : fsnode) (readFile : gostring -> outcome gostring)
    (files : list gostring) (output : gostring) :
  findFiles join (parseFlags given numCPU) root = (files, None) ->
  (1 <= NumWorkers (parseFlags given numCPU))%Z ->
  main join given numCPU root readFile output ->
  output = report (concat (map (batch readFile) files)).
Proof.
  intros Hfiles Hw Hmain. unfold main in Hmain. rewrite Hfiles in Hmain.
  destruct Hmain as (queries & range_keys & (schedule & Hm & Hq) & Hkeys & ->).
  destruct (reachable_invariant readFile files (parseFlags given numCPU) schedule)
    as [delivered Hinv].
  destruct (returned_queries readFile files _ _ _ Hinv Hm) as (Hall & Hperm & _).
  apply report_perm; [|exact Hkeys].
  rewrite <- Hq, Hall. apply concat_map_perm, Hperm, Hw.
Qed.

(** X11: with [-workers] zero or negative and a walk without error, [main]
    prints that there are no duplicate queries, whatever the files
    contain. *)
Theorem X11_main_no_workers (join : gostring -> gostring -> gostring) (given : Flags)
    (numCPU : Z) (root : fsnode) (readFile : gostring -> outcome gostring)
    (output : gostring) :
  (findFiles join (parseFlags given numCPU) root).2 = None ->
  (NumWorkers (parseFlags given numCPU) <= 0)%Z ->
  main join given numCPU root readFile output ->
  output = no_duplicates_line.
Proof.
  intros Hfiles Hw Hmain. unfold main in Hmain.
  destruct (findFiles join (parseFlags given numCPU) root) as [files err].
  cbn [snd] in Hfiles. subst err.
  destruct Hmain as (queries & range_keys & (schedule & Hm & Hq) & Hkeys & ->).
  destruct (reachable_invariant readFile files (parseFlags given numCPU) schedule)
    as [delivered Hinv].
  destruct (returned_queries readFile files _ _ _ Hinv Hm) as (Hall & _ & Hnone).
  rewrite <- Hq, Hall, (Hnone Hw). reflexivity.
Qed.

Lemma printResults_not_empty range_keys m : printResults range_keys m <> [].
Proof. unfold printResults. destruct (size m =? 0); discriminate. Qed.

(** X12: what a run writes to standard output does not depend on the
    schedule of the goroutines nor on the order in which the map is ranged
    over; every run writes something, except that nothing is written when
    [flag.Parse] rejects the command line. *)
Theorem X12_main_deterministic (join : gostring -> gostring -> gostring)
    (args : command_line) (numCPU : Z) (root : fsnode)
    (readFile : gostring -> outcome gostring) :
  (exists output, standard_output join args numCPU root readFile output)
  /\ (forall output output',
        standard_output join args numCPU root readFile output ->
        standard_output join args numCPU root readFile output' ->
        output = output')
  /\ (forall output,
        standard_output join args numCPU root readFile output ->
        (output = [] <-> args = Rejected)).
Proof.
  destruct args as [given|]; cbn [standard_output].
  2: { split; [exists []; reflexivity|].
       split; [intros output output' -> ->; reflexivity|].
       intros output ->. split; reflexivity. }
  unfold main. destruct (findFiles join (parseFlags given numCPU) root) as [files [err|]].
  - split; [eexists; reflexivity|].
    split; [intros output output' -> ->; reflexivity|].
    intros output ->. split; discriminate.
  - split; [|split].
    + destruct (can_return readFile files (parseFlags given numCPU) _ initial []
                  (Nat.le_refl _) (invariant_initial readFile files (parseFlags given numCPU)))
        as [more Hmore].
      eexists. eexists. eexists. split; [exists more; split; [exact Hmore|reflexivity]|].
      split; [apply keys_of_map_to_list|reflexivity].
    + intros output output'
        (queries & range_keys & (schedule & Hm & Hq) & Hkeys & ->)
        (queries' & range_keys' & (schedule' & Hm' & Hq') & Hkeys' & ->).
      destruct (reachable_invariant readFile files (parseFlags given numCPU) schedule)
        as [delivered Hinv].
      destruct (reachable_invariant readFile files (parseFlags given numCPU) schedule')
        as [delivered' Hinv'].
      destruct (returned_queries readFile files _ _ _ Hinv Hm) as (Hall & Hperm & Hnone).
      destruct (returned_queries readFile files _ _ _ Hinv' Hm') as (Hall' & Hperm' & Hnone').
      rewrite (report_perm queries queries' range_keys); [|
        |exact Hkeys].
      * symmetry. apply report_perm; [reflexivity|exact Hkeys'].
      * rewrite <- Hq, <- Hq', Hall, Hall'. apply concat_map_perm.
        destruct (Z_le_gt_dec 1 (NumWorkers (parseFlags given numCPU))) as [Hw|Hw].
        -- rewrite (Hperm Hw), (Hperm' Hw). reflexivity.
        -- rewrite (Hnone ltac:(lia)), (Hnone' ltac:(lia)). reflexivity.
    + intros output (queries & range_keys & _ & _ & ->).
      split; [intros H; destruct (printResults_not_empty _ _ H)|discriminate].
Qed.

Lemma batch_readable readFile files :
  concat (map (batch readFile) files)
  = concat (map (batch readFile) (List.filter (readable readFile) files)).
Proof.
  induction files as [|file files IH]; [reflexivity|].
  cbn [map concat List.filter]. unfold readable at 1, batch at 1, analyzeFile.
  destruct (readFile file) as [data|err] eqn:Hfile.
  - cbn [map concat]. unfold batch at 2, analyzeFile. rewrite Hfile, IH. reflexivity.
  - exact IH.
Qed.

(** X13: a file that cannot be read is passed over without any message:
    with at least one worker and a walk without error, [main] prints the
    report for the files that can be read. *)
Theorem X13_unreadable_files_skipped (join : gostring -> gostring -> gostring)
    (given : Flags) (numCPU : Z) (root : fsnode) (readFile : gostring -> outcome gostring)
    (files : list gostring) (output : gostring) :
  findFiles join (parseFlags given numCPU) root = (files, None) ->
  (1 <= NumWorkers (parseFlags given numCPU))%Z ->
  main join given numCPU root readFile output ->
  output
  = report (concat (map (batch readFile) (List.filter (readable readFile) files))).
Proof.
  intros Hfiles Hw Hmain. unfold main in Hmain. rewrite Hfiles in Hmain.
  destruct Hmain as (queries & range_keys & (schedule & Hm & Hq) & Hkeys & ->).
  destruct (reachable_invariant readFile files (parseFlags given numCPU) schedule)
    as [delivered Hinv].
  destruct (returned_queries readFile files _ _ _ Hinv Hm) as (Hall & Hperm & _).
  rewrite <- batch_readable. apply report_perm; [|exact Hkeys].
  rewrite <- Hq, Hall. apply concat_map_perm, Hperm, Hw.
Qed.

(** ** The program on a sample file system *)

Example sample_findFiles :
  findFiles join_path sample_config sample_tree = (sample_files, None)
  /\ findFiles join_path sample_config sample_tree_locked
     = ([str "src/a.php"], Some (str "open src/vendor: permission denied")).
Proof. split; vm_compute; reflexivity. Qed.

Example sample_run :
  let st := run sample_readFile sample_files sample_config sample_schedule initial in
  at_main st = Returned
  /\ allQueries st = batch sample_readFile (str "src/lib/b.php")
                     ++ batch sample_readFile (str "src/a.php")
  /\ report (allQueries st) = sample_report.
Proof. vm_compute. repeat split; reflexivity. Qed.

Example sample_schedules_productive :
  productive sample_readFile sample_files sample_config sample_schedule initial = true
  /\ productive sample_readFile sample_files (parseFlags sample_flags_idle 8)
       sample_schedule_idle initial = true.
Proof. split; vm_compute; reflexivity. Qed.

Lemma X2_witness :
  listed join_path sample_config (FolderPath sample_config) sample_tree (str "src/lib/b.php")
  /\ HasSuffix (str "src/lib/b.php") (FileType sample_config) = true.
Proof.
  apply (X2_findFiles_sound join_path sample_config sample_tree).
  vm_compute. right. left. reflexivity.
Defined.

Lemma X3_witness :
  In (str "src/lib/b.php") (findFiles join_path sample_config sample_tree).1.
Proof.
  apply (X3_findFiles_complete join_path sample_config sample_tree).
  - vm_compute. reflexivity.
  - apply (listed_entry join_path sample_config _ _ _
             (Dir (str "lib") [File (str "b.php"); File (str "notes.txt")]));
      [reflexivity|right; left; reflexivity|].
    apply (listed_entry join_path sample_config _ _ _ (File (str "b.php")));
      [reflexivity|left; reflexivity|].
    apply listed_file.
  - reflexivity.
Defined.

Lemma X5_witness :
  exists order,
    order ≡ₚ sample_files
    /\ batch sample_readFile (str "src/lib/b.php") ++ batch sample_readFile (str "src/a.php")
       = concat (map (batch sample_readFile) order).
Proof.
  apply (X5_processFiles_all_files sample_readFile sample_files sample_config).
  - cbn. lia.
  - exists sample_schedule. split; vm_compute; reflexivity.
Defined.

Lemma X6_witness :
  allQueries (run sample_readFile sample_files (parseFlags sample_flags_idle 8)
                  sample_schedule_idle initial) = [].
Proof.
  apply (X6_processFiles_no_workers sample_readFile sample_files
           (parseFlags sample_flags_idle 8)).
  - cbn. lia.
  - exists sample_schedule_idle. split; [vm_compute; reflexivity|reflexivity].
Defined.

Lemma X7_witness :
  let q := {| FilePath := str "src/a.php"; Query := str "SELECT * FROM users WHERE id = 1;";
              Normalized := str "select * from users where id = N;" |} in
  In (FilePath q) sample_files
  /\ Normalized q = normalizeQuery (Query q)
  /\ exists data,
       sample_readFile (FilePath q) = Value data /\ In (Query q) (findSQLQueries data).
Proof.
  apply (X7_processFiles_occurrences sample_readFile sample_files sample_config
           (batch sample_readFile (str "src/lib/b.php")
            ++ batch sample_readFile (str "src/a.php"))).
  - exists sample_schedule. split; vm_compute; reflexivity.
  - vm_compute. right. left. reflexivity.
Defined.

Lemma X8_witness :
  length sample_schedule
  <= 4 + 2 * Z.to_nat (NumWorkers sample_config) + 4 * length sample_files.
Proof.
  apply (proj2 (X8_processFiles_returns sample_readFile sample_files sample_config
                  sample_schedule)).
  vm_compute. reflexivity.
Defined.

Lemma X9_witness :
  let st := run sample_readFile sample_files sample_config [Main; Main; Main] initial in
  step sample_readFile sample_files sample_config Main st
  = Some (set_main (Sending [str "src/lib/b.php"])
            (set_jobs (jobs st ++ [str "src/a.php"]) st)).
Proof.
  apply (proj1 (X9_sends_never_wait sample_readFile sample_files sample_config
                  [Main; Main; Main])).
  vm_compute. reflexivity.
Defined.

Lemma X10_witness :
  sample_report = report (concat (map (batch sample_readFile) sample_files)).
Proof.
  apply (X10_main_report join_path sample_flags 8 sample_tree sample_readFile sample_files).
  - vm_compute. reflexivity.
  - cbn. lia.
  - unfold main. change (parseFlags sample_flags 8) with sample_config.
    rewrite (proj1 sample_findFiles).
    exists (allQueries (run sample_readFile sample_files sample_config sample_schedule
                            initial)).
    eexists. split; [exists sample_schedule; split; [vm_compute; reflexivity|reflexivity]|].
    split; [apply keys_of_map_to_list|]. vm_compute. reflexivity.
Defined.

Lemma X11_witness :
  printResults [] (findDuplicates
    (allQueries (run sample_readFile sample_files (parseFlags sample_flags_idle 8)
                     sample_schedule_idle initial)))
  = no_duplicates_line.
Proof.
  apply (X11_main_no_workers join_path sample_flags_idle 8 sample_tree sample_readFile).
  - vm_compute. reflexivity.
  - cbn. lia.
  - unfold main.
    assert (Hfiles : findFiles join_path (parseFlags sample_flags_idle 8) sample_tree
                     = (sample_files, None)) by (vm_compute; reflexivity).
    rewrite Hfiles. eexists. exists []. split; [|split; [|reflexivity]].
    + exists sample_schedule_idle. split; [vm_compute; reflexivity|reflexivity].
    + unfold keys_of. vm_compute. reflexivity.
Defined.

Lemma X13_witness :
  sample_report
  = report (concat (map (batch sample_readFile)
                        (List.filter (readable sample_readFile)
                           [str "src/a.php"; str "src/gone.php"; str "src/lib/b.php"]))).
Proof.
  apply (X13_unreadable_files_skipped join_path
           {| flag_folder := Some (str "src"); flag_ignore := None; flag_type := None;
              flag_workers := Some 1%Z |} 8 sample_tree_gone sample_readFile).
  - vm_compute. reflexivity.
  - cbn. lia.
  - unfold main.
    match goal with
    | |- context [findFiles ?j ?c ?t] =>
        assert (Hfiles : findFiles j c t
                         = ([str "src/a.php"; str "src/gone.php"; str "src/lib/b.php"], None))
          by (vm_compute; reflexivity);
        rewrite Hfiles
    end.
    eexists. eexists. split; [exists sample_schedule_gone; split; [|reflexivity]|].
    + vm_compute. reflexivity.
    + split; [apply keys_of_map_to_list|]. vm_compute. reflexivity.
Defined.

(** ** What [normalizeQuery] leaves in its result *)

(** X14: the result of [normalizeQuery] contains no decimal digit, and at
    most one apostrophe and at most one double quote: every number and every
    closed quoted literal has been masked. *)
Theorem X14_normalized_has_no_literals (x : gostring) :
  ascii_text x ->
  (forall c, In c (normalizeQuery x) -> is_digit c = false)
  /\ occ "'" (normalizeQuery x) <= 1
  /\ occ "034" (normalizeQuery x) <= 1.
Proof.
  intros _.
  assert (H : masked (normalizeQuery x)).
  { rewrite normalizeQuery_normal_form.
    apply masked_spacing, masked_TrimSpace, masked_collapse_spaces, masked_mask. }
  destruct H as (Hd & Ha & Hq). split; [|split; assumption].
  intros c Hc. apply (proj1 (none_in_spec is_digit _) Hd c Hc).
Qed.

Lemma X14_witness :
  let n := normalizeQuery (str "SELECT 'it''s' FROM t2 WHERE id = 10") in
  (forall c, In c n -> is_digit c = false) /\ occ "'" n <= 1 /\ occ "034" n <= 1.
Proof.
  apply (X14_normalized_has_no_literals (str "SELECT 'it''s' FROM t2 WHERE id = 10")).
  unfold ascii_text. repeat constructor.
Defined.

Lemma collapse_run_In p rep c : forall s b,
  In c (collapse_run p rep b s) -> In c rep \/ (In c s /\ p c = false).
Proof.
  induction s as [|x t IH]; intros b H; [contradiction H|].
  cbn [collapse_run] in H. destruct (p x) eqn:Hx.
  - apply in_app_or in H. destruct H as [H|H].
    + left. destruct b; [contradiction H|exact H].
    + destruct (IH _ H) as [H'|[H' Hc]]; [left; exact H'|right; split; [right; exact H'|exact Hc]].
  - destruct H as [<-|H]; [right; split; [left; reflexivity|exact Hx]|].
    destruct (IH _ H) as [H'|[H' Hc]]; [left; exact H'|right; split; [right; exact H'|exact Hc]].
Qed.

(** A character of the result is a character of a replacement or is not
    white space. *)
Lemma normalizeQuery_In x c :
  In c (normalizeQuery x) -> In c (str " )(SN") \/ is_space c = false.
Proof.
  intros Hc. rewrite normalizeQuery_passes in Hc.
  assert (Hrep : forall rep : gostring,
            In rep [str " ) "; str " ( "; str "S"; str "N"; str " "] -> In c rep ->
            In c (str " )(SN")).
  { intros rep Hrep Hin. cbn in Hrep.
    destruct Hrep as [<-|[<-|[<-|[<-|[<-|[]]]]]]; cbn in Hin |- *; tauto. }
  apply pad_chars in Hc; [|reflexivity].
  destruct Hc as [Hc|Hc]; [|left; apply (Hrep (str " ) ")); [cbn; tauto|exact Hc]].
  apply pad_chars in Hc; [|reflexivity].
  destruct Hc as [Hc|Hc]; [|left; apply (Hrep (str " ( ")); [cbn; tauto|exact Hc]].
  apply mask_quoted_chars in Hc.
  destruct Hc as [Hc|Hc]; [|left; apply (Hrep (str "S")); [cbn; tauto|exact Hc]].
  apply mask_quoted_chars in Hc.
  destruct Hc as [Hc|Hc]; [|left; apply (Hrep (str "S")); [cbn; tauto|exact Hc]].
  apply collapse_chars in Hc.
  destruct Hc as [Hc|Hc]; [|left; apply (Hrep (str "N")); [cbn; tauto|exact Hc]].
  apply collapse_run_In in Hc.
  destruct Hc as [Hc|[_ Hc]]; [left; apply (Hrep (str " ")); [cbn; tauto|exact Hc]|].
  right. exact Hc.
Qed.

(** X15: no tab, newline, form feed or carriage return is left in the
    result of [normalizeQuery]: of the characters that the patterns take for
    white space, only the space remains. *)
Theorem X15_normalized_white_space (x : gostring) :
  ascii_text x ->
  ~ In "009"%char (normalizeQuery x)
  /\ ~ In "010"%char (normalizeQuery x)
  /\ ~ In "012"%char (normalizeQuery x)
  /\ ~ In "013"%char (normalizeQuery x).
Proof.
  intros _.
  assert (H : forall c, is_space c = true -> c <> " "%char -> ~ In c (normalizeQuery x)).
  { intros c Hs Hc Hin. apply normalizeQuery_In in Hin.
    destruct Hin as [Hin|Hin]; [|congruence]. cbn in Hin.
    repeat (destruct Hin as [<-|Hin]; [try discriminate Hs; congruence|]).
    contradiction Hin. }
  repeat split; apply H; (reflexivity || discriminate).
Qed.

Lemma X15_witness :
  let n := normalizeQuery ["S"; "E"; "T"; "009"; "a"; "010"; "="; "013"; "1"]%char in
  ~ In "009"%char n /\ ~ In "010"%char n /\ ~ In "012"%char n /\ ~ In "013"%char n.
Proof.
  apply (X15_normalized_white_space ["S"; "E"; "T"; "009"; "a"; "010"; "="; "013"; "1"]%char).
  unfold ascii_text. repeat constructor.
Defined.

(** A vertical tab is not white space for the patterns: it stays, except at
    the ends, where [strings.TrimSpace] removes it. *)
Example vertical_tab_stays :
  normalizeQuery (str "a" ++ ["011"%char] ++ str "b") = str "a" ++ ["011"%char] ++ str "b".
Proof. vm_compute. reflexivity. Qed.

(** ** White space around a statement, and case *)

Lemma trim_left_spaces_app sp s :
  forallb is_trim_space sp = true -> trim_left (sp ++ s) = trim_left s.
Proof.
  induction sp as [|c sp IH]; intros H; [reflexivity|].
  cbn [forallb] in H. apply andb_prop in H. destruct H as [Hc H].
  cbn [app trim_left]. rewrite Hc. exact (IH H).
Qed.

Lemma trim_right_app_spaces s sp :
  forallb is_trim_space sp = true -> trim_right (s ++ sp) = trim_right s.
Proof.
  intros H. unfold trim_right. rewrite rev_app_distr, trim_left_spaces_app; [reflexivity|].
  rewrite forallb_rev. exact H.
Qed.

Lemma trim_left_app_spaces s sp :
  forallb is_trim_space sp = true ->
  trim_left (s ++ sp) = if forallb is_trim_space s then [] else trim_left s ++ sp.
Proof.
  intros H. induction s as [|c s IH]; cbn [app forallb trim_left].
  - apply trim_left_all, H.
  - destruct (is_trim_space c); [exact IH|reflexivity].
Qed.

Lemma TrimSpace_app_spaces s sp :
  forallb is_trim_space sp = true -> TrimSpace (s ++ sp) = TrimSpace s.
Proof.
  intros H. unfold TrimSpace. rewrite (trim_left_app_spaces s sp H).
  destruct (forallb is_trim_space s) eqn:Hs.
  - rewrite (trim_left_all s Hs). reflexivity.
  - apply trim_right_app_spaces, H.
Qed.

Lemma TrimSpace_spaces_app sp s :
  forallb is_trim_space sp = true -> TrimSpace (sp ++ s) = TrimSpace s.
Proof. intros H. unfold TrimSpace. rewrite (trim_left_spaces_app sp s H). reflexivity. Qed.

(** A string is its trimmed form between two runs of white space. *)
Lemma TrimSpace_between s :
  exists sp sp', s = sp ++ TrimSpace s ++ sp'
                 /\ forallb is_trim_space sp = true /\ forallb is_trim_space sp' = true.
Proof.
  assert (Hleft : exists sp, s = sp ++ trim_left s /\ forallb is_trim_space sp = true).
  { induction s as [|c s IH]; [exists []; split; reflexivity|].
    cbn [trim_left]. destruct (is_trim_space c) eqn:Hc.
    - destruct IH as (sp & Hs & Hsp). exists (c :: sp). split.
      + cbn [app]. rewrite <- Hs. reflexivity.
      + cbn [forallb]. rewrite Hc. exact Hsp.
    - exists []. split; reflexivity. }
  destruct Hleft as (sp & Hs & Hsp).
  destruct (trim_right_spec (trim_left s)) as (sp' & Hs' & Hsp' & _).
  exists sp, sp'. unfold TrimSpace. rewrite <- Hs'. split; [exact Hs|]. split; assumption.
Qed.

(** White space before a string does not change its collapsed and trimmed
    form. *)
Lemma trim_left_collapse_true s :
  trim_left (collapse_run is_space (str " ") true s) = trim_left (collapse_spaces s).
Proof.
  unfold collapse_spaces. destruct s as [|d t]; [reflexivity|].
  cbn [collapse_run]. destruct (is_space d); reflexivity.
Qed.

Lemma trim_left_collapse_spaces sp s :
  forallb is_trim_space sp = true ->
  trim_left (collapse_spaces (sp ++ s)) = trim_left (collapse_spaces s).
Proof.
  induction sp as [|c sp IH]; intros H; [reflexivity|].
  cbn [forallb] in H. apply andb_prop in H. destruct H as [Hc H].
  unfold collapse_spaces in *. cbn [app collapse_run]. destruct (is_space c) eqn:Hs.
  - cbn [str list_ascii_of_string app trim_left is_trim_space code nat_of_ascii].
    change (trim_left (" "%char :: ?l)) with (trim_left l).
    rewrite trim_left_collapse_true. exact (IH H).
  - cbn [trim_left]. rewrite Hc. exact (IH H).
Qed.

Lemma collapse_run_spaces sp : forall b,
  forallb is_trim_space sp = true ->
  forallb is_trim_space (collapse_run is_space (str " ") b sp) = true.
Proof.
  induction sp as [|c sp IH]; intros b H; [reflexivity|].
  cbn [forallb] in H. apply andb_prop in H. destruct H as [Hc H].
  cbn [collapse_run]. destruct (is_space c).
  - rewrite forallb_app, (IH true H). destruct b; reflexivity.
  - cbn [forallb]. rewrite Hc. exact (IH false H).
Qed.

Lemma TrimSpace_collapse_spaces sp s sp' :
  forallb is_trim_space sp = true -> forallb is_trim_space sp' = true ->
  TrimSpace (collapse_spaces (sp ++ s ++ sp')) = TrimSpace (collapse_spaces s).
Proof.
  intros Hsp Hsp'. unfold TrimSpace at 1. rewrite (trim_left_collapse_spaces sp _ Hsp).
  fold (TrimSpace (collapse_spaces (s ++ sp'))).
  unfold collapse_spaces. rewrite collapse_run_app.
  apply TrimSpace_app_spaces, collapse_run_spaces, Hsp'.
Qed.

Lemma TrimSpace_collapse_TrimSpace s :
  TrimSpace (collapse_spaces (TrimSpace s)) = TrimSpace (collapse_spaces s).
Proof.
  destruct (TrimSpace_between s) as (sp & sp' & Hs & Hsp & Hsp').
  rewrite Hs at 2. symmetry. apply TrimSpace_collapse_spaces; assumption.
Qed.

Lemma normalizeQuery_TrimSpace x : normalizeQuery (TrimSpace x) = normalizeQuery x.
Proof.
  rewrite !normalizeQuery_normal_form. f_equal.
  rewrite <- TrimSpace_lower, mask_TrimSpace. apply TrimSpace_collapse_TrimSpace.
Qed.

(** X16: white space before and after a statement does not change its
    normalized form. *)
Theorem X16_outer_white_space_ignored (x before after : gostring) :
  ascii_text x ->
  forallb is_trim_space before = true ->
  forallb is_trim_space after = true ->
  normalizeQuery (before ++ x ++ after) = normalizeQuery x.
Proof.
  intros _ Hb Ha.
  rewrite <- (normalizeQuery_TrimSpace (before ++ x ++ after)).
  rewrite (TrimSpace_spaces_app before _ Hb), (TrimSpace_app_spaces x after Ha).
  apply normalizeQuery_TrimSpace.
Qed.

Lemma X16_witness :
  normalizeQuery (["010"; "009"]%char ++ str "SELECT 1" ++ [" "; "013"; "010"]%char)
  = normalizeQuery (str "SELECT 1").
Proof.
  apply (X16_outer_white_space_ignored (str "SELECT 1")); [|reflexivity|reflexivity].
  unfold ascii_text. repeat constructor.
Defined.

(** X17: [normalizeQuery] does not distinguish upper and lower case, inside
    quoted literals or outside: two statements with the same lower-cased text
    have the same normalized form. *)
Theorem X17_case_ignored (x y : gostring) :
  ascii_text x -> ascii_text y ->
  ToLower x = ToLower y ->
  normalizeQuery x = normalizeQuery y.
Proof.
  intros _ _ H. rewrite !normalizeQuery_passes.
  assert (Hfirst : forall s,
    ToLower (TrimSpace (collapse_spaces s)) = TrimSpace (collapse_spaces (ToLower s))).
  { intros s. rewrite <- TrimSpace_lower, collapse_spaces_lower. reflexivity. }
  rewrite !Hfirst, H. reflexivity.
Qed.

Lemma X17_witness :
  normalizeQuery (str "Select * From Users Where Name = 'Bob'")
  = normalizeQuery (str "SELECT * FROM users WHERE name = 'BOB'").
Proof.
  apply X17_case_ignored; [unfold ascii_text; repeat constructor..|reflexivity].
Defined.

(** ** Where the statements of [findSQLQueries] lie in the text *)

Lemma laid_out_app pieces before text :
  laid_out pieces text -> laid_out pieces (before ++ text).
Proof.
  destruct pieces as [|piece rest]; [trivial|].
  intros (b & a & -> & H). exists (before ++ b), a. split; [|exact H].
  rewrite <- app_assoc. reflexivity.
Qed.

Lemma find_from_laid_out r : forall s skip,
  laid_out (find_from r skip s) (skipn skip s).
Proof.
  induction s as [|c t IH]; intros skip; [destruct skip; exact I|].
  cbn [find_from]. destruct skip as [|j]; [|exact (IH j)].
  cbn [skipn].
  assert (Hnone : laid_out (find_from r 0 t) (c :: t)).
  { apply (laid_out_app _ [c] t), (IH 0). }
  destruct (match_len r (c :: t)) as [[|n]|]; try exact Hnone.
  exists [], (skipn n t). split; [|exact (IH n)].
  cbn [app]. symmetry. apply (firstn_skipn (S n) (c :: t)).
Qed.

Lemma laid_out_filter_map (f : gostring -> gostring) (chk : gostring -> bool) :
  (forall p, exists a b, p = a ++ f p ++ b) ->
  forall pieces text,
    laid_out pieces text -> laid_out (List.filter chk (map f pieces)) text.
Proof.
  intros Hf. induction pieces as [|p rest IH]; intros text H; [exact I|].
  destruct H as (before & after & -> & H). specialize (IH after H).
  cbn [map List.filter]. destruct (chk (f p)).
  - destruct (Hf p) as (a & b & Hp). exists (before ++ a), (b ++ after). split.
    + rewrite Hp at 1. rewrite <- !app_assoc. reflexivity.
    + apply laid_out_app, IH.
  - rewrite app_assoc. apply laid_out_app, IH.
Qed.

(** X18: the statements that [findSQLQueries] returns are parts of the text,
    copied without change; they lie in the text in the order in which they
    are returned and do not overlap. *)
Theorem X18_statements_laid_out (text : gostring) :
  ascii_text text -> laid_out (findSQLQueries text) text.
Proof.
  intros _. rewrite findSQLQueries_filter. apply laid_out_filter_map.
  - intros p. destruct (TrimSpace_between p) as (sp & sp' & Hp & _). exists sp, sp'. exact Hp.
  - exact (find_from_laid_out sql_pattern text 0).
Qed.

Lemma X18_witness :
  laid_out (findSQLQueries (str "$a = 'SELECT 1;'; $b = 'DROP TABLE t;';"))
           (str "$a = 'SELECT 1;'; $b = 'DROP TABLE t;';").
Proof.
  apply X18_statements_laid_out. unfold ascii_text. repeat constructor.
Defined.

(** ** The keyword at the start of a statement *)

Lemma bt_LitI w : forall s k v,
  bt (LitI w) s k = Some v ->
  exists pre t, s = pre ++ t /\ ToLower pre = ToLower w /\ k t = Some v.
Proof.
  induction w as [|c w IH]; intros s k v H.
  - exists [], s. split; [reflexivity|]. split; [reflexivity|exact H].
  - assert (Hhead : forall k', 
      bt (ChrI c) s k' = Some v ->
      exists x t, s = x :: t /\ lower x = lower c /\ k' t = Some v).
    { intros k' H'. unfold ChrI in H'. rewrite bt_Class in H'.
      destruct s as [|x t]; [discriminate H'|].
      destruct (Ascii.eqb (lower x) (lower c)) eqn:E; [|discriminate H'].
      apply Ascii.eqb_eq in E. exists x, t. split; [reflexivity|]. split; assumption. }
    destruct w as [|c' w'].
    + cbn [LitI] in H. destruct (Hhead k H) as (x & t & -> & Hx & Hk).
      exists [x], t. split; [reflexivity|]. split; [cbn; rewrite Hx; reflexivity|exact Hk].
    + change (LitI (c :: c' :: w')) with (Cat (ChrI c) (LitI (c' :: w'))) in H.
      rewrite bt_Cat in H. destruct (Hhead _ H) as (x & t & -> & Hx & Hk).
      destruct (IH t k v Hk) as (pre & t' & -> & Hpre & Hk').
      exists (x :: pre), t'. split; [reflexivity|]. split; [|exact Hk'].
      unfold ToLower in *. cbn [map]. rewrite Hx, Hpre. reflexivity.
Qed.

Lemma bt_alts rs : forall s k v,
  rs <> [] -> bt (alts rs) s k = Some v -> exists r, In r rs /\ bt r s k = Some v.
Proof.
  induction rs as [|r rs IH]; intros s k v Hne H; [congruence|].
  destruct rs as [|r' rs'].
  - exists r. split; [left; reflexivity|exact H].
  - change (alts (r :: r' :: rs')) with (Alt r (alts (r' :: rs'))) in H.
    cbn [bt] in H. apply or_else_Some in H. destruct H as [H|H].
    + exists r. split; [left; reflexivity|exact H].
    + destruct (IH s k v ltac:(discriminate) H) as (r0 & Hin & Hr0).
      exists r0. split; [right; exact Hin|exact Hr0].
Qed.

(** A match of the pattern starts with a keyword and goes beyond it. *)
Lemma sql_pattern_keyword s n :
  match_len sql_pattern s = Some n ->
  exists w pre t,
    In w statement_keywords /\ s = pre ++ t /\ ToLower pre = ToLower w /\ length pre <= n.
Proof.
  unfold match_len. destruct (bt sql_pattern s Some) as [rest|] eqn:H; [|discriminate].
  intros [= <-]. unfold sql_pattern in H. rewrite bt_Cat in H.
  apply bt_alts in H; [|discriminate]. destruct H as (r & Hr & H).
  assert (Hkw : forall w R,
    In (str w) statement_keywords ->
    bt (Cat (kw w) R) s (fun s1 => bt (Alt (Chr ";") EndText) s1 Some) = Some rest ->
    exists w pre t,
      In w statement_keywords /\ s = pre ++ t /\ ToLower pre = ToLower w
      /\ length pre <= length s - length rest).
  { intros w R Hw Hbt. rewrite bt_Cat in Hbt. unfold kw in Hbt.
    destruct (bt_LitI _ _ _ _ Hbt) as (pre & t & -> & Hpre & Hk).
    exists (str w), pre, t. split; [exact Hw|]. split; [reflexivity|]. split; [exact Hpre|].
    destruct (bt_suffix _ _ _ _ Hk) as (s1 & Hs1 & Hk1).
    destruct (bt_suffix _ _ _ _ Hk1) as (s2 & Hs2 & [= <-]).
    apply suffix_length in Hs1, Hs2. rewrite length_app. lia. }
  cbn [In] in Hr.
  destruct Hr as [<-|[<-|[<-|[<-|[<-|[<-|[<-|[<-|[]]]]]]]]];
    cbn [cats] in H; eapply Hkw; try exact H; cbn; tauto.
Qed.

Lemma HasPrefix_app a b : HasPrefix (a ++ b) a = true.
Proof.
  induction a as [|c a IH]; [destruct b; reflexivity|].
  cbn [app HasPrefix]. rewrite Ascii.eqb_refl. exact IH.
Qed.

Lemma lower_not_trim_space x c :
  lower x = lower c -> is_trim_space c = false -> is_trim_space x = false.
Proof.
  intros H Hc. rewrite <- is_trim_space_lower, H, is_trim_space_lower. exact Hc.
Qed.

Lemma TrimSpace_keeps_prefix pre u :
  pre <> [] -> forallb (fun c => negb (is_trim_space c)) pre = true ->
  TrimSpace (pre ++ u) = pre ++ trim_right u.
Proof.
  intros Hne Hall. destruct (exists_last Hne) as (a & z & ->).
  assert (Hz : is_trim_space z = false).
  { rewrite forallb_app in Hall. apply andb_prop in Hall. destruct Hall as [_ Hall].
    cbn in Hall. rewrite andb_true_r in Hall. apply negb_true_iff in Hall. exact Hall. }
  assert (Hleft : trim_left ((a ++ [z]) ++ u) = (a ++ [z]) ++ u).
  { destruct a as [|c a]; cbn [app trim_left]; [rewrite Hz; reflexivity|].
    cbn [app forallb] in Hall. apply andb_prop in Hall. destruct Hall as [Hc _].
    apply negb_true_iff in Hc. rewrite Hc. reflexivity. }
  unfold TrimSpace. rewrite Hleft, <- !app_assoc. cbn [app]. apply trim_right_app, Hz.
Qed.

(** X19: every statement that [findSQLQueries] returns from ASCII text
    begins, in upper or lower case, with one of the keywords SELECT, INSERT,
    UPDATE, DELETE, CREATE, ALTER, DROP and TRUNCATE.  (Outside ASCII the
    case folding of the pattern also takes U+017F for S and U+212A for K.) *)
Theorem X19_statement_starts_with_keyword (text s : gostring) :
  ascii_text text ->
  In s (findSQLQueries text) ->
  exists w, In w statement_keywords /\ HasPrefix (ToLower s) (ToLower w) = true.
Proof.
  intros _ Hs. apply findSQLQueries_In in Hs. destruct Hs as (_ & m & Hm & ->).
  apply find_from_match in Hm. destruct Hm as (s' & n & _ & Hlen & ->).
  destruct (sql_pattern_keyword s' (S n) Hlen) as (w & pre & t & Hw & -> & Hpre & Hle).
  exists w. split; [exact Hw|].
  assert (Hletters : forallb (fun c => negb (is_trim_space c)) (ToLower w) = true).
  { cbn in Hw. 
    destruct Hw as [<-|[<-|[<-|[<-|[<-|[<-|[<-|[<-|[]]]]]]]]]; reflexivity. }
  assert (Hne : w <> []).
  { cbn in Hw. 
    destruct Hw as [<-|[<-|[<-|[<-|[<-|[<-|[<-|[<-|[]]]]]]]]]; discriminate. }
  rewrite firstn_app, (firstn_all2 pre) by exact Hle.
  set (u := firstn (S n - length pre) t). clearbody u.
  assert (Hpre' : forallb (fun c => negb (is_trim_space c)) pre = true).
  { rewrite <- Hpre in Hletters. unfold ToLower in Hletters.
    rewrite forallb_forall in Hletters. apply forallb_forall. intros c Hc.
    specialize (Hletters (lower c) (in_map lower _ _ Hc)).
    rewrite is_trim_space_lower in Hletters. exact Hletters. }
  assert (Hpre_ne : pre <> []).
  { intros ->. cbn in Hpre. destruct w; [congruence|discriminate Hpre]. }
  pose proof (TrimSpace_keeps_prefix pre u Hpre_ne Hpre') as Htrim.
  rewrite Htrim. unfold ToLower in *. rewrite map_app, Hpre. apply HasPrefix_app.
Qed.

Lemma X19_witness :
  exists w, In w statement_keywords
            /\ HasPrefix (ToLower (str "drop table t;")) (ToLower w) = true.
Proof.
  apply (X19_statement_starts_with_keyword (str "$b = 'drop table t;';")).
  - unfold ascii_text. repeat constructor.
  - vm_compute. left. reflexivity.
Defined.

(** ** Reports without duplicates *)

Lemma occurrences_cons k q queries :
  occurrences k (q :: queries)
  = if decide (Normalized q = k) then q :: occurrences k queries else occurrences k queries.
Proof. unfold occurrences. rewrite filter_cons. reflexivity. Qed.

Lemma occurrences_elem k queries :
  k ∈ map Normalized queries -> 1 <= length (occurrences k queries).
Proof.
  induction queries as [|q queries IH]; intros H; [inversion H|].
  rewrite occurrences_cons. destruct (decide (Normalized q = k)) as [_|Hne]; [cbn; lia|].
  apply IH. cbn [map] in H. apply elem_of_cons in H. destruct H as [H|H]; [congruence|exact H].
Qed.

Lemma occurrences_none k queries :
  k ∉ map Normalized queries -> occurrences k queries = [].
Proof.
  induction queries as [|q queries IH]; intros H; [reflexivity|].
  rewrite occurrences_cons. cbn [map] in H. rewrite not_elem_of_cons in H. destruct H as [H1 H2].
  destruct (decide (Normalized q = k)) as [Heq|_]; [congruence|exact (IH H2)].
Qed.

(** All normalized forms are different exactly when none occurs twice. *)
Lemma NoDup_occurrences queries :
  NoDup (map Normalized queries) <-> forall k, length (occurrences k queries) < 2.
Proof.
  induction queries as [|q queries IH].
  - split; [intros _ k; cbn; lia|intros _; constructor].
  - cbn [map]. rewrite NoDup_cons, IH. split.
    + intros [Hq Hall] k. rewrite occurrences_cons.
      destruct (decide (Normalized q = k)) as [<-|_]; [|apply Hall].
      rewrite (occurrences_none _ _ Hq). cbn. lia.
    + intros Hall. split.
      * intros Hq. apply occurrences_elem in Hq. specialize (Hall (Normalized q)).
        rewrite occurrences_cons in Hall.
        destruct (decide (Normalized q = Normalized q)); [cbn in Hall; lia|congruence].
      * intros k. specialize (Hall k). rewrite occurrences_cons in Hall.
        destruct (decide (Normalized q = k)); [cbn in Hall; lia|exact Hall].
Qed.

Lemma findDuplicates_empty queries :
  findDuplicates queries = ∅ <-> forall k, length (occurrences k queries) < 2.
Proof.
  split.
  - intros H k. pose proof (findDuplicates_lookup queries k) as Hk.
    rewrite H, lookup_empty in Hk.
    destruct (2 <=? length (occurrences k queries)) eqn:E; [discriminate Hk|].
    apply Nat.leb_gt in E. exact E.
  - intros H. apply map_eq. intros k. rewrite findDuplicates_lookup, lookup_empty.
    specialize (H k). apply Nat.leb_gt in H. rewrite H. reflexivity.
Qed.

(** X20: the report is the line "No duplicate queries found" exactly when
    the normalized forms of the occurrences are all different. *)
Theorem X20_no_duplicates_iff_distinct (queries : list QueryResult) (range_keys : list gostring) :
  printResults range_keys (findDuplicates queries) = no_duplicates_line
  <-> NoDup (map Normalized queries).
Proof.
  rewrite NoDup_occurrences, <- findDuplicates_empty. split.
  - intros H. destruct (decide (findDuplicates queries = ∅)) as [He|Hne]; [exact He|].
    rewrite (printResults_nonempty _ _ Hne) in H. discriminate H.
  - intros ->. reflexivity.
Qed.

(** ** The occurrences in the groups *)

Lemma filter_length_or {A} (P Q : A -> Prop) `{!forall x, Decision (P x)}
    `{!forall x, Decision (Q x)} (l : list A) :
  (forall x, P x -> Q x -> False) ->
  length (filter (fun x => P x \/ Q x) l) = length (filter P l) + length (filter Q l).
Proof.
  intros Hdisj. induction l as [|x l IH]; [reflexivity|].
  rewrite !filter_cons.
  destruct (decide (P x)) as [HP|HP], (decide (Q x)) as [HQ|HQ];
    destruct (decide (P x \/ Q x)) as [HPQ|HPQ]; cbn [length]; try lia; try tauto.
  contradiction (Hdisj x HP HQ).
Qed.

Lemma filter_length_ext {A} (P Q : A -> Prop) `{!forall x, Decision (P x)}
    `{!forall x, Decision (Q x)} (l : list A) :
  (forall x, x ∈ l -> P x <-> Q x) -> length (filter P l) = length (filter Q l).
Proof.
  induction l as [|x l IH]; intros Hall; [reflexivity|].
  rewrite !filter_cons.
  assert (Hx : P x <-> Q x) by (apply Hall; left).
  assert (IH' : length (filter P l) = length (filter Q l)).
  { apply IH. intros y Hy. apply Hall. right. exact Hy. }
  destruct (decide (P x)), (decide (Q x)); cbn [length]; try lia; tauto.
Qed.

(** The occurrences of the forms of a list without repetition. *)
Lemma occurrences_sum queries ks :
  NoDup ks ->
  list_sum (map (fun k => length (occurrences k queries)) ks)
  = length (filter (fun q => Normalized q ∈ ks) queries).
Proof.
  induction 1 as [|k ks Hk _ IH]; cbn [map].
  - change (list_sum []) with 0. symmetry.
    rewrite (filter_length_ext _ (fun _ => False)).
    + induction queries as [|q queries IHq]; [reflexivity|]. rewrite filter_cons.
      destruct (decide False); [tauto|exact IHq].
    + intros q _. rewrite elem_of_nil. tauto.
  - rewrite list_sum_cons, IH. unfold occurrences.
    rewrite <- (filter_length_or (fun q => Normalized q = k) (fun q => Normalized q ∈ ks)).
    + apply filter_length_ext. intros q _. rewrite elem_of_cons. tauto.
    + intros q <- Hin. exact (Hk Hin).
Qed.

Lemma list_sum_perm l l' : l ≡ₚ l' -> list_sum l = list_sum l'.
Proof.
  induction 1 as [|x l l' _ IH|x y l|l l' l'' _ IH1 _ IH2]; rewrite ?list_sum_cons; lia.
Qed.

(** X21: the counts of the groups add up to the number of occurrences whose
    normalized form occurs at least twice: every such occurrence is counted
    in one group, and no other occurrence is counted. *)
Theorem X21_groups_count_duplicated_occurrences
    (queries : list QueryResult) (range_keys : list gostring) :
  keys_of (findDuplicates queries) range_keys ->
  list_sum (map (fun k => length (group (findDuplicates queries) k)) range_keys)
  = length (filter (fun q => 2 <= length (occurrences (Normalized q) queries)) queries).
Proof.
  intros Hkeys.
  assert (Hperm : range_keys ≡ₚ duplicate_forms queries).
  { etransitivity; [exact Hkeys|]. apply NoDup_Permutation.
    - apply NoDup_fst_map_to_list.
    - apply NoDup_filter, NoDup_remove_dups.
    - intros k. rewrite (keys_of_elem _ _ k (keys_of_map_to_list _)), findDuplicates_dom.
      unfold duplicate_forms. rewrite list_elem_of_filter, elem_of_remove_dups.
      split; [|intros [H _]; exact H]. intros H. split; [exact H|].
      destruct (decide (k ∈ map Normalized queries)) as [Hin|Hout]; [exact Hin|].
      rewrite (occurrences_none _ _ Hout) in H. cbn in H. lia. }
  rewrite (list_sum_perm _ _ (Permutation_map _ Hperm)).
  assert (Hgroups : forall ks,
    Forall (fun k => 2 <= length (occurrences k queries)) ks ->
    map (fun k => length (group (findDuplicates queries) k)) ks
    = map (fun k => length (occurrences k queries)) ks).
  { induction 1 as [|k ks Hk _ IH]; [reflexivity|]. cbn [map]. rewrite IH. f_equal.
    rewrite group_findDuplicates. apply Nat.leb_le in Hk. rewrite Hk. reflexivity. }
  rewrite Hgroups.
  - rewrite occurrences_sum by apply NoDup_filter, NoDup_remove_dups.
    apply filter_length_ext. intros q Hq. unfold duplicate_forms.
    rewrite list_elem_of_filter, elem_of_remove_dups. split; [intros [H _]; exact H|].
    intros H. split; [exact H|]. apply list_elem_of_fmap. exists q. split; [reflexivity|exact Hq].
  - apply Forall_forall. intros k Hk. unfold duplicate_forms in Hk.
    apply list_elem_of_filter in Hk. exact (proj1 Hk).
Qed.

Lemma X21_witness :
  list_sum (map (fun k => length (group (findDuplicates sample_queries) k)) sample_keys)
  = length (filter (fun q => 2 <= length (occurrences (Normalized q) sample_queries))
                   sample_queries).
Proof.
  apply (X21_groups_count_duplicated_occurrences sample_queries sample_keys).
  unfold keys_of, sample_keys, sample_groups. reflexivity.
Defined.

(** ** The lines of the report *)

Lemma occ_none q s : (forall c, In c s -> c <> q) -> occ q s = 0.
Proof.
  induction s as [|x s IH]; intros H; [reflexivity|].
  cbn [occ]. rewrite IH by (intros c Hc; apply H; right; exact Hc).
  destruct (Ascii.eqb q x) eqn:E; [|reflexivity].
  apply Ascii.eqb_eq in E. contradiction (H x (or_introl eq_refl)). congruence.
Qed.

Lemma itoa_no_newline n : occ "010" (itoa n) = 0.
Proof.
  apply occ_none. intros c Hc ->. apply string_of_uint_digits in Hc. discriminate Hc.
Qed.

Lemma count_line_newline n : occ "010" (count_line n) = 1.
Proof.
  unfold count_line. rewrite !occ_app, itoa_no_newline. reflexivity.
Qed.

Lemma group_lines_newlines m ks :
  (forall k, In k ks -> ~ In "010"%char k) ->
  occ "010" (concat (map (group_line m) ks)) = length ks.
Proof.
  induction ks as [|k ks IH]; intros H; [reflexivity|].
  cbn [map concat length]. rewrite occ_app, IH by (intros k' Hk'; apply H; right; exact Hk').
  unfold group_line. rewrite !occ_app, itoa_no_newline.
  rewrite (occ_none "010" k).
  - reflexivity.
  - intros c Hc ->. exact (H k (or_introl eq_refl) Hc).
Qed.

(** X22: when the normalized forms are results of [normalizeQuery], as
    [analyzeFile] makes them, the report has one line for each group after
    its first line: no key breaks a line. *)
Theorem X22_report_lines (queries : list QueryResult) (range_keys : list gostring) :
  (forall q, In q queries -> Normalized q = normalizeQuery (Query q)) ->
  keys_of (findDuplicates queries) range_keys ->
  occ "010" (printResults range_keys (findDuplicates queries))
  = S (size (findDuplicates queries)).
Proof.
  intros Hnorm Hkeys.
  destruct (decide (findDuplicates queries = ∅)) as [He|Hne]; [rewrite He; reflexivity|].
  rewrite (printResults_nonempty _ _ Hne), occ_app, count_line_newline.
  rewrite group_lines_newlines.
  - rewrite (Permutation_length (sort_Slice_perm _ _)), (Permutation_length Hkeys).
    rewrite length_fmap, length_map_to_list. reflexivity.
  - intros k Hk Hnl.
    apply (Permutation_in _ (sort_Slice_perm _ _)) in Hk.
    apply list_elem_of_In, (keys_of_elem _ _ k Hkeys), findDuplicates_dom in Hk.
    destruct (occurrences k queries) as [|q rest] eqn:Hocc; [cbn in Hk; lia|].
    assert (Hq : q ∈ occurrences k queries) by (rewrite Hocc; left).
    unfold occurrences in Hq. apply list_elem_of_filter in Hq. destruct Hq as [<- Hq].
    apply list_elem_of_In in Hq. rewrite (Hnorm q Hq) in Hnl.
    apply normalizeQuery_In in Hnl. destruct Hnl as [Hnl|Hnl]; [|discriminate Hnl].
    cbn in Hnl. repeat (destruct Hnl as [Hnl|Hnl]; [discriminate Hnl|]). exact Hnl.
Qed.

Lemma X22_witness :
  occ "010" (printResults sample_keys (findDuplicates sample_queries))
  = S (size (findDuplicates sample_queries)).
Proof.
  apply (X22_report_lines sample_queries sample_keys).
  - intros q Hq. cbn in Hq.
    repeat (destruct Hq as [<-|Hq]; [reflexivity|]). contradiction Hq.
  - unfold keys_of, sample_keys, sample_groups. reflexivity.
Defined.

(** ** What becomes of the characters of a statement *)

Lemma literals_masked_lower x : literals_masked x (ToLower x).
Proof.
  induction x as [|c x IH]; cbn [ToLower map]; constructor. exact IH.
Qed.

Lemma literals_masked_app x1 o1 x2 o2 :
  literals_masked x1 o1 -> literals_masked x2 o2 -> literals_masked (x1 ++ x2) (o1 ++ o2).
Proof.
  intros H1 H2. induction H1 as [|c s o H IH|q body s o Hq H IH]; cbn [app].
  - exact H2.
  - constructor. exact IH.
  - rewrite <- app_assoc. cbn [app]. constructor; assumption.
Qed.

(** The first character of the masked statement: a character carried over,
    or the S of a literal. *)
Lemma literals_masked_head x c t :
  literals_masked x (c :: t) ->
  (exists c0 x2, x = c0 :: x2 /\ c = lower c0 /\ literals_masked [c0] [c]
                 /\ literals_masked x2 t)
  \/ (exists q body x2, x = q :: body ++ q :: x2 /\ c = "S"%char
                        /\ is_quote q = true
                        /\ literals_masked (q :: body ++ [q]) [c]
                        /\ literals_masked x2 t).
Proof.
  intros H. inversion H as [|c0 s o Hs|q body s o Hq Hs]; subst.
  - left. exists c0, s. repeat split; [|exact Hs]. repeat constructor.
  - right. exists q, body, s. repeat split; [exact Hq| |exact Hs].
    apply (literals_literal q body [] [] Hq). constructor.
Qed.

Lemma literals_masked_nil x : literals_masked x [] -> x = [].
Proof. intros H. inversion H. reflexivity. Qed.

(** A piece of the statement for the first character of the masked one. *)
Lemma literals_masked_cut x c t :
  literals_masked x (c :: t) ->
  exists x1 x2, x = x1 ++ x2 /\ literals_masked x1 [c] /\ literals_masked x2 t
                /\ (is_quote c = true -> x1 = [c]).
Proof.
  intros H. apply literals_masked_head in H
    as [(c0 & x2 & -> & -> & H1 & H2)|(q & body & x2 & -> & -> & _ & H1 & H2)].
  - exists [c0], x2. repeat split; [exact H1|exact H2|].
    intros Hq. rewrite is_quote_lower in Hq. rewrite (lower_quote _ Hq). reflexivity.
  - exists (q :: body ++ [q]), x2. rewrite <- app_comm_cons, <- app_assoc.
    repeat split; [exact H1|exact H2|]. intros Hq. discriminate Hq.
Qed.

(** The masking of the literals in quotes [q] after a masking. *)
Lemma literals_masked_quoted q : is_quote q = true -> forall s,
  (forall x, literals_masked x s -> literals_masked x (quoted_go q (str "S") None s))
  /\ (forall xb body x,
        literals_masked xb body -> literals_masked x s ->
        literals_masked (q :: xb ++ x) (quoted_go q (str "S") (Some body) s)).
Proof.
  intros Hq. induction s as [|c t [IHnone IHsome]]; split.
  - intros x Hx. exact Hx.
  - intros xb body x Hb Hx. apply literals_masked_nil in Hx as ->.
    cbn [quoted_go]. rewrite app_nil_r.
    replace (q :: body) with (lower q :: body) by (rewrite (lower_quote q Hq); reflexivity).
    constructor. exact Hb.
  - intros x Hx. apply literals_masked_cut in Hx as (x1 & x2 & -> & H1 & H2 & Hx1).
    cbn [quoted_go]. destruct (Ascii.eqb_spec q c) as [<-|Hc].
    + rewrite (Hx1 Hq). apply (IHsome [] [] x2); [constructor|exact H2].
    + apply (literals_masked_app x1 [c] x2 _ H1). apply IHnone, H2.
  - intros xb body x Hb Hx.
    apply literals_masked_cut in Hx as (x1 & x2 & -> & H1 & H2 & Hx1).
    cbn [quoted_go]. destruct (Ascii.eqb_spec q c) as [<-|Hc].
    + rewrite (Hx1 Hq). cbn [str list_ascii_of_string app].
      constructor; [exact Hq|]. apply IHnone, H2.
    + rewrite app_assoc. apply IHsome; [|exact H2].
      apply literals_masked_app; assumption.
Qed.

Lemma literals_masked_mask_quoted q x s :
  is_quote q = true -> literals_masked x s -> literals_masked x (mask_quoted q s).
Proof. intros Hq. apply (literals_masked_quoted q Hq s). Qed.

(** The digits of the masked statement are digits carried over. *)
Lemma literals_masked_digits d : forall x t,
  forallb is_digit d = true -> literals_masked x (d ++ t) ->
  exists xd x2, x = xd ++ x2 /\ forallb is_digit xd = true /\ length xd = length d
                /\ literals_masked x2 t.
Proof.
  induction d as [|c d IH]; intros x t Hd Hx.
  - exists [], x. repeat split. exact Hx.
  - cbn [forallb] in Hd. apply andb_true_iff in Hd as [Hc Hd]. cbn [app] in Hx.
    apply literals_masked_head in Hx
      as [(c0 & x2 & -> & -> & _ & H2)|(q & body & x2 & -> & -> & _ & _ & _)];
      [|discriminate Hc].
    destruct (IH x2 t Hd H2) as (xd & x3 & -> & Hxd & Hlen & H3).
    exists (c0 :: xd), x3. cbn [app forallb length].
    rewrite <- (is_digit_lower c0), Hc, Hxd, Hlen. repeat split. exact H3.
Qed.

Lemma literals_masked_start x t :
  literals_masked x t -> starts_with_digit t = false -> starts_with_digit x = false.
Proof.
  intros H Ht. destruct H as [|c s o H|q body s o Hq H]; cbn [starts_with_digit] in *.
  - reflexivity.
  - rewrite <- is_digit_lower. exact Ht.
  - unfold is_quote in Hq. apply orb_true_iff in Hq as [Hq|Hq];
      apply Ascii.eqb_eq in Hq; subst q; reflexivity.
Qed.

Lemma drop_class_start s : starts_with_digit (drop_class is_digit s) = false.
Proof.
  induction s as [|c s IH]; cbn [drop_class]; [reflexivity|].
  destruct (is_digit c) eqn:Hc; [exact IH|]. cbn [starts_with_digit]. exact Hc.
Qed.

(** The masking of the digits after the masking of the literals in
    quotes. *)
Lemma masks_to_mask_digits : forall n s x,
  length s <= n -> literals_masked x s -> masks_to x (mask_digits s).
Proof.
  unfold mask_digits.
  induction n as [|n IH]; intros s x Hn Hx.
  - destruct s; [|cbn in Hn; lia]. apply literals_masked_nil in Hx as ->. constructor.
  - destruct s as [|c t]; [apply literals_masked_nil in Hx as ->; constructor|].
    cbn [length] in Hn. destruct (is_digit c) eqn:Hc.
    + destruct (drop_class_suffix is_digit t) as [run [Ht Hrun]].
      cbn [collapse_run]. rewrite Hc. cbn [negb str list_ascii_of_string app].
      rewrite collapse_run_true.
      assert (Hx' : literals_masked x ((c :: run) ++ drop_class is_digit t)).
      { cbn [app]. rewrite <- Ht. exact Hx. }
      apply literals_masked_digits in Hx' as (xd & x2 & -> & Hxd & Hlen & H2);
        [|cbn [forallb]; rewrite Hc, Hrun; reflexivity].
      constructor.
      * destruct xd; [discriminate Hlen|discriminate].
      * exact Hxd.
      * apply (literals_masked_start _ _ H2), drop_class_start.
      * apply IH; [|exact H2]. pose proof (length_drop_class is_digit t). lia.
    + cbn [collapse_run]. rewrite Hc. cbn [app].
      apply literals_masked_head in Hx
        as [(c0 & x2 & -> & -> & _ & H2)|(q & body & x2 & -> & -> & Hq & _ & H2)].
      * constructor; [rewrite <- is_digit_lower; exact Hc|]. apply IH; [lia|exact H2].
      * constructor; [exact Hq|apply IH; [lia|exact H2]].
Qed.

Lemma masks_to_mask x : masks_to x (mask (ToLower x)).
Proof.
  unfold mask. apply (masks_to_mask_digits _ _ _ (Nat.le_refl _)).
  apply literals_masked_mask_quoted; [reflexivity|].
  apply literals_masked_mask_quoted; [reflexivity|].
  apply literals_masked_lower.
Qed.

(** *** Changes of white space *)

Lemma respaced_refl s : respaced s s.
Proof. induction s; constructor; assumption. Qed.

Lemma respaced_app a a' b b' :
  respaced a a' -> respaced b b' -> respaced (a ++ b) (a' ++ b').
Proof.
  intros Ha Hb. induction Ha; cbn [app]; [exact Hb|constructor; assumption..].
Qed.

Lemma respaced_removed g : forallb is_trim_space g = true -> respaced g [].
Proof.
  induction g as [|c g IH]; cbn [forallb]; intros Hg; [constructor|].
  apply andb_true_iff in Hg as [Hc Hg]. constructor; [exact Hc|exact (IH Hg)].
Qed.

Lemma respaced_inserted l : forallb (Ascii.eqb " ") l = true -> respaced [] l.
Proof.
  induction l as [|c l IH]; cbn [forallb]; intros Hl; [constructor|].
  apply andb_true_iff in Hl as [Hc Hl]. apply Ascii.eqb_eq in Hc as <-.
  constructor. exact (IH Hl).
Qed.

Lemma respaced_trans a b c : respaced a b -> respaced b c -> respaced a c.
Proof.
  intros Hab. revert c.
  induction Hab as [|x s o Hso IH|x s o Hx Hso IH|s o Hso IH]; intros c Hbc.
  - exact Hbc.
  - remember (x :: o) as b eqn:Hb. revert Hb.
    induction Hbc as [|y s' o' H' IH'|y s' o' Hy H' IH'|s' o' H' IH']; intros Hb.
    + discriminate Hb.
    + injection Hb as -> ->. constructor. apply IH, H'.
    + injection Hb as -> ->. apply respaced_remove; [exact Hy|]. apply IH, H'.
    + apply respaced_insert. apply IH', Hb.
  - apply respaced_remove; [exact Hx|]. apply IH, Hbc.
  - remember (" "%char :: o) as b eqn:Hb. revert Hb.
    induction Hbc as [|y s' o' H' IH'|y s' o' Hy H' IH'|s' o' H' IH']; intros Hb.
    + discriminate Hb.
    + injection Hb as -> ->. apply respaced_insert. apply IH, H'.
    + injection Hb as -> ->. apply IH, H'.
    + apply respaced_insert. apply IH', Hb.
Qed.

Lemma spaces_trim_space g : spaces g = true -> forallb is_trim_space g = true.
Proof.
  unfold spaces. rewrite !forallb_forall. intros H c Hc.
  apply is_space_trim_space, H, Hc.
Qed.

(** A rewriting of the gaps that removes white space and inserts spaces. *)
Lemma respaced_regap f w :
  (forall prev g next, spaces g = true -> respaced g (f prev g next)) ->
  well_gapped w -> respaced (flat w) (flat (regap f w)).
Proof.
  intros Hf [Hits Htl]. unfold flat, regap. cbn [fst snd].
  destruct w as [its tl]. cbn [fst snd] in *.
  assert (H : forall prev,
            respaced (flat_items its ++ tl)
              (flat_items (regap_items f prev its) ++ f (last_neighbour prev its) tl Edge));
    [|apply H].
  induction Hits as [|[g x] its [Hg Hx] Hits IH]; intros prev.
  - cbn [flat_items regap_items last_neighbour app]. apply Hf, Htl.
  - cbn [flat_items regap_items last_neighbour fst snd] in *.
    rewrite <- !app_assoc. cbn [app]. apply respaced_app; [apply Hf, Hg|].
    constructor. apply IH.
Qed.

Lemma respaced_around (g before kept after : gostring) :
  respaced [] before -> respaced g kept -> respaced [] after ->
  respaced g (before ++ kept ++ after).
Proof.
  intros Hb Hk Ha. change g with ([] ++ g). apply respaced_app; [exact Hb|].
  rewrite <- (app_nil_r g). apply respaced_app; assumption.
Qed.

Lemma respaced_pad_rule c l r prev g next :
  forallb (Ascii.eqb " ") l = true -> forallb (Ascii.eqb " ") r = true ->
  spaces g = true -> respaced g (pad_rule c l r prev g next).
Proof.
  intros Hl Hr Hg. unfold pad_rule.
  assert (Hins : forall (b : bool) (t : gostring), forallb (Ascii.eqb " ") t = true ->
            respaced [] (if b then t else [])).
  { intros [] t Ht; [apply respaced_inserted, Ht|constructor]. }
  apply respaced_around; [apply Hins, Hr| |apply Hins, Hl].
  destruct (_ || _); [apply respaced_removed, spaces_trim_space, Hg|apply respaced_refl].
Qed.

Lemma respaced_squeeze g : spaces g = true -> respaced g (squeeze g).
Proof.
  intros Hg. destruct g as [|c g]; [constructor|]. cbn [squeeze str list_ascii_of_string].
  apply respaced_insert. apply respaced_removed, spaces_trim_space, Hg.
Qed.

Lemma respaced_spacing_rule prev g next :
  spaces g = true -> respaced g (spacing_rule prev g next).
Proof.
  intros Hg. unfold spacing_rule, then_rule.
  pose proof (keeps_spaces_pad SymEq (str " ") (str " ") eq_refl eq_refl prev g next Hg) as H1.
  pose proof (keeps_spaces_pad SymComma [] (str " ") eq_refl eq_refl prev _ next H1) as H2.
  pose proof (keeps_spaces_squeeze prev _ next H2) as H3.
  pose proof (keeps_spaces_pad SymOpen (str " ") (str " ") eq_refl eq_refl prev _ next H3)
    as H4.
  pose proof (respaced_pad_rule SymEq (str " ") (str " ") prev g next eq_refl eq_refl Hg)
    as R1.
  pose proof (respaced_pad_rule SymComma [] (str " ") prev _ next eq_refl eq_refl H1) as R2.
  pose proof (respaced_squeeze _ H2) as R3.
  pose proof (respaced_pad_rule SymOpen (str " ") (str " ") prev _ next eq_refl eq_refl H3)
    as R4.
  pose proof (respaced_pad_rule SymClose (str " ") (str " ") prev _ next eq_refl eq_refl H4)
    as R5.
  exact (respaced_trans _ _ _ R1
           (respaced_trans _ _ _ R2 (respaced_trans _ _ _ R3 (respaced_trans _ _ _ R4 R5)))).
Qed.

Lemma respaced_collapse_spaces s : respaced s (collapse_spaces s).
Proof.
  destruct (gapped_exists s) as [w [Hw ->]]. rewrite (collapse_spaces_gapped w Hw).
  apply respaced_regap; [|exact Hw]. intros prev g next Hg. apply respaced_squeeze, Hg.
Qed.

Lemma respaced_spacing s : respaced s (spacing s).
Proof.
  destruct (gapped_exists s) as [w [Hw ->]]. rewrite (spacing_gapped w Hw).
  apply respaced_regap; [|exact Hw]. intros prev g next Hg. apply respaced_spacing_rule, Hg.
Qed.

Lemma respaced_TrimSpace s : respaced s (TrimSpace s).
Proof.
  destruct (TrimSpace_between s) as (sp & sp' & Hs & Hsp & Hsp').
  rewrite Hs at 1. change (TrimSpace s) with ([] ++ TrimSpace s) at 2.
  apply respaced_app; [apply respaced_removed, Hsp|].
  rewrite <- (app_nil_r (TrimSpace s)) at 2.
  apply respaced_app; [apply respaced_refl|apply respaced_removed, Hsp'].
Qed.

(** The characters that the two steps leave. *)
Lemma masks_to_upper x m c :
  masks_to x m -> In c m -> is_upper c = true -> c = "N"%char \/ c = "S"%char.
Proof.
  intros H. induction H as [|c0 s o Hc0 H IH|d s o Hd Hdig Hs H IH|q body s o Hq H IH];
    intros Hc Hup.
  - contradiction Hc.
  - destruct Hc as [<-|Hc]; [|exact (IH Hc Hup)]. exfalso. revert Hup.
    destruct c0 as [[] [] [] [] [] [] [] []]; vm_compute; discriminate.
  - destruct Hc as [<-|Hc]; [left; reflexivity|exact (IH Hc Hup)].
  - destruct Hc as [<-|Hc]; [right; reflexivity|exact (IH Hc Hup)].
Qed.

Lemma respaced_In m o c : respaced m o -> In c o -> In c m \/ c = " "%char.
Proof.
  intros H. induction H as [|x s o H IH|x s o Hx H IH|s o H IH]; intros Hc.
  - contradiction Hc.
  - destruct Hc as [<-|Hc]; [left; left; reflexivity|].
    destruct (IH Hc) as [Hin|Heq]; [left; right; exact Hin|right; exact Heq].
  - destruct (IH Hc) as [Hin|Heq]; [left; right; exact Hin|right; exact Heq].
  - destruct Hc as [<-|Hc]; [right; reflexivity|exact (IH Hc)].
Qed.

(** C10, as stated for every string, fails outside ASCII: an upper-case
    letter without a lower-case form is carried over as it is. *)
Lemma C10_counterexample :
  ~ (forall x letter,
       upper_case_letter letter -> Contains (normalizeQuery x) letter = true ->
       letter = str "N" \/ letter = str "S").
Proof.
  intros H.
  destruct (H (str "id = " ++ bold_capital_a) bold_capital_a upper_case_bold_a)
    as [Heq|Heq]; [vm_compute; reflexivity|discriminate Heq..].
Qed.

(** C10, amended: the result of [normalizeQuery] on ASCII text is made from
    the statement in two steps.  The first carries every character that is
    not a digit over in lower case, unless it lies in a stretch from a quote
    to a later quote of the same kind, for which S stands, and puts N for
    every maximal run of digits outside these stretches; the second only
    removes white space and inserts spaces.  So the only upper-case letters
    of the result are the N and the S that were put in. *)
Theorem C10_upper_case_only_tokens (x : gostring) :
  ascii_text x ->
  (exists m, masks_to x m /\ respaced m (normalizeQuery x))
  /\ forall c, In c (normalizeQuery x) -> is_upper c = true ->
               c = "N"%char \/ c = "S"%char.
Proof.
  intros _.
  assert (Hsteps : masks_to x (mask (ToLower x))
                   /\ respaced (mask (ToLower x)) (normalizeQuery x)).
  { split; [apply masks_to_mask|]. rewrite normalizeQuery_normal_form.
    eapply respaced_trans; [apply respaced_collapse_spaces|].
    eapply respaced_trans; [apply respaced_TrimSpace|]. apply respaced_spacing. }
  destruct Hsteps as [Hmask Hspace].
  split; [exists (mask (ToLower x)); split; assumption|].
  intros c Hc Hup. destruct (respaced_In _ _ c Hspace Hc) as [Hin| ->].
  - exact (masks_to_upper _ _ c Hmask Hin Hup).
  - discriminate Hup.
Qed.

Lemma C10_witness :
  let x := str "WHERE Name = 'Bob' AND n = 12" in
  (exists m, masks_to x m /\ respaced m (normalizeQuery x))
  /\ forall c, In c (normalizeQuery x) -> is_upper c = true ->
               c = "N"%char \/ c = "S"%char.
Proof.
  intros x. apply (C10_upper_case_only_tokens x).
  unfold ascii_text, x. repeat constructor.
Defined.

Lemma masks_to_empty m : masks_to [] m -> m = [].
Proof.
  intros H. inversion H; [reflexivity|].
  match goal with He : ?d ++ _ = [] |- _ => destruct d; [congruence|discriminate He] end.
Qed.

(** The first piece of a statement that begins with a letter is this
    letter, carried over in lower case. *)
Lemma masks_to_letter c s m :
  is_digit c = false -> is_quote c = false ->
  masks_to (c :: s) m -> exists o, m = lower c :: o /\ masks_to s o.
Proof.
  intros Hd Hq H. inversion H; subst.
  - eexists. split; [reflexivity|assumption].
  - match goal with He : ?d ++ _ = _ :: _ |- _ =>
      destruct d as [|c' d']; [congruence|injection He as -> _] end.
    match goal with Hdig : forallb is_digit _ = true |- _ =>
      cbn [forallb] in Hdig; rewrite Hd in Hdig; discriminate Hdig end.
  - congruence.
Qed.

(** The letters N and S of a statement are not carried over as they are. *)
Example capital_letters_lowered m : masks_to (str "SN") m -> m = str "sn".
Proof.
  intros H. cbn [str list_ascii_of_string] in H.
  apply masks_to_letter in H as [o [-> H]]; [|reflexivity..].
  apply masks_to_letter in H as [o' [-> H]]; [|reflexivity..].
  rewrite (masks_to_empty _ H). reflexivity.
Qed.

(** ** Statements that differ only in case, white space and literals *)

Lemma blanks_spaces u : blanks u = true -> spaces u = true.
Proof.
  unfold blanks, spaces. rewrite !forallb_forall. intros H c Hc.
  apply is_blank_space, H, Hc.
Qed.

Lemma blanks_trim_space u : blanks u = true -> forallb is_trim_space u = true.
Proof. intros H. apply spaces_trim_space, blanks_spaces, H. Qed.

Lemma lower_space c : is_space c = true -> lower c = c.
Proof. destruct c as [[] [] [] [] [] [] [] []]; vm_compute; congruence. Qed.

Lemma lower_digit c : is_digit c = true -> lower c = c.
Proof. destruct c as [[] [] [] [] [] [] [] []]; vm_compute; congruence. Qed.

Lemma lower_spaced p : is_spaced p = true -> lower p = p.
Proof. destruct p as [[] [] [] [] [] [] [] []]; vm_compute; congruence. Qed.

Lemma ToLower_class (p : ascii -> bool) s :
  (forall c, p c = true -> lower c = c) -> forallb p s = true -> ToLower s = s.
Proof.
  intros Hp. induction s as [|c s IH]; cbn [forallb ToLower map]; [reflexivity|].
  intros Hs. apply andb_true_iff in Hs as [Hc Hs].
  rewrite (Hp c Hc). f_equal. exact (IH Hs).
Qed.

Lemma ToLower_app a b : ToLower (a ++ b) = ToLower a ++ ToLower b.
Proof. apply map_app. Qed.

(** *** Letter case *)

Lemma normalizeQuery_case x y : ToLower x = ToLower y -> normalizeQuery x = normalizeQuery y.
Proof. intros H. rewrite !normalizeQuery_normal_form, H. reflexivity. Qed.

(** *** Runs of blanks, and blanks at the ends *)

Lemma collapse_spaces_run a u u' b :
  nonempty u = true -> spaces u = true -> nonempty u' = true -> spaces u' = true ->
  collapse_spaces (a ++ u ++ b) = collapse_spaces (a ++ u' ++ b).
Proof.
  intros Hn Hu Hn' Hu'. unfold collapse_spaces.
  rewrite !(collapse_run_app is_space _ a).
  rewrite (collapse_run_class is_space _ u), (collapse_run_class is_space _ u')
    by assumption.
  reflexivity.
Qed.

Lemma normalizeQuery_blank_run a u u' b :
  nonempty u = true -> blanks u = true -> nonempty u' = true -> blanks u' = true ->
  normalizeQuery (a ++ u ++ b) = normalizeQuery (a ++ u' ++ b).
Proof.
  intros Hn Hu Hn' Hu'. rewrite !normalizeQuery_passes.
  rewrite (collapse_spaces_run a u u' b) by (try apply blanks_spaces; assumption).
  reflexivity.
Qed.

Lemma normalizeQuery_blank_ends u x v :
  blanks u = true -> blanks v = true -> normalizeQuery (u ++ x ++ v) = normalizeQuery x.
Proof.
  intros Hu Hv. rewrite <- (normalizeQuery_TrimSpace (u ++ x ++ v)).
  rewrite TrimSpace_spaces_app by (apply blanks_trim_space, Hu).
  rewrite TrimSpace_app_spaces by (apply blanks_trim_space, Hv).
  apply normalizeQuery_TrimSpace.
Qed.

(** *** Numbers *)

Lemma normalizeQuery_number a d d' b :
  nonempty d = true -> forallb is_digit d = true ->
  nonempty d' = true -> forallb is_digit d' = true ->
  normalizeQuery (a ++ d ++ b) = normalizeQuery (a ++ d' ++ b).
Proof.
  intros Hn Hd Hn' Hd'. rewrite !normalizeQuery_normal_form, <- !mask_order.
  rewrite !ToLower_app, (ToLower_class is_digit d lower_digit Hd),
    (ToLower_class is_digit d' lower_digit Hd').
  unfold mask_digits.
  rewrite !(collapse_run_app is_digit _ (ToLower a)).
  rewrite (collapse_run_class is_digit _ d), (collapse_run_class is_digit _ d')
    by assumption.
  reflexivity.
Qed.

(** *** Literals *)

Lemma even_succ_true n : Nat.even (S n) = true -> Nat.even n = false.
Proof. rewrite Nat.even_succ, <- Nat.negb_even. apply negb_true_iff. Qed.

Lemma even_succ_false n : Nat.even (S n) = false -> Nat.even n = true.
Proof. rewrite Nat.even_succ, <- Nat.negb_even. apply negb_false_iff. Qed.

(** After an even number of quotes the masking starts afresh. *)
Lemma quoted_go_even q rep a :
  (Nat.even (occ q a) = true ->
   forall s, quoted_go q rep None (a ++ s)
             = quoted_go q rep None a ++ quoted_go q rep None s)
  /\ (Nat.even (occ q a) = false ->
      forall body s, quoted_go q rep (Some body) (a ++ s)
                     = quoted_go q rep (Some body) a ++ quoted_go q rep None s).
Proof.
  induction a as [|x a [IHeven IHodd]]; cbn [occ app quoted_go].
  - split; [reflexivity|discriminate].
  - destruct (Ascii.eqb q x); cbn [Nat.add].
    + split.
      * intros Hev s. apply IHodd, even_succ_true, Hev.
      * intros Hev body s. rewrite <- app_assoc. f_equal.
        apply IHeven, even_succ_false, Hev.
    + split.
      * intros Hev s. cbn [app]. f_equal. apply IHeven, Hev.
      * intros Hev body s. apply IHodd, Hev.
Qed.

Lemma free_of_app q a b : free_of q (a ++ b) = free_of q a && free_of q b.
Proof. unfold free_of, none_in. apply forallb_app. Qed.

Lemma free_of_In q s : free_of q s = true -> ~ In q s.
Proof.
  unfold free_of, none_in. rewrite forallb_forall. intros H Hin.
  specialize (H q Hin). rewrite Ascii.eqb_refl in H. discriminate H.
Qed.

(** Before a literal in apostrophes the apostrophes are even in number. *)
Lemma outside_even a rest :
  outside true a rest -> In "'"%char rest -> Nat.even (occ "'" a) = true.
Proof.
  intros H Hin.
  induction H as [rest|c a rest Hc H IH|q a rest Hq Hfree H IH|q body a rest Hq Hb Hp H IH].
  - reflexivity.
  - cbn [occ]. destruct (Ascii.eqb_spec "'" c) as [<-|_]; [discriminate Hc|]. apply IH, Hin.
  - cbn [occ]. destruct (Ascii.eqb_spec "'" q) as [<-|_]; [|apply IH, Hin].
    exfalso. apply (free_of_In _ _ Hfree), in_or_app. right. exact Hin.
  - specialize (Hp eq_refl).
    assert (Hocc : occ "'" (q :: body ++ q :: a)
                   = (if Ascii.eqb "'" q then 2 else 0) + occ "'" a).
    { change (q :: body ++ q :: a) with ([q] ++ body ++ [q] ++ a).
      rewrite !occ_app, (proj2 (occ_free _ _) Hp). cbn [occ].
      destruct (Ascii.eqb "'" q); lia. }
    rewrite Hocc. destruct (Ascii.eqb "'" q); exact (IH Hin).
Qed.

Lemma outside_lower plain a rest :
  outside plain a rest -> outside plain (ToLower a) (ToLower rest).
Proof.
  intros H.
  induction H as [rest|c a rest Hc H IH|q a rest Hq Hfree H IH|q body a rest Hq Hb Hp H IH];
    cbn [ToLower map].
  - constructor.
  - apply outside_char; [rewrite is_quote_lower; exact Hc|exact IH].
  - rewrite (lower_quote q Hq). apply outside_unmatched; [exact Hq| |exact IH].
    unfold ToLower. rewrite <- map_app, (free_of_lower q _ Hq). exact Hfree.
  - rewrite map_app. cbn [map]. rewrite (lower_quote q Hq).
    apply outside_literal; [exact Hq| | |exact IH].
    + rewrite (free_of_lower q _ Hq). exact Hb.
    + intros Hplain. rewrite (free_of_lower "'" _ eq_refl). exact (Hp Hplain).
Qed.

(** The literals in apostrophes. *)
Lemma mask_single_quoted a body b :
  Nat.even (occ "'" a) = true -> free_of "'" body = true ->
  mask_quoted "'" (a ++ "'"%char :: body ++ "'"%char :: b)
  = mask_quoted "'" a ++ str "S" ++ mask_quoted "'" b.
Proof.
  intros Ha Hb. unfold mask_quoted.
  rewrite (proj1 (quoted_go_even "'" (str "S") a) Ha), quoted_go_literal by exact Hb.
  reflexivity.
Qed.

(** The text before a literal goes through the two maskings of literals
    piece by piece, whatever the contents of the literals that follow. *)
Lemma mask_outside a rest :
  outside true a rest ->
  exists image, forall rest',
    (forall q, is_quote q = true -> free_of q rest' = free_of q rest) ->
    mask_quoted "034" (mask_quoted "'" (a ++ rest'))
    = image ++ mask_quoted "034" (mask_quoted "'" rest').
Proof.
  intros H.
  induction H as [rest|c a rest Hc H [image IH]|q a rest Hq Hfree H [image IH]
                 |q body a rest Hq Hb Hp H [image IH]].
  - exists []. reflexivity.
  - exists (c :: image). intros rest' Hrest. unfold mask_quoted in *.
    unfold is_quote in Hc. apply orb_false_iff in Hc as [Hc1 Hc2].
    rewrite Ascii.eqb_sym in Hc1. rewrite Ascii.eqb_sym in Hc2.
    cbn [app quoted_go]. rewrite Hc1. cbn [quoted_go]. rewrite Hc2.
    rewrite (IH rest' Hrest). reflexivity.
  - exists (q :: image). intros rest' Hrest.
    assert (Hfree' : free_of q (a ++ rest') = true).
    { specialize (Hrest q Hq). unfold free_of in Hfree, Hrest |- *.
      rewrite none_in_app in Hfree |- *.
      apply andb_true_iff in Hfree as [Ha Hr]. rewrite Hrest, Ha, Hr. reflexivity. }
    cbn [app]. rewrite <- (IH rest' Hrest).
    unfold is_quote in Hq. apply orb_true_iff in Hq as [Hq|Hq];
      apply Ascii.eqb_eq in Hq; subst q.
    + unfold mask_quoted at 2 4.
      rewrite (quoted_go_open "'" _ _ Hfree'), (quoted_go_free_id "'" _ _ Hfree').
      reflexivity.
    + unfold mask_quoted at 2. cbn [quoted_go Ascii.eqb Bool.eqb andb].
      fold (mask_quoted "'" (a ++ rest')).
      assert (Hm : free_of "034" (mask_quoted "'" (a ++ rest')) = true).
      { apply none_in_mask_quoted; [reflexivity|exact Hfree']. }
      unfold mask_quoted at 1 3.
      rewrite (quoted_go_open "034" _ _ Hm), (quoted_go_free_id "034" _ _ Hm).
      reflexivity.
  - exists ("S"%char :: image). intros rest' Hrest. specialize (Hp eq_refl).
    rewrite <- app_comm_cons, <- app_assoc, <- app_comm_cons.
    unfold is_quote in Hq. apply orb_true_iff in Hq as [Hq|Hq];
      apply Ascii.eqb_eq in Hq; subst q.
    + unfold mask_quoted at 2. rewrite quoted_go_literal by exact Hb.
      fold (mask_quoted "'" (a ++ rest')).
      unfold mask_quoted at 1.
      cbn [str list_ascii_of_string app quoted_go Ascii.eqb Bool.eqb andb].
      f_equal. exact (IH rest' Hrest).
    + change ("034"%char :: body ++ "034"%char :: a ++ rest')
        with (("034"%char :: body) ++ "034"%char :: (a ++ rest')).
      unfold mask_quoted at 2.
      rewrite (quoted_go_free "'" _ ("034"%char :: body))
        by (unfold free_of in *; rewrite none_in_cons, Hp; reflexivity).
      cbn [quoted_go Ascii.eqb Bool.eqb andb].
      fold (mask_quoted "'" (a ++ rest')).
      unfold mask_quoted at 1. cbn [app]. rewrite quoted_go_literal by exact Hb.
      cbn [str list_ascii_of_string app]. f_equal. exact (IH rest' Hrest).
Qed.

Lemma normalizeQuery_literal a q body body' b :
  is_quote q = true -> free_of q body = true -> free_of q body' = true ->
  free_of "'" body = true -> free_of "'" body' = true ->
  outside true a (q :: body ++ q :: b) ->
  normalizeQuery (a ++ q :: body ++ q :: b) = normalizeQuery (a ++ q :: body' ++ q :: b).
Proof.
  intros Hq Hb Hb' Hp Hp' Hout. rewrite !normalizeQuery_normal_form. unfold mask.
  do 3 f_equal. f_equal.
  apply outside_lower in Hout.
  rewrite !ToLower_app. cbn [ToLower map] in *. rewrite !map_app in *. cbn [map] in *.
  rewrite (lower_quote q Hq) in *.
  rewrite <- (free_of_lower q body Hq) in Hb. rewrite <- (free_of_lower q body' Hq) in Hb'.
  rewrite <- (free_of_lower "'" body eq_refl) in Hp.
  rewrite <- (free_of_lower "'" body' eq_refl) in Hp'.
  unfold is_quote in Hq. apply orb_true_iff in Hq as [Hq|Hq];
    apply Ascii.eqb_eq in Hq; subst q.
  - assert (Heven : Nat.even (occ "'" (map lower a)) = true).
    { apply (outside_even _ _ Hout). left. reflexivity. }
    rewrite !mask_single_quoted by assumption. reflexivity.
  - destruct (mask_outside _ _ Hout) as [image Himage].
    assert (Hsame : forall body0,
              free_of "034" body0 = true -> free_of "'" body0 = true ->
              mask_quoted "034"
                (mask_quoted "'" ("034"%char :: body0 ++ "034"%char :: map lower b))
              = str "S" ++ mask_quoted "034" (mask_quoted "'" (map lower b))).
    { intros body0 H0 H0'.
      change ("034"%char :: body0 ++ "034"%char :: map lower b)
        with (("034"%char :: body0) ++ "034"%char :: map lower b).
      unfold mask_quoted at 2.
      rewrite (quoted_go_free "'" _ ("034"%char :: body0))
        by (unfold free_of in *; rewrite none_in_cons, H0'; reflexivity).
      cbn [quoted_go Ascii.eqb Bool.eqb andb]. fold (mask_quoted "'" (map lower b)).
      unfold mask_quoted at 1. cbn [app]. rewrite quoted_go_literal by exact H0.
      reflexivity. }
    rewrite !Himage.
    + rewrite (Hsame _ Hb Hp), (Hsame _ Hb' Hp'). reflexivity.
    + intros q0 Hq0. unfold free_of in *.
      rewrite !none_in_cons, !none_in_app, !none_in_cons.
      unfold is_quote in Hq0. apply orb_true_iff in Hq0 as [Hq0|Hq0];
        apply Ascii.eqb_eq in Hq0; subst q0; [|reflexivity].
      rewrite Hp, Hp'. reflexivity.
    + intros q0 Hq0. reflexivity.
Qed.

(** *** Blanks next to [=], [,], [(] and [)] *)

Lemma spaced_cases p :
  is_spaced p = true -> p = "="%char \/ p = ","%char \/ p = "("%char \/ p = ")"%char.
Proof.
  unfold is_spaced. rewrite !orb_true_iff, !Ascii.eqb_eq. tauto.
Qed.

Lemma spaced_not_space p : is_spaced p = true -> is_space p = false.
Proof. intros H. destruct (spaced_cases p H) as [->|[->|[->| ->]]]; reflexivity. Qed.

Lemma spaced_not_trim_space p : is_spaced p = true -> is_trim_space p = false.
Proof. intros H. destruct (spaced_cases p H) as [->|[->|[->| ->]]]; reflexivity. Qed.

Lemma spaces_none_in (p : ascii -> bool) u :
  (forall c, is_space c = true -> p c = false) -> spaces u = true -> none_in p u = true.
Proof.
  intros Hp. unfold spaces, none_in. rewrite !forallb_forall. intros H c Hc.
  rewrite (Hp c (H c Hc)). reflexivity.
Qed.

(** The text around the character, gaps included, has no quote and no
    digit. *)
Lemma gap_none_in (cls : ascii -> bool) p u v :
  (forall c, is_space c = true -> cls c = false) -> cls p = false ->
  spaces u = true -> spaces v = true -> none_in cls (u ++ p :: v) = true.
Proof.
  intros Hcls Hp Hu Hv. rewrite none_in_app, none_in_cons, Hp.
  rewrite !(spaces_none_in cls) by assumption. reflexivity.
Qed.

Lemma space_not_quote q c : is_quote q = true -> is_space c = true -> Ascii.eqb q c = false.
Proof.
  intros Hq Hc. destruct (Ascii.eqb_spec q c) as [<-|]; [|reflexivity].
  unfold is_quote in Hq. apply orb_true_iff in Hq as [Hq|Hq];
    apply Ascii.eqb_eq in Hq; subst q; discriminate Hc.
Qed.

Lemma spaced_not_quote q p : is_quote q = true -> is_spaced p = true -> Ascii.eqb q p = false.
Proof.
  intros Hq Hp. destruct (Ascii.eqb_spec q p) as [<-|]; [|reflexivity].
  unfold is_quote in Hq. apply orb_true_iff in Hq as [Hq|Hq];
    apply Ascii.eqb_eq in Hq; subst q; discriminate Hp.
Qed.

Lemma spaced_not_digit p : is_spaced p = true -> is_digit p = false.
Proof. intros H. destruct (spaced_cases p H) as [->|[->|[->| ->]]]; reflexivity. Qed.

Lemma gaps_around_lower p s s' :
  is_spaced p = true -> gaps_around p s s' -> gaps_around p (ToLower s) (ToLower s').
Proof.
  intros Hp (before & after & u & v & u' & v' & Hu & Hv & Hu' & Hv' & -> & ->).
  exists (ToLower before), (ToLower after), u, v, u', v'.
  repeat (split; [assumption|]).
  rewrite !ToLower_app. cbn [ToLower map]. rewrite !map_app, (lower_spaced p Hp).
  fold (ToLower u) (ToLower v) (ToLower u') (ToLower v').
  rewrite (ToLower_class is_space u lower_space Hu), (ToLower_class is_space v lower_space Hv),
    (ToLower_class is_space u' lower_space Hu'), (ToLower_class is_space v' lower_space Hv').
  split; reflexivity.
Qed.

(** What the masking of literals has written, and its state, after a
    prefix. *)
Lemma quoted_go_state q rep a : forall inside,
  exists out inside',
    forall s, quoted_go q rep inside (a ++ s) = out ++ quoted_go q rep inside' s.
Proof.
  induction a as [|x a IH]; intros inside.
  - exists [], inside. reflexivity.
  - cbn [app quoted_go]. destruct inside as [body|]; destruct (Ascii.eqb q x).
    + destruct (IH None) as (out & st & H). exists (rep ++ out), st.
      intros s. rewrite H, app_assoc. reflexivity.
    + destruct (IH (Some (body ++ [x]))) as (out & st & H). exists out, st. exact H.
    + destruct (IH (Some [])) as (out & st & H). exists out, st. exact H.
    + destruct (IH None) as (out & st & H). exists (x :: out), st.
      intros s. rewrite H. reflexivity.
Qed.

Lemma drop_class_app_class (cls : ascii -> bool) m s :
  forallb cls m = true -> drop_class cls (m ++ s) = drop_class cls s.
Proof.
  induction m as [|x m IH]; cbn [forallb app drop_class]; [reflexivity|].
  intros H. apply andb_true_iff in H as [Hx Hm]. rewrite Hx. exact (IH Hm).
Qed.

Lemma free_of_not_quote q m : free_of q m = true -> forallb (not_quote q) m = true.
Proof.
  unfold free_of, none_in. rewrite !forallb_forall. intros H x Hx.
  unfold not_quote. rewrite Ascii.eqb_sym. exact (H x Hx).
Qed.

Lemma mask_quoted_gaps q p s s' :
  is_quote q = true -> is_spaced p = true -> gaps_around p s s' ->
  mask_quoted q s = mask_quoted q s' \/ gaps_around p (mask_quoted q s) (mask_quoted q s').
Proof.
  intros Hq Hp (before & after & u & v & u' & v' & Hu & Hv & Hu' & Hv' & -> & ->).
  assert (Hfree : forall u v, spaces u = true -> spaces v = true ->
            free_of q (u ++ p :: v) = true).
  { intros u0 v0 Hu0 Hv0. apply gap_none_in; try assumption.
    - intros c Hc. apply space_not_quote; assumption.
    - apply spaced_not_quote; assumption. }
  unfold mask_quoted.
  destruct (quoted_go_state q (str "S") before None) as (out & [body|] & Hstate);
    rewrite !Hstate.
  - change (u ++ p :: v ++ after) with (u ++ (p :: v) ++ after).
    change (u' ++ p :: v' ++ after) with (u' ++ (p :: v') ++ after).
    rewrite !(app_assoc _ _ after), !quoted_inside.
    rewrite !drop_class_app_class by (apply free_of_not_quote, Hfree; assumption).
    destruct (drop_class (not_quote q) after) as [|y rest]; [|left; reflexivity].
    right. exists (out ++ q :: body), after, u, v, u', v'.
    repeat (split; [assumption|]).
    rewrite <- ?app_assoc. cbn [app]. rewrite <- ?app_assoc. split; reflexivity.
  - right. exists out, (quoted_go q (str "S") None after), u, v, u', v'.
    repeat (split; [assumption|]).
    change (u ++ p :: v ++ after) with (u ++ (p :: v) ++ after).
    change (u' ++ p :: v' ++ after) with (u' ++ (p :: v') ++ after).
    rewrite !(app_assoc _ _ after), !quoted_go_free by (apply Hfree; assumption).
    rewrite <- ?app_assoc. split; reflexivity.
Qed.

Lemma mask_digits_gaps p s s' :
  is_spaced p = true -> gaps_around p s s' ->
  gaps_around p (mask_digits s) (mask_digits s').
Proof.
  intros Hp (before & after & u & v & u' & v' & Hu & Hv & Hu' & Hv' & -> & ->).
  assert (Hnone : forall u v, spaces u = true -> spaces v = true ->
            none_in is_digit (u ++ p :: v) = true).
  { intros u0 v0 Hu0 Hv0. apply gap_none_in; try assumption.
    - apply space_not_digit.
    - apply spaced_not_digit, Hp. }
  exists (mask_digits before), (mask_digits after), u, v, u', v'.
  repeat (split; [assumption|]). unfold mask_digits.
  change (u ++ p :: v ++ after) with (u ++ (p :: v) ++ after).
  change (u' ++ p :: v' ++ after) with (u' ++ (p :: v') ++ after).
  rewrite (app_assoc u (p :: v) after), (app_assoc u' (p :: v') after).
  rewrite !(collapse_run_app is_digit _ before).
  rewrite !(collapse_run_free_app is_digit)
    by (first [apply Hnone; assumption | intros H; destruct u, u'; discriminate H]).
  rewrite <- ?app_assoc. split; reflexivity.
Qed.

Lemma collapse_run_gap st u c rest :
  spaces u = true -> is_space c = false ->
  exists u1, spaces u1 = true
             /\ collapse_run is_space (str " ") st (u ++ c :: rest)
                = u1 ++ c :: collapse_run is_space (str " ") false rest.
Proof.
  intros Hu Hc. destruct u as [|x u].
  - exists []. split; [reflexivity|]. cbn [app collapse_run]. rewrite Hc. reflexivity.
  - exists (if st then [] else str " "). split; [destruct st; reflexivity|].
    rewrite (collapse_run_class is_space _ (x :: u)) by (exact Hu || reflexivity).
    cbn [collapse_run]. rewrite Hc. reflexivity.
Qed.

Lemma collapse_run_gap_after v after :
  spaces v = true ->
  exists v1, spaces v1 = true
             /\ collapse_run is_space (str " ") false (v ++ after)
                = v1 ++ collapse_run is_space (str " ") true after.
Proof.
  intros Hv. destruct v as [|x v].
  - destruct after as [|c t]; [exists []; split; reflexivity|].
    cbn [app collapse_run]. destruct (is_space c).
    + exists (str " "). split; reflexivity.
    + exists []. split; reflexivity.
  - exists (str " "). split; [reflexivity|].
    rewrite (collapse_run_class is_space _ (x :: v)) by (exact Hv || reflexivity).
    reflexivity.
Qed.

Lemma collapse_spaces_gaps p s s' :
  is_spaced p = true -> gaps_around p s s' ->
  gaps_around p (collapse_spaces s) (collapse_spaces s').
Proof.
  intros Hp (before & after & u & v & u' & v' & Hu & Hv & Hu' & Hv' & -> & ->).
  pose proof (spaced_not_space p Hp) as Hsp. unfold collapse_spaces.
  rewrite !(collapse_run_app is_space _ before).
  destruct (collapse_run_gap (state_after is_space false before) u p (v ++ after) Hu Hsp)
    as (u1 & Hu1 & ->).
  destruct (collapse_run_gap (state_after is_space false before) u' p (v' ++ after) Hu' Hsp)
    as (u1' & Hu1' & ->).
  destruct (collapse_run_gap_after v after Hv) as (v1 & Hv1 & ->).
  destruct (collapse_run_gap_after v' after Hv') as (v1' & Hv1' & ->).
  exists (collapse_run is_space (str " ") false before),
    (collapse_run is_space (str " ") true after), u1, v1, u1', v1'.
  repeat (split; [assumption|]). split; reflexivity.
Qed.

Lemma trim_left_app_keep a s :
  forallb is_trim_space a = false -> trim_left (a ++ s) = trim_left a ++ s.
Proof.
  induction a as [|x a IH]; cbn [forallb app trim_left]; [discriminate|].
  destruct (is_trim_space x); cbn [andb]; [exact IH|reflexivity].
Qed.

Lemma trim_right_app_keep s b :
  forallb is_trim_space b = false -> trim_right (s ++ b) = s ++ trim_right b.
Proof.
  intros Hb. unfold trim_right.
  rewrite rev_app_distr, trim_left_app_keep by (rewrite forallb_rev; exact Hb).
  rewrite rev_app_distr, rev_involutive. reflexivity.
Qed.

Lemma trim_right_all sp : forallb is_trim_space sp = true -> trim_right sp = [].
Proof.
  intros H. unfold trim_right. rewrite trim_left_all by (rewrite forallb_rev; exact H).
  reflexivity.
Qed.

Lemma TrimSpace_gaps p s s' :
  is_spaced p = true -> gaps_around p s s' ->
  gaps_around p (TrimSpace s) (TrimSpace s').
Proof.
  intros Hp (before & after & u & v & u' & v' & Hu & Hv & Hu' & Hv' & -> & ->).
  pose proof (spaced_not_trim_space p Hp) as Hts.
  assert (Hleft : exists before1 u1 u1',
            spaces u1 = true /\ spaces u1' = true
            /\ (forall r, trim_left (before ++ u ++ p :: r) = before1 ++ u1 ++ p :: r)
            /\ (forall r, trim_left (before ++ u' ++ p :: r) = before1 ++ u1' ++ p :: r)).
  { destruct (forallb is_trim_space before) eqn:Hb.
    - exists [], [], []. repeat (split; [reflexivity|]).
      split; intros r; rewrite trim_left_spaces_app by exact Hb;
        rewrite trim_left_spaces_app by (apply spaces_trim_space; assumption);
        cbn [trim_left app]; rewrite Hts; reflexivity.
    - exists (trim_left before), u, u'. repeat (split; [assumption|]).
      split; intros r; apply trim_left_app_keep, Hb. }
  destruct Hleft as (before1 & u1 & u1' & Hu1 & Hu1' & Hl & Hl').
  assert (Hright : exists after1 v1 v1',
            spaces v1 = true /\ spaces v1' = true
            /\ trim_right (v ++ after) = v1 ++ after1
            /\ trim_right (v' ++ after) = v1' ++ after1).
  { destruct (forallb is_trim_space after) eqn:Ha.
    - exists [], [], []. repeat (split; [reflexivity|]).
      split; apply trim_right_all; rewrite forallb_app, Ha, andb_true_r;
        apply spaces_trim_space; assumption.
    - exists (trim_right after), v, v'. repeat (split; [assumption|]).
      split; apply trim_right_app_keep, Ha. }
  destruct Hright as (after1 & v1 & v1' & Hv1 & Hv1' & Hr & Hr').
  exists before1, after1, u1, v1, u1', v1'. repeat (split; [assumption|]).
  unfold TrimSpace. rewrite Hl, Hl'.
  rewrite !(app_assoc before1), !trim_right_app by exact Hts.
  rewrite Hr, Hr', <- !app_assoc. split; reflexivity.
Qed.

Lemma flat_items_app its1 its2 :
  flat_items (its1 ++ its2) = flat_items its1 ++ flat_items its2.
Proof.
  induction its1 as [|[g x] its1 IH]; [reflexivity|].
  cbn [app flat_items]. rewrite IH, <- app_assoc. reflexivity.
Qed.

Lemma regap_items_app f its1 its2 : forall prev,
  regap_items f prev (its1 ++ its2)
  = regap_items f prev its1 ++ regap_items f (last_neighbour prev its1) its2.
Proof.
  induction its1 as [|[g x] its1 IH]; intros prev; [reflexivity|].
  cbn [app regap_items last_neighbour]. rewrite IH. reflexivity.
Qed.

Lemma last_neighbour_app its1 its2 : forall prev,
  last_neighbour prev (its1 ++ its2) = last_neighbour (last_neighbour prev its1) its2.
Proof.
  induction its1 as [|[g x] its1 IH]; intros prev; [reflexivity|].
  cbn [app last_neighbour]. apply IH.
Qed.

(** Next to [=], [,], [(] and [)] the spacing does not depend on the gap. *)
Lemma spacing_rule_after p g next :
  is_spaced p = true ->
  spacing_rule (neighbour_of p) g next = spacing_rule (neighbour_of p) [] next.
Proof.
  intros Hp. destruct (spaced_cases p Hp) as [->|[->|[->| ->]]];
    destruct next; vm_compute; reflexivity.
Qed.

Lemma spacing_rule_before p prev g :
  is_spaced p = true ->
  spacing_rule prev g (neighbour_of p) = spacing_rule prev [] (neighbour_of p).
Proof.
  intros Hp. destruct (spaced_cases p Hp) as [->|[->|[->| ->]]];
    destruct prev; vm_compute; reflexivity.
Qed.

Lemma spacing_gaps p s s' :
  is_spaced p = true -> gaps_around p s s' -> spacing s = spacing s'.
Proof.
  intros Hp (before & after & u & v & u' & v' & Hu & Hv & Hu' & Hv' & -> & ->).
  pose proof (spaced_not_space p Hp) as Hsp.
  destruct (gapped_exists before) as [[itsA gA] [[HA HgA] ->]].
  destruct (gapped_exists after) as [[itsB gB] [[HB HgB] ->]].
  cbn [fst snd] in *. unfold flat. cbn [fst snd].
  assert (Hkey : forall u v, spaces u = true -> spaces v = true ->
            spacing ((flat_items itsA ++ gA) ++ u ++ p :: v ++ flat_items itsB ++ gB)
            = flat_items (regap_items spacing_rule Edge itsA)
              ++ spacing_rule (last_neighbour Edge itsA) [] (neighbour_of p)
              ++ p :: match itsB with
                      | [] => spacing_rule (neighbour_of p) [] Edge
                      | (g1, x1) :: rest =>
                          spacing_rule (neighbour_of p) [] (neighbour_of x1)
                            ++ x1 :: flat_items (regap_items spacing_rule (neighbour_of x1) rest)
                            ++ spacing_rule (last_neighbour (neighbour_of x1) rest) gB Edge
                      end); [|rewrite !Hkey by assumption; reflexivity].
  clear u v u' v' Hu Hv Hu' Hv'. intros u v Hu Hv.
  destruct itsB as [|[g1 x1] rest].
  - assert (Hw : well_gapped (itsA ++ [(gA ++ u, p)], v ++ gB)).
    { split; cbn [fst snd].
      - apply Forall_app. split; [exact HA|]. constructor; [|constructor].
        cbn [fst snd]. rewrite spaces_app, HgA, Hu. split; [reflexivity|exact Hsp].
      - rewrite spaces_app, Hv, HgB. reflexivity. }
    replace ((flat_items itsA ++ gA) ++ u ++ p :: v ++ flat_items [] ++ gB)
      with (flat (itsA ++ [(gA ++ u, p)], v ++ gB)).
    2: { unfold flat. cbn [fst snd]. rewrite flat_items_app. cbn [flat_items app].
         rewrite <- ?app_assoc. cbn [app]. rewrite ?app_nil_r. reflexivity. }
    rewrite (spacing_gapped _ Hw). unfold flat, regap. cbn [fst snd].
    rewrite regap_items_app, last_neighbour_app, flat_items_app.
    cbn [regap_items last_neighbour flat_items]. rewrite ?app_nil_r, <- ?app_assoc.
    cbn [app]. rewrite (spacing_rule_before p _ (gA ++ u) Hp).
    rewrite (spacing_rule_after p (v ++ gB) _ Hp). reflexivity.
  - inversion HB as [|? ? [Hg1 Hx1] Hrest]; subst. cbn [fst snd] in *.
    assert (Hw : well_gapped (itsA ++ (gA ++ u, p) :: (v ++ g1, x1) :: rest, gB)).
    { split; cbn [fst snd]; [|exact HgB].
      apply Forall_app. split; [exact HA|]. constructor; [|constructor].
      - cbn [fst snd]. rewrite spaces_app, HgA, Hu. split; [reflexivity|exact Hsp].
      - cbn [fst snd]. rewrite spaces_app, Hv, Hg1. split; [reflexivity|exact Hx1].
      - exact Hrest. }
    replace ((flat_items itsA ++ gA) ++ u ++ p :: v ++ flat_items ((g1, x1) :: rest) ++ gB)
      with (flat (itsA ++ (gA ++ u, p) :: (v ++ g1, x1) :: rest, gB)).
    2: { unfold flat. cbn [fst snd]. rewrite flat_items_app. cbn [flat_items app].
         rewrite <- ?app_assoc. cbn [app]. rewrite <- ?app_assoc. reflexivity. }
    rewrite (spacing_gapped _ Hw). unfold flat, regap. cbn [fst snd].
    rewrite regap_items_app, last_neighbour_app, flat_items_app.
    cbn [regap_items last_neighbour flat_items]. rewrite <- ?app_assoc.
    cbn [app]. rewrite <- ?app_assoc. rewrite (spacing_rule_before p _ (gA ++ u) Hp).
    rewrite (spacing_rule_after p (v ++ g1) _ Hp). reflexivity.
Qed.

(** The gaps next to [=], [,], [(] and [)] do not count. *)
Lemma normalizeQuery_gaps p s s' :
  is_spaced p = true -> gaps_around p s s' -> normalizeQuery s = normalizeQuery s'.
Proof.
  intros Hp H. rewrite !normalizeQuery_normal_form. unfold mask.
  apply (gaps_around_lower p _ _ Hp) in H.
  apply (mask_quoted_gaps "'" p _ _ eq_refl Hp) in H as [H|H]; [rewrite H; reflexivity|].
  apply (mask_quoted_gaps "034" p _ _ eq_refl Hp) in H as [H|H]; [rewrite H; reflexivity|].
  apply (mask_digits_gaps p _ _ Hp) in H.
  apply (collapse_spaces_gaps p _ _ Hp) in H.
  apply (TrimSpace_gaps p _ _ Hp) in H.
  apply (spacing_gaps p _ _ Hp), H.
Qed.

Lemma normalizeQuery_blanks_around a u p v b :
  is_spaced p = true -> blanks u = true -> blanks v = true ->
  normalizeQuery (a ++ u ++ p :: v ++ b) = normalizeQuery (a ++ p :: b).
Proof.
  intros Hp Hu Hv. apply (normalizeQuery_gaps p _ _ Hp).
  exists a, b, u, v, [], []. repeat split; try reflexivity; apply blanks_spaces; assumption.
Qed.

(** White space elsewhere counts: between two words it can change, but it
    cannot go. *)
Example white_space_between_words :
  normalizeQuery (str "a<1") <> normalizeQuery (str "a < 1")
  /\ normalizeQuery (str "ab") <> normalizeQuery (str "a b").
Proof. split; vm_compute; discriminate. Qed.

(** C1, as stated, fails: the contents of a double-quoted literal count when
    they contain an apostrophe. *)
Lemma C1_counterexample :
  ~ (forall x x',
       ascii_text x -> ascii_text x' ->
       differ_only_in_literals x x' -> normalizeQuery x = normalizeQuery x').
Proof.
  intros H.
  pose (x := str "a=" ++ "034"%char :: str "it's" ++ "034"%char
               :: str " or b=" ++ "034"%char :: str "it's" ++ ["034"%char]).
  pose (y := str "a=" ++ "034"%char :: str "its" ++ "034"%char
               :: str " or b=" ++ "034"%char :: str "it's" ++ ["034"%char]).
  pose (z := str "a=" ++ "034"%char :: str "its" ++ "034"%char
               :: str " or b=" ++ "034"%char :: str "its" ++ ["034"%char]).
  assert (Hxz : normalizeQuery x = normalizeQuery z).
  { apply H; [unfold ascii_text; repeat constructor..|].
    apply (differ_more false x y z).
    - apply (differ_literal false (str "a=") "034" (str "it's") (str "its")
               (str " or b=" ++ "034"%char :: str "it's" ++ ["034"%char]));
        [reflexivity|reflexivity|reflexivity|discriminate|].
      repeat first [apply outside_nil | apply outside_char; [reflexivity|]].
    - apply (differ_literal false
               (str "a=" ++ "034"%char :: str "its" ++ "034"%char :: str " or b=")
               "034" (str "it's") (str "its") []);
        [reflexivity|reflexivity|reflexivity|discriminate|].
      cbn [str list_ascii_of_string app].
      do 2 (apply outside_char; [reflexivity|]).
      apply (outside_literal false "034" (str "its")); [reflexivity|reflexivity|discriminate|].
      repeat first [apply outside_nil | apply outside_char; [reflexivity|]]. }
  vm_compute in Hxz. discriminate Hxz.
Qed.

(** C1, amended: statements that differ only in letter case, in incidental
    white space, in the digits of their numbers and in the contents of
    literals without apostrophe have the same normalized form. *)
Theorem C1_same_shape_same_normalized (x x' : gostring) :
  ascii_text x -> ascii_text x' ->
  differ_only_in_plain_literals x x' ->
  normalizeQuery x = normalizeQuery x'.
Proof.
  intros _ _ H. unfold differ_only_in_plain_literals in H.
  induction H as [x|x y H IH|x y z Hxy IHxy Hyz IHyz|x y Hcase
                 |a u u' b Hn Hu Hn' Hu'|a u p v b Hp Hu Hv|u x v Hu Hv
                 |a d d' b Hn Hd Hn' Hd'|a q body body' b Hq Hb Hb' Hap Hout].
  - reflexivity.
  - symmetry. exact IH.
  - rewrite IHxy. exact IHyz.
  - apply normalizeQuery_case, Hcase.
  - apply normalizeQuery_blank_run; assumption.
  - apply normalizeQuery_blanks_around; assumption.
  - apply normalizeQuery_blank_ends; assumption.
  - apply normalizeQuery_number; assumption.
  - destruct (Hap eq_refl) as [Hap1 Hap2].
    apply normalizeQuery_literal; assumption.
Qed.

Lemma C1_witness : normalizeQuery sample_statement = normalizeQuery sample_statement'.
Proof.
  apply (C1_same_shape_same_normalized sample_statement sample_statement').
  - unfold ascii_text, sample_statement. repeat constructor.
  - unfold ascii_text, sample_statement'. repeat constructor.
  - unfold differ_only_in_plain_literals.
    (* letter case *)
    apply (differ_more true _
             (str "select * from users where Status = 'active' and id=42 and note="
                ++ ["034"%char]));
      [apply differ_case; reflexivity|].
    (* the run of blanks after select, and the one after from *)
    apply (differ_more true _
             (str "select  * from users where Status = 'active' and id=42 and note="
                ++ ["034"%char]));
      [apply (differ_blank_run true (str "select") (str " ") (str "  ")); reflexivity|].
    apply (differ_more true _
             (str "select  * from" ++ ["010"%char]
                ++ str "users where Status = 'active' and id=42 and note=" ++ ["034"%char]));
      [apply (differ_blank_run true (str "select  * from") (str " ") ["010"%char]);
       reflexivity|].
    (* the blanks around the first = *)
    apply (differ_more true _
             (str "select  * from" ++ ["010"%char]
                ++ str "users where Status='active' and id=42 and note=" ++ ["034"%char]));
      [apply (differ_blanks_around true
                (str "select  * from" ++ ["010"%char] ++ str "users where Status")
                (str " ") "=" (str " ")); reflexivity|].
    (* the contents of the literal *)
    apply (differ_more true _
             (str "select  * from" ++ ["010"%char]
                ++ str "users where Status='on hold' and id=42 and note=" ++ ["034"%char]));
      [apply (differ_literal true
                (str "select  * from" ++ ["010"%char] ++ str "users where Status=")
                "'" (str "active") (str "on hold"));
       [reflexivity|reflexivity|reflexivity|split; reflexivity|];
       repeat first [apply outside_nil | apply outside_char; [reflexivity|]]|].
    (* the blanks around the second = *)
    apply (differ_more true _
             (str "select  * from" ++ ["010"%char]
                ++ str "users where Status='on hold' and id = 42 and note="
                ++ ["034"%char]));
      [apply differ_back;
       apply (differ_blanks_around true
                (str "select  * from" ++ ["010"%char]
                   ++ str "users where Status='on hold' and id")
                (str " ") "=" (str " ")); reflexivity|].
    (* the number *)
    apply (differ_more true _
             (str "select  * from" ++ ["010"%char]
                ++ str "users where Status='on hold' and id = 7 and note="
                ++ ["034"%char]));
      [apply (differ_number true
                (str "select  * from" ++ ["010"%char]
                   ++ str "users where Status='on hold' and id = ")
                (str "42") (str "7")); reflexivity|].
    (* the blank at the end *)
    apply differ_back.
    apply (differ_blanks_at_ends true []
             (str "select  * from" ++ ["010"%char]
                ++ str "users where Status='on hold' and id = 7 and note=" ++ ["034"%char])
             (str " ")); reflexivity.
Defined.

(** The two statements, normalized. *)
Example sample_statement_normalized :
  normalizeQuery sample_statement
  = str "select * from users where status = S and id = N and note = " ++ ["034"%char].
Proof. vm_compute. reflexivity. Qed.
